(** * scavenge: reference-cycle exploration, embedded from [scavenge.py]

    The development follows the source function by function:
    - [OrderedDict]: Python's insertion-ordered [dict] as an association list;
    - [separate]: the disjoint-set pass over the adjacency mapping;
    - [collapse], [prune]: the two simplification passes of
      [explore_cycles.__init__];
    - [varnames], [varmap]: the display names of [explore_cycles.list];
    - [fmtref]: the structural probes that describe a reference;
    - [do_traceback]: the reconciliation of allocation tracebacks;
    - [list_run] and the commands of the session;
    - [init]: construction and ranking of the session, up to its first
      listing.

    Python sets are [gset]s; wherever the source depends on the order in which
    a set is iterated, or on the element that [set.pop] returns, that choice is
    a parameter of the definition. *)

From stdpp Require Import gmap strings list fin_maps fin_sets relations sorting pretty.

#[local] Set Warnings "-clear-no-such-hyp".

(** [class ID(int)]: a node is the integer identity of the wrapped object. *)
Abbreviation ID := Z (only parsing).

(** [object()]: the representative of a component is a fresh object, known
    only by its identity; identities are handed out by a counter. *)
Abbreviation root := nat (only parsing).

(** ** Insertion-ordered dictionaries *)

Module OrderedDict.
Section odict.
Context {K V : Type} `{EqDecision K}.

(** [d[k]]; [None] stands for [KeyError]. *)
Fixpoint get (d : list (K * V)) (k : K) : option V :=
  match d with
  | [] => None
  | (k', v) :: d' => if decide (k' = k) then Some v else get d' k
  end.

(** [d[k] = v]: an existing key keeps its position, a new key goes last. *)
Fixpoint set (d : list (K * V)) (k : K) (v : V) : list (K * V) :=
  match d with
  | [] => [(k, v)]
  | (k', v') :: d' =>
      if decide (k' = k) then (k, v) :: d' else (k', v') :: set d' k v
  end.

Definition remove (d : list (K * V)) (k : K) : list (K * V) :=
  filter (λ kv, kv.1 ≠ k) d.

(** [d.pop(k)]. *)
Definition pop (d : list (K * V)) (k : K) : option (V * list (K * V)) :=
  v ← get d k; Some (v, remove d k).

Definition keys (d : list (K * V)) : list K := d.*1.
Definition values (d : list (K * V)) : list V := d.*2.
End odict.
End OrderedDict.

Import OrderedDict.

(** A loop whose body can raise. *)
Fixpoint foldM {A B : Type} (f : A → B → option A) (a : A) (l : list B)
    : option A :=
  match l with
  | [] => Some a
  | b :: l' => a' ← f a b; foldM f a' l'
  end.

(** ** [separate] *)

Record uf_state := UF {
  rootmap : gmap ID root;
  union : list (root * gset ID);
  fresh : root
}.

Definition uf_init : uf_state := UF ∅ [] 0.

Section separate.
(** [choose roots] is the element returned by [roots.pop()];
    [set_iter s] is the order in which [s] is iterated. *)
Variable choose : gset root → root.
Variable set_iter : gset ID → list ID.

(** [for rmroot in roots: items.update(union.pop(rmroot))], the roots taken
    in the order [rm]. *)
Fixpoint absorb (rm : list root) (items : gset ID)
    (un : list (root * gset ID)) : option (gset ID * list (root * gset ID)) :=
  match rm with
  | [] => Some (items, un)
  | r :: rm' => p ← pop un r; absorb rm' (items ∪ p.1) p.2
  end.

(** [for item in items: rootmap[item] = root] *)
Definition assign (items : list ID) (r : root) (rm : gmap ID root)
    : gmap ID root :=
  foldl (λ m i, <[i:=r]> m) rm items.

(** One iteration of [for key, vals in refs.items()].  The remaining roots
    are visited in the order of [elements]; [absorb_order_irrelevant] shows
    that the order of that loop has no effect. *)
Definition separate_step (st : uf_state) (entry : ID * gset ID)
    : option uf_state :=
  let items : gset ID := {[entry.1]} ∪ entry.2 in
  let roots : gset root := set_omap (λ i, rootmap st !! i) items in
  if decide (roots = ∅) then
    let r := fresh st in
    Some (UF (assign (set_iter items) r (rootmap st))
             (set (union st) r items)
             (S r))
  else
    let r := choose roots in
    p ← absorb (elements (roots ∖ {[r]})) items (union st);
    s ← get p.2 r;
    Some (UF (assign (set_iter p.1) r (rootmap st))
             (set p.2 r (s ∪ p.1))
             (fresh st)).

(** [{key: refs[key] for key in s}] *)
Definition restrict (refs : list (ID * gset ID)) (s : gset ID)
    : option (list (ID * gset ID)) :=
  mapM (λ key, v ← get refs key; Some (key, v)) (set_iter s).

Definition separate (refs : list (ID * gset ID))
    : option (list (list (ID * gset ID))) :=
  st ← foldM separate_step uf_init refs;
  mapM (restrict refs) (values (union st)).
End separate.

(** The adjacency mapping of [explore_cycles.__init__]:
    [{item: garbage.intersection(ID(ref) for ref in gc.get_referents(item.obj))
      for item in garbage}]. *)
Definition build (set_iter : gset ID → list ID) (get_referents : ID → list ID)
    (garbage : gset ID) : list (ID * gset ID) :=
  (λ item, (item, garbage ∩ list_to_set (get_referents item)))
    <$> set_iter garbage.

(** ** The simplification passes of [explore_cycles.__init__] *)

Section simplify.
(** [dict_of item] is the identity of [item.obj.__dict__] when the object
    has one and it is a [dict]. *)
Variable dict_of : ID → option ID.

(** [any(ref in otherrefs for otheritem, otherrefs in cycle.items()
         if otheritem != item)] *)
Definition referenced_elsewhere (cycle : list (ID * gset ID))
    (item ref : ID) : bool :=
  existsb (λ kv, bool_decide (kv.1 ≠ item) && bool_decide (ref ∈ kv.2)) cycle.

(** The body of [for item, refs in cycle.items()]. *)
Definition collapse_step (cycle : list (ID * gset ID)) (item : ID)
    : option (list (ID * gset ID)) :=
  match dict_of item with
  | None => Some cycle
  | Some ref =>
      own ← get cycle item;
      if bool_decide (ref ∈ own) && negb (referenced_elsewhere cycle item ref)
      then
        theirs ← get cycle ref;
        own' ← get cycle item;
        Some (set (set cycle item (theirs ∪ own' ∖ {[ref]})) ref ∅)
      else Some cycle
  end.

(** The assignments never add a key, so the loop visits the keys the
    mapping had when it started, in their order. *)
Definition collapse (cycle : list (ID * gset ID))
    : option (list (ID * gset ID)) :=
  foldM collapse_step cycle (keys cycle).
End simplify.

(** [{item for item, refs in cycle.items() if not refs}] *)
Definition empty_items (cycle : list (ID * gset ID)) : gset ID :=
  list_to_set (keys (filter (λ kv, kv.2 = ∅) cycle)).

(** [{item: refs-remove for item, refs in cycle.items() if item not in remove}] *)
Definition prune_round (remove : gset ID) (cycle : list (ID * gset ID))
    : list (ID * gset ID) :=
  (λ kv, (kv.1, kv.2 ∖ remove)) <$> filter (λ kv, kv.1 ∉ remove) cycle.

(** The [while True] loop; [None] when the fuel does not reach the [break]. *)
Fixpoint prune_loop (fuel : nat) (cycle : list (ID * gset ID))
    : option (list (ID * gset ID)) :=
  match fuel with
  | 0 => None
  | S fuel' =>
      let remove := empty_items cycle in
      if decide (remove = ∅) then Some cycle
      else prune_loop fuel' (prune_round remove cycle)
  end.

Definition prune (cycle : list (ID * gset ID)) : option (list (ID * gset ID)) :=
  prune_loop (S (length cycle)) cycle.

(** ** Display names ([explore_cycles.list]) *)

Definition letters : list string :=
  ["a"; "b"; "c"; "d"; "e"; "f"; "g"; "h"; "i"; "j"; "k"; "l"; "m";
   "n"; "o"; "p"; "q"; "r"; "s"; "t"; "u"; "v"; "w"; "x"; "y"; "z"].

(** [[a+b for a in varnames for b in varnames]] *)
Definition pairs (names : list string) : list string :=
  a ← names; (λ b, a +:+ b) <$> names.

(** [while len(varnames) < len(cycle): varnames = ...];
    [None] when the fuel does not reach the exit. *)
Fixpoint varnames_loop (fuel : nat) (names : list string) (n : nat)
    : option (list string) :=
  if decide (length names < n) then
    match fuel with
    | 0 => None
    | S fuel' => varnames_loop fuel' (pairs names) n
    end
  else Some names.

Definition varnames (n : nat) : option (list string) :=
  varnames_loop n letters n.

(** [zip(cycle, varnames)] *)
Definition zip_names (cycle : list (ID * gset ID)) (names : list string)
    : list (ID * string) :=
  zip (keys cycle) names.

(** [dict(zip(cycle, varnames))] *)
Definition varmap (cycle : list (ID * gset ID)) : option (list (ID * string)) :=
  names ← varnames (length cycle);
  Some (foldl (λ d kv, set d kv.1 kv.2) [] (zip_names cycle names)).

(** ** The session *)

Record session := Session {
  cycles : list (nat * list (ID * gset ID));
  selection : nat;
  locals : list (string * ID)
}.

(** [key=lambda v: (v[0], len(v[1]))], compared as Python compares tuples. *)
Definition rank_key (v : nat * list (ID * gset ID)) : nat * nat :=
  (v.1, length v.2).

Definition key_lt (a b : nat * nat) : bool :=
  (a.1 <? b.1) || ((a.1 =? b.1) && (a.2 <? b.2)).

Definition key_le (a b : nat * nat) : Prop := key_lt b a = false.

(** [list.sort(key=...)]: a stable sort on the keys. *)
Fixpoint insert_by {A : Type} (key : A → nat * nat) (x : A) (l : list A)
    : list A :=
  match l with
  | [] => [x]
  | y :: l' =>
      if key_lt (key y) (key x) then y :: insert_by key x l' else x :: y :: l'
  end.

Definition sort_by {A : Type} (key : A → nat * nat) (l : list A) : list A :=
  foldr (insert_by key) [] l.

(** The state effect of [explore_cycles.list]: the binding table is rebuilt
    from the selected component ([None]: the selection is out of range).
    What [list] prints is described by [describe] below. *)
Definition list_locals (cs : list (nat * list (ID * gset ID))) (sel : nat)
    : option (list (string * ID)) :=
  v ← cs !! sel;
  vm ← varmap v.2;
  Some (foldl (λ d kv, set d kv.2 kv.1) [] vm).

Section measure.
Variable getsizeof : ID → nat.
Variable dict_of : ID → option ID.

(** [sum(sys.getsizeof(item.obj) for item in cycle)] *)
Definition size_of (cycle : list (ID * gset ID)) : nat :=
  sum_list (getsizeof <$> keys cycle).

(** The body of [for cycle in separate(...)]: the size is taken first, the
    appended pair holds the simplified mapping. *)
Definition measure_and_simplify (cycle : list (ID * gset ID))
    : option (nat * list (ID * gset ID)) :=
  let size := size_of cycle in
  collapsed ← collapse dict_of cycle;
  pruned ← prune collapsed;
  Some (size, pruned).

End measure.

(** ** [fmtref] *)

(** What iterating over a Python iterable can do: end, produce an element,
    or raise. *)
Inductive iteration (A : Type) :=
  | Stop
  | Yield (a : A) (rest : iteration A)
  | Raise.
Arguments Stop {A}.
Arguments Yield {A} a rest.
Arguments Raise {A}.

(** A mapping key: its identity and the text [%r] substitutes for it
    ([None] when the substitution raises). *)
Record pykey := PyKey { key_id : ID; key_repr : option string }.

(** An object as [fmtref] observes it. *)
Record pyobject := PyObject {
  (** [obj.items()] when [isinstance(obj, collections.abc.Mapping)] *)
  as_mapping : option (iteration (pykey * ID));
  (** the elements when [isinstance(obj, collections.abc.Sequence)] *)
  as_sequence : option (iteration ID);
  (** the elements when [isinstance(obj, collections.abc.Set)] *)
  as_set : option (iteration ID);
  (** [dir(obj)], each name with [getattr(obj, name)]
      ([None] when [getattr] raises) *)
  attributes : iteration (string * option ID)
}.

(** How a stretch of the [try] body ends. *)
Inductive outcome :=
  | Return (phrase : string)
  | Fallthrough
  | Raised.

Definition and_then (o : outcome) (k : outcome) : outcome :=
  match o with Fallthrough => k | _ => o end.

Fixpoint probe_mapping (items : iteration (pykey * ID)) (ref : ID) : outcome :=
  match items with
  | Stop => Fallthrough
  | Raise => Raised
  | Yield (key, value) rest =>
      if decide (value = ref) then
        match key_repr key with
        | Some r => Return ("{obj:}[" +:+ r +:+ "] is {ref:}")
        | None => Raised
        end
      else if decide (key_id key = ref) then Return "{obj:}[{ref:}]"
      else probe_mapping rest ref
  end.

Fixpoint probe_sequence (i : nat) (items : iteration ID) (ref : ID) : outcome :=
  match items with
  | Stop => Fallthrough
  | Raise => Raised
  | Yield value rest =>
      if decide (value = ref) then Return ("{obj:}[" +:+ pretty i +:+ "] is {ref:}")
      else probe_sequence (S i) rest ref
  end.

Fixpoint probe_set (items : iteration ID) (ref : ID) : outcome :=
  match items with
  | Stop => Fallthrough
  | Raise => Raised
  | Yield value rest =>
      if decide (value = ref) then Return "{ref:} in {obj:}"
      else probe_set rest ref
  end.

Fixpoint probe_attributes (attrs : iteration (string * option ID)) (ref : ID)
    : outcome :=
  match attrs with
  | Stop => Fallthrough
  | Raise => Raised
  | Yield (attr, None) rest => Raised
  | Yield (attr, Some value) rest =>
      if decide (value = ref) then Return ("{obj:}." +:+ attr +:+ " is {ref:}")
      else probe_attributes rest ref
  end.

Definition when_instance {A : Type} (o : option A) (probe : A → outcome)
    : outcome :=
  match o with Some a => probe a | None => Fallthrough end.

(** The body of the [try]. *)
Definition fmtref_body (obj : pyobject) (ref : ID) : outcome :=
  and_then (when_instance (as_mapping obj) (λ items, probe_mapping items ref))
  (and_then (when_instance (as_sequence obj) (λ items, probe_sequence 0 items ref))
  (and_then (when_instance (as_set obj) (λ items, probe_set items ref))
            (probe_attributes (attributes obj) ref))).

(** [try: ... except: pass]; [None] is Python's [None]. *)
Definition fmtref (obj : pyobject) (ref : ID) : option string :=
  match fmtref_body obj ref with
  | Return phrase => Some phrase
  | Fallthrough | Raised => None
  end.

Definition arrow : string := "{obj:} -> {ref:}".

(** [fmtref(item.obj, ref.obj) or '{obj:} -> {ref:}'] in [list]. *)
Definition describe (obj : pyobject) (ref : ID) : string :=
  match fmtref obj ref with
  | Some phrase => if decide (phrase = "") then arrow else phrase
  | None => arrow
  end.

(** ** [do_traceback] *)

(** A frame is a pair [(path, line)]. *)
Abbreviation frame := (string * nat)%type (only parsing).

Inductive printed :=
  | PrintInvalidArgument (names : list string)
  | PrintTraceback (tb : list frame)
  | PrintLine (text : string).

(** [l[i:]] for a possibly negative [i]. *)
Definition slice_from {A : Type} (i : Z) (l : list A) : list A :=
  if decide (i < 0)%Z then drop (Z.to_nat (Z.of_nat (length l) + i)) l
  else drop (Z.to_nat i) l.

Section traceback.
(** [tracemalloc._get_object_traceback] and [__file__]. *)
Variable get_object_traceback : ID → option (list frame).
Variable file : string.

(** The [for i, (path, line) in enumerate(tb)] loop: the prefix before the
    first frame of this file, if there is such a frame. *)
Fixpoint cut_at_file (tb : list frame) : option (list frame) :=
  match tb with
  | [] => None
  | f :: tb' =>
      if decide (f.1 = file) then Some []
      else (λ pre, f :: pre) <$> cut_at_file tb'
  end.

(** The [for obj in objects] loop: the lists [complete] and [incomplete]. *)
Fixpoint classify (objects : list ID) (complete incomplete : list (list frame))
    : list (list frame) * list (list frame) :=
  match objects with
  | [] => (complete, incomplete)
  | obj :: objects' =>
      match get_object_traceback obj with
      | None => classify objects' complete incomplete
      | Some tb =>
          match cut_at_file tb with
          | Some pre => classify objects' (complete ++ [pre]) incomplete
          | None => classify objects' complete (incomplete ++ [tb])
          end
      end
  end.

(** [min(complete, key=len)]: the first of the shortest. *)
Fixpoint shortest (best : list frame) (rest : list (list frame)) : list frame :=
  match rest with
  | [] => best
  | tb :: rest' =>
      shortest (if decide (length tb < length best) then tb else best) rest'
  end.

(** [any(tb[len(tb)-len(common):] != common for tb in complete)] *)
Definition disagrees (complete : list (list frame)) (common : list frame)
    : bool :=
  existsb (λ tb, bool_decide
    (slice_from (Z.of_nat (length tb) - Z.of_nat (length common)) tb ≠ common)) complete.

(** [while common and any(...): common = common[1:]] *)
Fixpoint trim (complete : list (list frame)) (common : list frame)
    : list frame :=
  match common with
  | [] => []
  | _ :: common' =>
      if disagrees complete common then trim complete common' else common
  end.

(** The four-way report at the end of [do_traceback]. *)
Definition report (complete incomplete : list (list frame)) : list printed :=
  match complete with
  | first :: rest => [PrintTraceback (trim complete (shortest first rest))]
  | [] =>
      if decide (1 < length incomplete) then
        [PrintLine
           "cannot establish common traceback (try increasing the traceback depth)"]
      else
        match incomplete with
        | tb :: _ => [PrintTraceback tb; PrintLine "  ..."]
        | [] => [PrintLine "no traceback found"]
        end
  end.

(** [[self.locals.get(name) for name in arg.split() or self.locals]];
    [names] is [arg.split()]. *)
Definition lookup_objects (s : session) (names : list string)
    : list (option ID) :=
  (λ name, get (locals s) name)
    <$> (match names with [] => keys (locals s) | _ => names end).

(** A command maps the session to what it prints and the session it
    leaves. *)
Definition do_traceback (names : list string) (s : session)
    : list printed * session :=
  let objects := lookup_objects s names in
  match mapM id objects with
  | None => ([PrintInvalidArgument names], s)
  | Some objs =>
      let '(complete, incomplete) := classify objs [] [] in
      (report complete incomplete, s)
  end.
End traceback.

(** The tracebacks that reach the file [file], cut there, in the order of
    the objects; and those that do not reach it. *)
Definition complete_of (get_object_traceback : ID → option (list frame))
    (file : string) (objs : list ID) : list (list frame) :=
  omap (λ obj, get_object_traceback obj ≫= cut_at_file file) objs.

Definition incomplete_of (get_object_traceback : ID → option (list frame))
    (file : string) (objs : list ID) : list (list frame) :=
  omap (λ obj, tb ← get_object_traceback obj;
               match cut_at_file file tb with
               | Some _ => None
               | None => Some tb
               end) objs.

(** One way to resolve the choices: the first element of the set's listing. *)
Definition first_root (s : gset root) : root := default 0 (head (elements s)).

(** ** Ground truth for [separate] *)

(** [references refs x y]: the mapping has the edge [x → y]. *)
Definition references (refs : list (ID * gset ID)) (x y : ID) : Prop :=
  ∃ vs, (x, vs) ∈ refs ∧ y ∈ vs.

(** Connected by an undirected path of references. *)
Definition connected (refs : list (ID * gset ID)) : relation ID :=
  rtsc (references refs).

(** Every referent is itself a key. *)
Definition refs_closed (refs : list (ID * gset ID)) : Prop :=
  Forall (λ e : ID * gset ID, e.2 ⊆ (list_to_set (keys refs) : gset ID)) refs.

Definition refs_ex : list (ID * gset ID) :=
  [(1, {[2]}); (2, {[1]}); (3, {[4]}); (4, ∅)]%Z.

(** A session for the examples: two bound objects, [1] and [2]. *)
Definition session_ex : session :=
  Session [(0, [(1, {[2]}); (2, {[1]})]%Z)] 0 [("a", 1); ("b", 2)]%Z.

(** Tracebacks that reach the file ["scavenge.py"]: before the cut they are
    [[f1; f2; f3]] and [[f0; f2; f3]]. *)
Definition tracebacks_ex (obj : ID) : option (list frame) :=
  if decide (obj = 1)%Z
  then Some [("m.py", 1); ("m.py", 2); ("m.py", 3); ("scavenge.py", 185)]
  else if decide (obj = 2)%Z
  then Some [("m.py", 0); ("m.py", 2); ("m.py", 3); ("scavenge.py", 185)]
  else None.

(** Tracebacks cut short by the capture depth: none reaches the file. *)
Definition tracebacks_short_ex (obj : ID) : option (list frame) :=
  if decide (obj = 1)%Z then Some [("m.py", 5); ("m.py", 6)]
  else if decide (obj = 2)%Z then Some [("m.py", 7)]
  else None.

(** ** Vocabulary for the properties of [fmtref] *)

(** The iteration that produces the elements of [l] and goes on as [rest]. *)
Definition yields {A : Type} (l : list A) (rest : iteration A) : iteration A :=
  foldr Yield rest l.

(** Each kind of probe finds nothing and nothing raises. *)
Definition silent_mapping (obj : pyobject) (ref : ID) : Prop :=
  as_mapping obj = None
  ∨ ∃ entries, as_mapping obj = Some (yields entries Stop)
      ∧ Forall (λ kv : pykey * ID, kv.2 ≠ ref ∧ key_id kv.1 ≠ ref) entries.

Definition silent_sequence (obj : pyobject) (ref : ID) : Prop :=
  as_sequence obj = None
  ∨ ∃ elems, as_sequence obj = Some (yields elems Stop)
      ∧ Forall (λ v, v ≠ ref) elems.

Definition silent_set (obj : pyobject) (ref : ID) : Prop :=
  as_set obj = None
  ∨ ∃ elems, as_set obj = Some (yields elems Stop)
      ∧ Forall (λ v, v ≠ ref) elems.

Definition other_attribute (ref : ID) (a : string * option ID) : Prop :=
  ∃ v, a.2 = Some v ∧ v ≠ ref.

Definition silent_attributes (obj : pyobject) (ref : ID) : Prop :=
  ∃ attrs, attributes obj = yields attrs Stop
    ∧ Forall (other_attribute ref) attrs.

(** The reading under which the value probe goes over the whole mapping
    before the key probe is tried: whenever some entry of a mapping owner
    holds the referent as its value, the phrase names the key of the first
    such entry. *)
Definition value_probe_first (obj : pyobject) (ref : ID) : Prop :=
  ∀ entries i key r,
    as_mapping obj = Some (yields entries Stop) →
    list_find (λ kv : pykey * ID, kv.2 = ref) entries = Some (i, (key, ref)) →
    key_repr key = Some r →
    describe obj ref = "{obj:}[" +:+ r +:+ "] is {ref:}".

(** [{target: x, 'k': target}] with [target] the object [7] and [x] the
    object [8]; and the plain cases [{'k': target}] and [[x, target]]. *)
Definition owner_key_first_ex : pyobject :=
  PyObject (Some (Yield (PyKey 7 (Some "<T>"), 8%Z)
                 (Yield (PyKey 9 (Some "'k'"), 7%Z) Stop)))
           None None Stop.

Definition owner_mapping_ex : pyobject :=
  PyObject (Some (Yield (PyKey 9 (Some "'k'"), 7%Z) Stop)) None None Stop.

Definition owner_sequence_ex : pyobject :=
  PyObject None (Some (Yield 8%Z (Yield 7%Z Stop))) None Stop.

(** ** Vocabulary for the display names *)

Definition letter (i : nat) : string := default "" (letters !! i).

(** The sequence a, b, ..., z, aa, ab, ..., zz, aaa, ...: [alpha_name k] is
    its element at position [k], counted from 0. *)
Fixpoint alpha_name_upto (fuel k : nat) : string :=
  match fuel with
  | 0 => ""
  | S fuel' =>
      if decide (k < 26) then letter k
      else alpha_name_upto fuel' (k / 26 - 1) +:+ letter (k mod 26)
  end.

Definition alpha_name (k : nat) : string := alpha_name_upto (S k) k.

(** Every member is named by the element of that sequence at its position. *)
Definition named_alphabetically (cycle : list (ID * gset ID)) : Prop :=
  ∀ k key, keys cycle !! k = Some key →
    ∃ vm, varmap cycle = Some vm ∧ get vm key = Some (alpha_name k).

(** A ring of [n] objects, each referring to the next. *)
Definition ring (n : nat) : list (ID * gset ID) :=
  (λ i, (Z.of_nat i, {[Z.of_nat ((i + 1) mod n)]})) <$> seq 0 n.

(** ** Vocabulary for the pruning loop *)

(** One round of the loop, past its [break] test. *)
Definition prune_pass (cycle : list (ID * gset ID)) : list (ID * gset ID) :=
  prune_round (empty_items cycle) cycle.

(** [c → d] with a tail: [d] goes in the first round, [c] in the second. *)
Definition tail_ex : list (ID * gset ID) :=
  [(1, {[2]}); (2, {[1]}); (3, {[4]}); (4, ∅)]%Z.

(** ** Example data for the container collapse *)

(** Object [1] keeps its attributes in the dict [2], which holds object [3],
    which refers back to [1]. *)
Definition attr_cycle_ex : list (ID * gset ID) :=
  [(1, {[2]}); (2, {[3]}); (3, {[1]})]%Z.

Definition dict_of_ex (item : ID) : option ID :=
  if decide (item = 1)%Z then Some 2%Z else None.

(** What the parameters of [separate] are assumed to do: [roots.pop()]
    returns an element of the set, and iterating over a set visits each of
    its elements once. *)
Definition choose_ok (choose : gset root → root) : Prop :=
  ∀ s, s ≠ ∅ → choose s ∈ s.

Definition iter_ok (set_iter : gset ID → list ID) : Prop :=
  ∀ s, set_iter s ≡ₚ elements s.

(** [{key} ∪ vals], the nodes an entry of the mapping touches. *)
Definition touched (e : ID * gset ID) : gset ID := {[e.1]} ∪ e.2.

(** The state of the disjoint-set structure once the entries [processed]
    have been handled. *)
Record uf_inv (processed : list (ID * gset ID)) (st : uf_state) : Prop := {
  inv_nodup : NoDup (keys (union st));
  inv_fresh : ∀ r, r ∈ keys (union st) → r < fresh st;
  inv_rootmap : ∀ x r,
    rootmap st !! x = Some r ↔ ∃ s, get (union st) r = Some s ∧ x ∈ s;
  inv_sound : ∀ r s x y,
    get (union st) r = Some s → x ∈ s → y ∈ s → connected processed x y;
  inv_complete : ∀ e,
    e ∈ processed → ∃ r s, get (union st) r = Some s ∧ touched e ⊆ s;
  inv_members : ∀ r s x,
    get (union st) r = Some s → x ∈ s → ∃ e, e ∈ processed ∧ x ∈ touched e;
  inv_nonempty : ∀ r s, get (union st) r = Some s → s ≠ ∅
}.

(** The partition behind a result of [separate]: the set of the member sets
    of its components. *)
Definition members (c : list (ID * gset ID)) : gset ID := list_to_set (keys c).

Definition partition_of (result : option (list (list (ID * gset ID))))
    : option (gset (gset ID)) :=
  (λ comps, list_to_set (members <$> comps)) <$> result.

(** Example data for the graph builder: the suspect objects [1] to [4],
    with [1] and [2] referring to each other, [3] referring to [4], and
    references that leave the suspect set. *)
Definition referents_ex (item : ID) : list ID :=
  if decide (item = 1)%Z then [2; 10]%Z
  else if decide (item = 2)%Z then [1; 1; 11]%Z
  else if decide (item = 3)%Z then [4]%Z
  else [12]%Z.

Definition garbage_ex : gset ID := {[1; 2; 3; 4]}%Z.

(** A mapping with a referent, [9], that is not a key. *)
Definition refs_open_ex : list (ID * gset ID) := [(1, {[9]}); (2, {[1]})]%Z.

(** Another way to resolve the choices: the last element of the set's
    listing, and iteration in the opposite order. *)
Definition last_root (s : gset root) : root := default 0 (last (elements s)).

Definition elements_reversed (s : gset ID) : list ID := reverse (elements s).

(** ** Vocabulary for the session *)

(** Every referent of the component is one of its members. *)
Definition cycle_closed (cycle : list (ID * gset ID)) : Prop :=
  ∀ k vs y, get cycle k = Some vs → y ∈ vs → is_Some (get cycle y).

(** Ascending order of the ranking keys. *)
Definition ascending {A : Type} (key : A → nat * nat) (l : list A) : Prop :=
  StronglySorted (λ a b, key_le (key a) (key b)) l.

(** The reading under which the member count used for ranking is the one
    the component had before simplification: the ranked list holds the
    simplified components in ascending order of their size and of their
    member count before simplification. *)
Definition ranked_by_original_count (getsizeof : ID → nat)
    (dict_of : ID → option ID) (comps : list (list (ID * gset ID)))
    (ranked : list (nat * list (ID * gset ID))) : Prop :=
  ∃ order,
    order ≡ₚ comps
    ∧ mapM (measure_and_simplify getsizeof dict_of) order = Some ranked
    ∧ ascending (λ c, (size_of getsizeof c, length c)) order.

(** Example data: the suspect objects [1], [2] refer to each other; [3] and
    [5] refer to [4], which refers to nothing.  All five have size 20
    except [1] and [2], of size 30, so that both components weigh 60. *)
Definition referents_rank_ex (item : ID) : list ID :=
  if decide (item = 1)%Z then [2]%Z
  else if decide (item = 2)%Z then [1]%Z
  else if decide (item = 3)%Z then [4]%Z
  else if decide (item = 5)%Z then [4]%Z
  else [].

Definition garbage_rank_ex : gset ID := {[1; 2; 3; 4; 5]}%Z.

Definition getsizeof_rank_ex (item : ID) : nat :=
  if decide (item = 1 ∨ item = 2)%Z then 30 else 20.

(** ** Vocabulary for further properties of the passes *)

(** [edge cycle x y]: [y] is in the edge set of the member [x]. *)
Definition edge (cycle : list (ID * gset ID)) (x y : ID) : Prop :=
  ∃ vs, get cycle x = Some vs ∧ y ∈ vs.

(** A set of members each of which refers to one of them; the members of a
    reference cycle form such a set. *)
Definition self_sustaining (cycle : list (ID * gset ID)) (T : gset ID) : Prop :=
  ∀ x, x ∈ T → ∃ y, y ∈ T ∧ edge cycle x y.

(** [x] is the attribute table of a member. *)
Definition is_store (dict_of : ID → option ID) (cycle : list (ID * gset ID))
    (x : ID) : Prop :=
  ∃ a, a ∈ keys cycle ∧ dict_of a = Some x.

(** The components of [refs_ex]. *)
Definition comps_ex : list (list (ID * gset ID)) :=
  [[(2, {[1]}); (1, {[2]})]; [(3, {[4]}); (4, ∅)]]%Z.

(** A reference chain that ends: [3 → 4], [4] referring to nothing. *)
Definition chain_ex : list (ID * gset ID) := [(3, {[4]}); (4, ∅)]%Z.

(** What pruning leaves of [tail_ex]: the cycle [1 ⇄ 2]. *)
Definition core_ex : list (ID * gset ID) := [(1, {[2]}); (2, {[1]})]%Z.

Definition core_members_ex : gset ID := {[1; 2]}%Z.

(** Reachability along the edges of a component. *)
Definition reaches (cycle : list (ID * gset ID)) : relation ID :=
  rtc (edge cycle).

(** [attr_cycle_ex] after the collapse. *)
Definition attr_collapsed_ex : list (ID * gset ID) :=
  [(1, {[3]}); (2, ∅); (3, {[1]})]%Z.

(** [S] has no edges and no member refers to it. *)
Definition discarded (S : ID) (cycle : list (ID * gset ID)) : Prop :=
  get cycle S = Some ∅ ∧ ∀ k vs, get cycle k = Some vs → S ∉ vs.

(** [attr_cycle_ex] after the collapse and the pruning. *)
Definition simplified_ex : list (ID * gset ID) := [(1, {[3]}); (3, {[1]})]%Z.

(** ** Vocabulary for further properties of [fmtref] *)

(** The elements that an iteration produces before it ends or raises. *)
Fixpoint yielded {A : Type} (it : iteration A) : list A :=
  match it with
  | Yield a rest => a :: yielded rest
  | Stop | Raise => []
  end.

(** The referent is to be seen in the owner: as a value or a key of a
    mapping, as an element of a sequence, as a member of a set, or as the
    value of an attribute. *)
Definition held_by (obj : pyobject) (ref : ID) : Prop :=
  (∃ items kv, as_mapping obj = Some items ∧ kv ∈ yielded items
               ∧ (kv.2 = ref ∨ key_id kv.1 = ref))
  ∨ (∃ items, as_sequence obj = Some items ∧ ref ∈ yielded items)
  ∨ (∃ items, as_set obj = Some items ∧ ref ∈ yielded items)
  ∨ (∃ attr, (attr, Some ref) ∈ yielded (attributes obj)).

(** ** The commands of the session *)

(** What [explore_cycles.list] prints: the line counting the cycles, with
    the member count of each and a mark on the selected one; the line with
    the member count and the size of the selected one; and one line per
    member with its name, its type and its sorted reference phrases. *)
Inductive shown :=
  | ShowIdentified (count : nat) (summary : list (nat * bool))
  | ShowSelected (count size : nat)
  | ShowMember (name type : string) (refs : list string).

(** How a call ends: it returns a value or raises. *)
Inductive ending (A : Type) :=
  | Returns (a : A)
  | Raises.
Arguments Returns {A} a.
Arguments Raises {A}.

(** A run of a command: how it ends, what it has printed until then, and
    the session as it leaves it. *)
Record run (A : Type) := Run {
  ending_of : ending A;
  printed_by : list shown;
  left_by : session
}.
Arguments Run {A} _ _ _.
Arguments ending_of {A} _.
Arguments printed_by {A} _.
Arguments left_by {A} _.

(** [sorted(refs)] on strings: a stable sort by [<]. *)
Fixpoint insert_string (x : string) (l : list string) : list string :=
  match l with
  | [] => [x]
  | y :: l' => if String.ltb x y then x :: y :: l' else y :: insert_string x l'
  end.

Definition sorted_strings (l : list string) : list string :=
  foldl (λ acc x, insert_string x acc) [] l.

Section commands.
(** [set_iter] is the iteration order of a set; [obj_of item] is [item.obj]
    as [fmtref] sees it and [type_of item] the text of [type(item.obj)];
    [format template a b] is [template.format(obj=a, ref=b)], [None] when
    it raises. *)
Variable set_iter : gset ID → list ID.
Variable obj_of : ID → pyobject.
Variable type_of : ID → string.
Variable format : string → string → string → option string.

(** [[(fmtref(item.obj, ref.obj) or '{obj:} -> {ref:}')
       .format(obj=varmap[item], ref=varmap[ref]) for ref in cycle[item]]] *)
Definition member_refs (vm : list (ID * string)) (item : ID) (refs : gset ID)
    : option (list string) :=
  mapM (λ ref,
          let template := describe (obj_of item) ref in
          a ← get vm item; b ← get vm ref; format template a b)
       (set_iter refs).

(** The [for item in cycle] loop of [list]; [out] is what has been printed
    so far. *)
Fixpoint show_members (vm : list (ID * string)) (cycle : list (ID * gset ID))
    (items : list ID) (out : list shown) : ending unit * list shown :=
  match items with
  | [] => (Returns (), out)
  | item :: rest =>
      match refs ← get cycle item;
            texts ← member_refs vm item refs;
            name ← get vm item;
            Some (ShowMember name (type_of item) (sorted_strings texts)) with
      | Some line => show_members vm cycle rest (out ++ [line])
      | None => (Raises, out)
      end
  end.

(** [explore_cycles.list]. *)
Definition list_run (s : session) : run unit :=
  match cycles s !! selection s with
  | None => Run Raises [] s
  | Some v =>
      let header :=
        [ShowIdentified (length (cycles s))
           (imap (λ i c, (length c.2, bool_decide (i = selection s)))
                 (cycles s));
         ShowSelected (length v.2) v.1] in
      match varmap v.2 with
      | None => Run Raises header s
      | Some vm =>
          match show_members vm v.2 (keys v.2) header with
          | (Returns _, out) =>
              Run (Returns ()) out
                  (Session (cycles s) (selection s)
                           (foldl (λ d kv, set d kv.2 kv.1) [] vm))
          | (Raises, out) => Run Raises out s
          end
      end
  end.

(** The value that a command returns tells the command loop whether to
    stop: [do_quit] returns [True], the other commands [None]. *)
Definition returning (stop : bool) (r : run unit) : run bool :=
  Run (match ending_of r with Returns _ => Returns stop | Raises => Raises end)
      (printed_by r) (left_by r).

Definition do_quit (arg : string) (s : session) : run bool :=
  Run (Returns true) [] s.

Definition do_list (arg : string) (s : session) : run bool :=
  returning false (list_run s).

(** [self.selection = (self.selection+1) % len(self.cycles)]; the modulo
    raises when there are no cycles. *)
Definition do_next (arg : string) (s : session) : run bool :=
  if decide (length (cycles s) = 0) then Run Raises [] s
  else
    returning false
      (list_run (Session (cycles s)
                         ((selection s + 1) mod length (cycles s))
                         (locals s))).

(** [self.selection = (self.selection-1) % len(self.cycles)], the remainder
    taking the sign of the divisor. *)
Definition do_previous (arg : string) (s : session) : run bool :=
  if decide (length (cycles s) = 0) then Run Raises [] s
  else
    returning false
      (list_run (Session (cycles s)
                         (Z.to_nat ((Z.of_nat (selection s) - 1)
                                    `mod` Z.of_nat (length (cycles s))))
                         (locals s))).
End commands.

(** ** [explore_cycles.__init__] *)

(** How the constructor ends, up to the call of [cmdloop]: it returns early
    and without a session when nothing is uncollected; it goes on to
    [cmdloop] with the session that [list] has left; or it raises, in one of
    the passes or in [list], and no session comes into being. *)
Inductive started := NoGarbage | Started (s : session) | Aborted.

(** A run of the constructor: the count it prints first, what [list] has
    printed after it, and how it ends. *)
Record construction := Construction {
  found_count : nat;
  listing : list shown;
  outcome_of : started
}.

Section init.
Variable choose : gset root → root.
Variable set_iter : gset ID → list ID.
Variable get_referents : ID → list ID.
Variable getsizeof : ID → nat.
Variable dict_of : ID → option ID.
Variable obj_of : ID → pyobject.
Variable type_of : ID → string.
Variable format : string → string → string → option string.

(** [explore_cycles.__init__] up to the call of [cmdloop].  The attribute
    [self.locals] does not exist until the first call of [list] returns;
    [list] assigns it and never reads it, so the table of the session that
    is handed to [list_run] stands for no binding at all. *)
Definition init (garbage : gset ID) : construction :=
  let count := size garbage in
  if decide (garbage = ∅) then Construction count [] NoGarbage
  else
    match comps ← separate choose set_iter
                     (build set_iter get_referents garbage);
          mapM (measure_and_simplify getsizeof dict_of) comps with
    | None => Construction count [] Aborted
    | Some found =>
        let r := list_run set_iter obj_of type_of format
                   (Session (sort_by rank_key found) 0 []) in
        Construction count (printed_by r)
          (match ending_of r with
           | Returns _ => Started (left_by r)
           | Raises => Aborted
           end)
    end.
End init.

(** ** Vocabulary for the properties of the commands *)

(** The session as [init] leaves it and the commands keep it: the selection
    is an index of the ranking, and every ranked component has distinct
    members whose referents are members. *)
Definition session_ok (s : session) : Prop :=
  selection s < length (cycles s)
  ∧ ∀ v, v ∈ cycles s → NoDup (keys v.2) ∧ cycle_closed v.2.

(** A stand-in for [str.format] that fills in the two names and never
    raises, and one that always raises. *)
Definition format_plain (template a b : string) : option string :=
  Some (a +:+ " " +:+ template +:+ " " +:+ b).

Definition format_failing (template a b : string) : option string := None.

Definition session_three_ex : session :=
  Session [(10, core_ex); (20, attr_cycle_ex); (30, simplified_ex)] 2 [].

(** The session that [init] builds from [garbage_rank_ex]. *)
Definition session_rank_ex : session :=
  Session [(60, []); (60, [(2, {[1]}); (1, {[2]})]%Z)] 0 [].

(** The session that [init] builds from the two suspect objects [1] and
    [2] that refer to each other. *)
Definition garbage_pair_ex : gset ID := {[1; 2]}%Z.

Definition session_pair_ex : session :=
  Session [(60, [(2, {[1]}); (1, {[2]})]%Z)] 0 [("a", 2); ("b", 1)]%Z.

(** ** Vocabulary for the order of the frames *)

(** [tracemalloc._get_object_traceback] hands out the raw frames most
    recent first: [tb[0]] is the frame that made the allocation and the
    outermost caller comes last.  For an object allocated by the script
    that this file runs, the outermost frame is [exec(code)] at line 185 of
    this file, and the loop at lines 147-150 keeps what comes before it. *)
Definition most_recent (n : nat) (tb : list frame) : list frame := take n tb.

Definition oldest (n : nat) (tb : list frame) : list frame :=
  drop (length tb - n) tb.

(** The reading under which the reported frames are the innermost frames
    that the complete tracebacks share: [common] is the most recent frames
    of each of them, and no longer list is. *)
Definition common_innermost (complete : list (list frame))
    (common : list frame) : Prop :=
  (∀ tb, tb ∈ complete → most_recent (length common) tb = common)
  ∧ ∀ c, (∀ tb, tb ∈ complete → most_recent (length c) tb = c) →
         length c ≤ length common.

(** The call chains [f1 → f2 → f3] and [f0 → f2 → f3] under the tool, [f3]
    innermost, as the collaborator hands them out. *)
Definition tracebacks_innermost_ex (obj : ID) : option (list frame) :=
  if decide (obj = 1)%Z
  then Some [("m.py", 3); ("m.py", 2); ("m.py", 1); ("scavenge.py", 185)]
  else if decide (obj = 2)%Z
  then Some [("m.py", 3); ("m.py", 2); ("m.py", 0); ("scavenge.py", 185)]
  else None.

(** * Properties *)

Example separate_ex :
  separate first_root elements refs_ex
  = Some [[(2, {[1]}); (1, {[2]})]; [(3, {[4]}); (4, ∅)]]%Z.
Proof. vm_compute. reflexivity. Qed.

(** ** Traceback reconciliation *)

Section traceback_facts.
Variable get_object_traceback : ID → option (list frame).
Variable file : string.

Lemma classify_spec objs complete incomplete :
  classify get_object_traceback file objs complete incomplete
  = (complete ++ complete_of get_object_traceback file objs,
     incomplete ++ incomplete_of get_object_traceback file objs).
Proof.
  revert complete incomplete.
  induction objs as [|obj objs IH]; intros complete incomplete; simpl.
  - by rewrite !app_nil_r.
  - unfold complete_of, incomplete_of. simpl.
    destruct (get_object_traceback obj) as [tb|]; simpl; [|apply IH].
    destruct (cut_at_file file tb) as [pre|]; simpl; rewrite IH.
    + by rewrite <-app_assoc.
    + by rewrite <-app_assoc.
Qed.

Lemma slice_from_suffix (c tb : list frame) :
  slice_from (Z.of_nat (length tb) - Z.of_nat (length c)) tb = c
  ↔ c `suffix_of` tb.
Proof.
  split.
  - intros <-. unfold slice_from. case_decide; apply suffix_drop.
  - intros [k ->]. unfold slice_from. rewrite length_app.
    case_decide; [lia|].
    replace (Z.to_nat _) with (length k) by lia.
    by rewrite drop_app_length.
Qed.

Lemma disagrees_false complete common :
  disagrees complete common = false
  ↔ ∀ tb, tb ∈ complete → common `suffix_of` tb.
Proof.
  unfold disagrees. rewrite <-not_true_iff_false, existsb_exists.
  split.
  - intros H tb Htb. apply slice_from_suffix.
    destruct (decide (slice_from (Z.of_nat (length tb)
                        - Z.of_nat (length common)) tb = common)); [done|].
    exfalso. apply H. exists tb. split; [by apply list_elem_of_In|].
    by apply bool_decide_eq_true.
  - intros H (tb & Htb%list_elem_of_In & Hne%bool_decide_eq_true).
    apply Hne, slice_from_suffix, H, Htb.
Qed.

Lemma trim_suffix complete common :
  trim complete common `suffix_of` common.
Proof.
  induction common as [|f common IH]; [done|].
  simpl. destruct (disagrees complete (f :: common)); [|done].
  by apply suffix_cons_r.
Qed.

Lemma trim_agrees complete common tb :
  tb ∈ complete → trim complete common `suffix_of` tb.
Proof.
  intros Htb. induction common as [|f common IH]; [apply suffix_nil|].
  simpl. destruct (disagrees complete (f :: common)) eqn:Hd; [done|].
  by eapply disagrees_false.
Qed.

Lemma trim_longest complete common c :
  c `suffix_of` common →
  (∀ tb, tb ∈ complete → c `suffix_of` tb) →
  c `suffix_of` trim complete common.
Proof.
  intros Hc Hall. induction common as [|f common IH]; [done|].
  simpl. destruct (disagrees complete (f :: common)) eqn:Hd; [|done].
  apply IH. destruct c as [|x c]; [apply suffix_nil|].
  apply suffix_cons_inv in Hc as [Heq|Hc]; [|done].
  apply disagrees_false in Hall. congruence.
Qed.

Lemma shortest_elem best rest : shortest best rest ∈ best :: rest.
Proof.
  revert best. induction rest as [|tb rest IH]; intros best; simpl.
  - set_solver.
  - pose proof (IH (if decide (length tb < length best) then tb else best))
      as Hin.
    clear IH. rewrite !elem_of_cons. case_decide; apply elem_of_cons in Hin; tauto.
Qed.
End traceback_facts.

Example do_traceback_ex :
  do_traceback tracebacks_ex "scavenge.py" [] session_ex
  = ([PrintTraceback [("m.py", 2); ("m.py", 3)]], session_ex).
Proof. reflexivity. Qed.

(** C9. When no complete traceback exists, what [do_traceback] prints is
    decided by the number of incomplete tracebacks: more than one, the
    message that no common traceback can be established; exactly one, that
    traceback followed by the marker line; none, the message that no
    traceback was found.  The command returns and leaves the session as it
    was. *)
Theorem do_traceback_without_complete
    (get_object_traceback : ID → option (list frame)) (file : string)
    (names : list string) (s : session) (objs : list ID) :
  mapM id (lookup_objects s names) = Some objs →
  complete_of get_object_traceback file objs = [] →
  ∃ out,
    do_traceback get_object_traceback file names s = (out, s)
    ∧ (1 < length (incomplete_of get_object_traceback file objs) →
       out = [PrintLine
         "cannot establish common traceback (try increasing the traceback depth)"])
    ∧ (∀ tb, incomplete_of get_object_traceback file objs = [tb] →
       out = [PrintTraceback tb; PrintLine "  ..."])
    ∧ (incomplete_of get_object_traceback file objs = [] →
       out = [PrintLine "no traceback found"]).
Proof.
  intros Hobjs Hc. unfold do_traceback.
  rewrite Hobjs, classify_spec, Hc. simpl.
  eexists. split; [reflexivity|].
  destruct (incomplete_of get_object_traceback file objs) as [|tb [|tb' inc]];
    simpl; split_and!; try done; try (intros; lia).
  by intros ? [= ->].
Qed.

Lemma do_traceback_without_complete_witness :
  ∃ out,
    do_traceback tracebacks_short_ex "scavenge.py" ["a"] session_ex
      = (out, session_ex)
    ∧ (1 < length (incomplete_of tracebacks_short_ex "scavenge.py" [1]%Z) →
       out = [PrintLine
         "cannot establish common traceback (try increasing the traceback depth)"])
    ∧ (∀ tb, incomplete_of tracebacks_short_ex "scavenge.py" [1]%Z = [tb] →
       out = [PrintTraceback tb; PrintLine "  ..."])
    ∧ (incomplete_of tracebacks_short_ex "scavenge.py" [1]%Z = [] →
       out = [PrintLine "no traceback found"]).
Proof.
  apply (do_traceback_without_complete tracebacks_short_ex "scavenge.py" ["a"]
           session_ex [1]%Z).
  - reflexivity.
  - reflexivity.
Defined.

Example do_traceback_two_incomplete :
  do_traceback tracebacks_short_ex "scavenge.py" [] session_ex
  = ([PrintLine
        "cannot establish common traceback (try increasing the traceback depth)"],
     session_ex).
Proof. reflexivity. Qed.

Example do_traceback_one_incomplete :
  do_traceback tracebacks_short_ex "scavenge.py" ["b"] session_ex
  = ([PrintTraceback [("m.py", 7)]; PrintLine "  ..."], session_ex).
Proof. reflexivity. Qed.

Example do_traceback_none :
  do_traceback (λ _, None) "scavenge.py" [] session_ex
  = ([PrintLine "no traceback found"], session_ex).
Proof. reflexivity. Qed.

Example do_traceback_invalid :
  do_traceback tracebacks_ex "scavenge.py" ["a"; "zz"] session_ex
  = ([PrintInvalidArgument ["a"; "zz"]], session_ex).
Proof. reflexivity. Qed.

(** ** The reference describer *)

Lemma probe_mapping_skip (pre : list (pykey * ID)) rest ref :
  Forall (λ kv : pykey * ID, kv.2 ≠ ref ∧ key_id kv.1 ≠ ref) pre →
  probe_mapping (yields pre rest) ref = probe_mapping rest ref.
Proof.
  induction 1 as [|[k v] pre [Hv Hk] _ IH]; [done|]. simpl in *.
  by rewrite !decide_False.
Qed.

Lemma probe_sequence_skip (pre : list ID) rest ref i :
  Forall (λ v, v ≠ ref) pre →
  probe_sequence i (yields pre rest) ref
  = probe_sequence (i + length pre) rest ref.
Proof.
  intros H. revert i. induction H as [|v pre Hv _ IH]; intros i; simpl.
  - by rewrite Nat.add_0_r.
  - rewrite decide_False, IH by done. f_equal. lia.
Qed.

Lemma probe_set_skip (pre : list ID) rest ref :
  Forall (λ v, v ≠ ref) pre →
  probe_set (yields pre rest) ref = probe_set rest ref.
Proof.
  induction 1 as [|v pre Hv _ IH]; [done|]. simpl. by rewrite decide_False.
Qed.

Lemma probe_attributes_skip (pre : list (string * option ID)) rest ref :
  Forall (other_attribute ref) pre →
  probe_attributes (yields pre rest) ref = probe_attributes rest ref.
Proof.
  induction 1 as [|[a o] pre (v & Ho & Hv) _ IH]; [done|]. simpl in *.
  subst o. by rewrite decide_False.
Qed.

Lemma silent_mapping_fallthrough obj ref :
  silent_mapping obj ref →
  when_instance (as_mapping obj) (λ items, probe_mapping items ref)
  = Fallthrough.
Proof.
  intros [->|(entries & -> & H)]; [done|]. simpl.
  by rewrite probe_mapping_skip.
Qed.

Lemma silent_sequence_fallthrough obj ref :
  silent_sequence obj ref →
  when_instance (as_sequence obj) (λ items, probe_sequence 0 items ref)
  = Fallthrough.
Proof.
  intros [->|(elems & -> & H)]; [done|]. simpl.
  by rewrite probe_sequence_skip.
Qed.

Lemma silent_set_fallthrough obj ref :
  silent_set obj ref →
  when_instance (as_set obj) (λ items, probe_set items ref) = Fallthrough.
Proof.
  intros [->|(elems & -> & H)]; [done|]. simpl. by rewrite probe_set_skip.
Qed.

Lemma describe_return obj ref phrase :
  fmtref_body obj ref = Return phrase → phrase ≠ "" →
  describe obj ref = phrase.
Proof.
  intros Hb Hne. unfold describe, fmtref. rewrite Hb. by rewrite decide_False.
Qed.

Lemma append_nonempty (a b : string) : a ≠ "" → a +:+ b ≠ "".
Proof. by destruct a. Qed.

(** C8 as stated fails: in [{target: x, 'k': target}] the first entry has
    the referent as its key, and [fmtref] answers with the key phrase
    although the value probe would match at key ['k']. *)
Lemma fmtref_key_before_later_value :
  describe owner_key_first_ex 7%Z = "{obj:}[{ref:}]"
  ∧ ¬ value_probe_first owner_key_first_ex 7%Z.
Proof.
  split; [reflexivity|].
  intros H.
  specialize (H [(PyKey 7 (Some "<T>"), 8%Z); (PyKey 9 (Some "'k'"), 7%Z)]
                1 (PyKey 9 (Some "'k'")) "'k'" eq_refl eq_refl eq_refl).
  vm_compute in H. discriminate H.
Qed.

(** C8, amended.  The entries of a mapping owner are visited in iteration
    order and each is tested first on its value, then on its key; the first
    entry that matches either way decides the phrase.  Only when the mapping
    probe finds nothing are the sequence elements, the set members and the
    named attributes probed, in this order, and the first match decides.
    When nothing matches, and whenever probing raises, the caller gets the
    generic arrow form.  [{'k': target}] gives a phrase with key ['k'], and
    [[x, target]] a phrase with index [1]. *)
Theorem describe_first_match (obj : pyobject) (ref : ID) :
  (∀ pre key value rest,
     as_mapping obj = Some (yields pre (Yield (key, value) rest)) →
     Forall (λ kv : pykey * ID, kv.2 ≠ ref ∧ key_id kv.1 ≠ ref) pre →
     (value = ref → ∀ r, key_repr key = Some r →
        describe obj ref = "{obj:}[" +:+ r +:+ "] is {ref:}")
     ∧ (value ≠ ref → key_id key = ref →
        describe obj ref = "{obj:}[{ref:}]"))
  ∧ (silent_mapping obj ref →
     ∀ pre rest,
       as_sequence obj = Some (yields pre (Yield ref rest)) →
       Forall (λ v, v ≠ ref) pre →
       describe obj ref = "{obj:}[" +:+ pretty (length pre) +:+ "] is {ref:}")
  ∧ (silent_mapping obj ref → silent_sequence obj ref →
     ∀ pre rest,
       as_set obj = Some (yields pre (Yield ref rest)) →
       Forall (λ v, v ≠ ref) pre →
       describe obj ref = "{ref:} in {obj:}")
  ∧ (silent_mapping obj ref → silent_sequence obj ref → silent_set obj ref →
     ∀ pre attr rest,
       attributes obj = yields pre (Yield (attr, Some ref) rest) →
       Forall (other_attribute ref) pre →
       describe obj ref = "{obj:}." +:+ attr +:+ " is {ref:}")
  ∧ (silent_mapping obj ref → silent_sequence obj ref → silent_set obj ref →
     silent_attributes obj ref →
     fmtref obj ref = None ∧ describe obj ref = arrow)
  ∧ (fmtref_body obj ref = Raised →
     fmtref obj ref = None ∧ describe obj ref = arrow)
  ∧ (∀ kid attrs, 
     obj = PyObject (Some (Yield (PyKey kid (Some "'k'"), ref) Stop))
                    None None attrs →
     describe obj ref = "{obj:}['k'] is {ref:}")
  ∧ (∀ x attrs, x ≠ ref →
     obj = PyObject None (Some (Yield x (Yield ref Stop))) None attrs →
     describe obj ref = "{obj:}[1] is {ref:}").
Proof.
  split_and!.
  - intros pre key value rest Hm Hpre. split.
    + intros -> r Hr. apply describe_return; [|done].
      unfold fmtref_body. rewrite Hm. simpl.
      rewrite probe_mapping_skip by done. simpl.
      by rewrite decide_True, Hr.
    + intros Hv Hk. apply describe_return; [|done].
      unfold fmtref_body. rewrite Hm. simpl.
      rewrite probe_mapping_skip by done. simpl.
      by rewrite decide_False, decide_True.
  - intros Hsm pre rest Hs Hpre. apply describe_return; [|done].
    unfold fmtref_body. rewrite silent_mapping_fallthrough, Hs by done. simpl.
    rewrite probe_sequence_skip by done. simpl. by rewrite decide_True.
  - intros Hsm Hss pre rest Hs Hpre. apply describe_return; [|done].
    unfold fmtref_body.
    rewrite silent_mapping_fallthrough, silent_sequence_fallthrough, Hs by done.
    simpl. rewrite probe_set_skip by done. simpl. by rewrite decide_True.
  - intros Hsm Hss Hst pre attr rest Ha Hpre. apply describe_return; [|done].
    unfold fmtref_body.
    rewrite silent_mapping_fallthrough, silent_sequence_fallthrough,
      silent_set_fallthrough, Ha by done.
    simpl. rewrite probe_attributes_skip by done. simpl. by rewrite decide_True.
  - intros Hsm Hss Hst (attrs & Ha & Hattrs).
    assert (fmtref_body obj ref = Fallthrough) as Hb.
    { unfold fmtref_body.
      rewrite silent_mapping_fallthrough, silent_sequence_fallthrough,
        silent_set_fallthrough, Ha by done.
      simpl. by rewrite probe_attributes_skip. }
    unfold describe, fmtref. by rewrite Hb.
  - intros Hb. unfold describe, fmtref. by rewrite Hb.
  - intros kid attrs ->. unfold describe, fmtref, fmtref_body. simpl.
    by rewrite decide_True.
  - intros x attrs Hx ->. unfold describe, fmtref, fmtref_body. simpl.
    by rewrite decide_False, decide_True.
Qed.

Lemma describe_first_match_witness :
  describe owner_mapping_ex 7%Z = "{obj:}['k'] is {ref:}"
  ∧ describe owner_sequence_ex 7%Z = "{obj:}[1] is {ref:}".
Proof.
  pose proof (describe_first_match owner_mapping_ex 7%Z)
    as (_ & _ & _ & _ & _ & _ & Hk & _).
  pose proof (describe_first_match owner_sequence_ex 7%Z)
    as (_ & _ & _ & _ & _ & _ & _ & Hi).
  split.
  - exact (Hk 9%Z Stop eq_refl).
  - refine (Hi 8%Z Stop _ eq_refl). discriminate.
Defined.

Example describe_attribute :
  describe (PyObject None None None
              (Yield ("__class__", Some 3%Z) (Yield ("x", Some 7%Z) Stop))) 7%Z
  = "{obj:}.x is {ref:}".
Proof. reflexivity. Qed.

Example describe_failure_hides_later_match :
  describe (PyObject None None None
              (Yield ("broken", None) (Yield ("x", Some 7%Z) Stop))) 7%Z
  = arrow.
Proof. reflexivity. Qed.

(** ** Facts about insertion-ordered dictionaries *)

Section odict_facts.
Context {K V : Type} `{EqDecision K}.
Implicit Types (d : list (K * V)) (k : K) (v : V).

Lemma get_Some_elem d k v : get d k = Some v → (k, v) ∈ d.
Proof.
  induction d as [|[k' v'] d IH]; [done|]. simpl.
  case_decide; [intros [= ->]; subst; left|intros; right; auto].
Qed.

Lemma get_None d k : get d k = None ↔ k ∉ keys d.
Proof.
  unfold keys. induction d as [|[k' v'] d IH]; simpl.
  - split; [intros _; apply not_elem_of_nil|done].
  - rewrite not_elem_of_cons. case_decide; naive_solver.
Qed.

Lemma get_is_Some d k : is_Some (get d k) ↔ k ∈ keys d.
Proof.
  rewrite <-not_eq_None_Some, get_None.
  split; [apply dec_stable|auto].
Qed.

Lemma elem_get d k v : NoDup (keys d) → (k, v) ∈ d → get d k = Some v.
Proof.
  unfold keys. induction d as [|[k' v'] d IH]; simpl.
  - intros _ []%elem_of_nil.
  - intros [Hk' Hd]%NoDup_cons [[= -> ->]|Hin]%elem_of_cons.
    + by rewrite decide_True.
    + rewrite decide_False; [auto|].
      intros ->. apply Hk'. apply list_elem_of_fmap. by exists (k, v).
Qed.

Lemma get_set d k v k' :
  get (set d k v) k' = if decide (k = k') then Some v else get d k'.
Proof.
  induction d as [|[k0 v0] d IH]; simpl.
  - repeat case_decide; done.
  - repeat (case_decide; simpl; simplify_eq); try done.
Qed.

Lemma get_set_eq d k v : get (set d k v) k = Some v.
Proof. by rewrite get_set, decide_True. Qed.

Lemma get_set_ne d k v k' : k ≠ k' → get (set d k v) k' = get d k'.
Proof. intros. by rewrite get_set, decide_False. Qed.

Lemma set_fresh d k v : k ∉ keys d → set d k v = d ++ [(k, v)].
Proof.
  unfold keys. induction d as [|[k0 v0] d IH]; [done|]. simpl.
  intros [? ?]%not_elem_of_cons. rewrite decide_False by done.
  by rewrite IH.
Qed.

Lemma keys_set_present d k v : k ∈ keys d → keys (set d k v) = keys d.
Proof.
  unfold keys. induction d as [|[k0 v0] d IH]; simpl.
  - intros []%elem_of_nil.
  - intros Hin. case_decide; simpl; [by subst|].
    f_equal. apply IH. apply elem_of_cons in Hin as [?|?]; done.
Qed.

Lemma length_set_present d k v : k ∈ keys d → length (set d k v) = length d.
Proof.
  intros Hin. apply keys_set_present with (v := v) in Hin.
  apply (f_equal length) in Hin. unfold keys in Hin.
  by rewrite !length_fmap in Hin.
Qed.

Lemma elem_of_keys_set d k v k' : k' ∈ keys (set d k v) ↔ k' = k ∨ k' ∈ keys d.
Proof.
  rewrite <-!get_is_Some, get_set. case_decide; [|naive_solver].
  subst. split; [auto|]. intros _. by eexists.
Qed.

Lemma NoDup_keys_set d k v : NoDup (keys d) → NoDup (keys (set d k v)).
Proof.
  intros Hd. destruct (decide (k ∈ keys d)) as [Hin|Hin].
  - by rewrite keys_set_present.
  - rewrite set_fresh by done. unfold keys in *. rewrite fmap_app. simpl.
    apply NoDup_app. split_and!; [done| |apply NoDup_singleton].
    intros x Hx ->%list_elem_of_singleton. done.
Qed.

Lemma get_remove d k k' :
  get (remove d k) k' = if decide (k = k') then None else get d k'.
Proof.
  unfold remove. induction d as [|[k0 v0] d IH]; simpl.
  - by case_decide.
  - rewrite filter_cons. simpl.
    repeat (case_decide; simpl; simplify_eq); try done.
Qed.

Lemma keys_remove d k : keys (remove d k) = filter (λ k', k' ≠ k) (keys d).
Proof.
  unfold keys, remove. induction d as [|[k0 v0] d IH]; [done|].
  rewrite fmap_cons, !filter_cons. cbn [fst].
  destruct (decide (k0 ≠ k)); [rewrite fmap_cons; cbn [fst]; f_equal|];
    apply IH.
Qed.

Lemma NoDup_keys_remove d k : NoDup (keys d) → NoDup (keys (remove d k)).
Proof. rewrite keys_remove. apply NoDup_filter. Qed.

Lemma elem_of_values d v : v ∈ values d ↔ ∃ k, (k, v) ∈ d.
Proof.
  unfold values. rewrite list_elem_of_fmap. split.
  - intros ([k v'] & -> & Hin). by exists k.
  - intros (k & Hin). by exists (k, v).
Qed.

Lemma elem_of_keys d k : k ∈ keys d ↔ ∃ v, (k, v) ∈ d.
Proof.
  unfold keys. rewrite list_elem_of_fmap. split.
  - intros ([k' v] & -> & Hin). by exists v.
  - intros (v & Hin). by exists (k, v).
Qed.

(** [dict(pairs)] of pairs with distinct keys keeps the pairs as they are. *)
Lemma dict_of_pairs (l d : list (K * V)) :
  NoDup (keys (d ++ l)) →
  foldl (λ d kv, set d kv.1 kv.2) d l = d ++ l.
Proof.
  revert d. induction l as [|[k v] l IH]; intros d Hnd; simpl.
  - by rewrite app_nil_r.
  - rewrite set_fresh.
    + rewrite IH; rewrite <-app_assoc; done.
    + unfold keys in *. rewrite fmap_app in Hnd.
      apply NoDup_app in Hnd as (_ & Hdis & _).
      intros Hin. apply (Hdis _ Hin). simpl. left.
Qed.
End odict_facts.

(** ** Display names *)

Example alpha_name_ex :
  alpha_name <$> [0; 1; 25; 26; 27; 51; 52; 701; 702]
  = ["a"; "b"; "z"; "aa"; "ab"; "az"; "ba"; "zz"; "aaa"].
Proof. reflexivity. Qed.

Lemma length_product (names l : list string) :
  length (a ← names; (λ b, a +:+ b) <$> l) = length names * length l.
Proof.
  induction names as [|a names IH]; [done|].
  cbn. by rewrite length_app, length_fmap, IH.
Qed.

Lemma length_pairs (names : list string) :
  length (pairs names) = length names * length names.
Proof. apply length_product. Qed.

Lemma length_iter_pairs (j : nat) :
  length (Nat.iter j pairs letters) = 26 ^ 2 ^ j.
Proof.
  induction j as [|j IH]; [done|].
  simpl Nat.iter. rewrite length_pairs, IH.
  rewrite <-Nat.pow_add_r. f_equal. simpl. lia.
Qed.

Lemma varnames_loop_spec (n fuel j : nat) :
  n ≤ fuel + 26 ^ 2 ^ j →
  (∀ j', j' < j → 26 ^ 2 ^ j' < n) →
  ∃ j2, varnames_loop fuel (Nat.iter j pairs letters) n
          = Some (Nat.iter j2 pairs letters)
        ∧ n ≤ 26 ^ 2 ^ j2
        ∧ (∀ j', j' < j2 → 26 ^ 2 ^ j' < n).
Proof.
  revert j. induction fuel as [|fuel IH]; intros j Hfuel Hmin.
  - exists j. cbn. rewrite decide_False; [done|].
    rewrite length_iter_pairs. lia.
  - cbn [varnames_loop]. case_decide as Hlt.
    + rewrite length_iter_pairs in Hlt.
      apply (IH (S j)).
      * assert (26 ^ 2 ^ j * 26 ^ 2 ^ j = 26 ^ 2 ^ S j) as <-.
        { rewrite <-Nat.pow_add_r. f_equal. simpl. lia. }
        assert (2 ≤ 26 ^ 2 ^ j).
        { change 2 with (2 ^ 1) at 1.
          etrans; [apply (Nat.pow_le_mono_l 2 26 1); lia|].
          apply Nat.pow_le_mono_r; [lia|].
          change 1 with (2 ^ 0). apply Nat.pow_le_mono_r; lia. }
        nia.
      * intros j' Hj'. destruct (decide (j' = j)) as [->|]; [done|].
        apply Hmin. lia.
    + exists j. rewrite length_iter_pairs in Hlt. split_and!; [done|lia|done].
Qed.

Lemma varnames_spec (n : nat) :
  ∃ j, varnames n = Some (Nat.iter j pairs letters)
       ∧ n ≤ 26 ^ 2 ^ j
       ∧ (∀ j', j' < j → 26 ^ 2 ^ j' < n).
Proof.
  apply (varnames_loop_spec n n 0); [simpl; lia|lia].
Qed.

Lemma single_letters (k : nat) :
  k < 26 → letters !! k = Some (alpha_name k).
Proof.
  intros Hk. assert (Forall (λ k, letters !! k = Some (alpha_name k)) (seq 0 26))
    as Hall by (apply (bool_decide_unpack _); vm_compute; exact I).
  rewrite Forall_seq in Hall. apply Hall. lia.
Qed.

Lemma two_letters (k : nat) :
  k < 676 →
  pairs letters !! k = Some (letter (k / 26) +:+ letter (k mod 26)).
Proof.
  intros Hk.
  assert (Forall (λ k, pairs letters !! k
                       = Some (letter (k / 26) +:+ letter (k mod 26)))
                 (seq 0 676))
    as Hall by (apply (bool_decide_unpack _); vm_compute; exact I).
  rewrite Forall_seq in Hall. apply Hall. lia.
Qed.

Lemma get_zip (ks : list ID) (names : list string) k key :
  NoDup ks → length ks ≤ length names → ks !! k = Some key →
  get (zip ks names) key = names !! k.
Proof.
  intros Hnd Hlen Hk.
  destruct (lookup_lt_is_Some_2 names k) as [name Hname].
  { apply lookup_lt_Some in Hk. lia. }
  rewrite Hname. apply elem_get.
  - unfold keys. by rewrite fst_zip.
  - apply (list_elem_of_lookup_2 _ k).
    apply lookup_zip_with_Some. by exists key, name.
Qed.

(** C6 as stated fails: with 27 members the single letters are not used at
    all; the member at position 0 is named [aa]. *)
Lemma names_of_27_members_skip_single_letters :
  (∃ vm, varmap (ring 27) = Some vm ∧ get vm 0%Z = Some "aa")
  ∧ ¬ named_alphabetically (ring 27).
Proof.
  assert (∃ vm, varmap (ring 27) = Some vm ∧ get vm 0%Z = Some "aa") as Hvm.
  { destruct (varmap (ring 27)) as [vm|] eqn:E; [|by vm_compute in E].
    exists vm. split; [done|].
    vm_compute in E. injection E as <-. reflexivity. }
  split; [done|].
  intros H. destruct (H 0 0%Z eq_refl) as (vm & Hvm' & Hget).
  destruct Hvm as (vm2 & Hvm2 & Hget2).
  rewrite Hvm' in Hvm2. injection Hvm2 as <-.
  rewrite Hget in Hget2. vm_compute in Hget2. discriminate.
Qed.

(** C6, amended.  The names given out all have the same width: the list of
    names starts as the 26 single letters and, while it is shorter than the
    component, is replaced by the list of all concatenations of two of its
    elements; the member at position [k] receives the element at position
    [k] of the final list.  So a component of at most 26 members is named
    a, b, ..., and one of 27 to 676 members is named aa, ab, ..., az, ba,
    ... with no single letter among its names. *)
Theorem varmap_equal_width_names (cycle : list (ID * gset ID)) :
  NoDup (keys cycle) →
  ∃ j names,
    varnames (length cycle) = Some names
    ∧ names = Nat.iter j pairs letters
    ∧ length cycle ≤ 26 ^ 2 ^ j
    ∧ (∀ j', j' < j → 26 ^ 2 ^ j' < length cycle)
    ∧ varmap cycle = Some (zip (keys cycle) names)
    ∧ (∀ k key, keys cycle !! k = Some key →
         ∃ name, names !! k = Some name
                 ∧ get (zip (keys cycle) names) key = Some name)
    ∧ (length cycle ≤ 26 → ∀ k key, keys cycle !! k = Some key →
         get (zip (keys cycle) names) key = Some (alpha_name k))
    ∧ (26 < length cycle → length cycle ≤ 676 →
       ∀ k key, keys cycle !! k = Some key →
         get (zip (keys cycle) names) key
         = Some (letter (k / 26) +:+ letter (k mod 26))).
Proof.
  intros Hnd.
  destruct (varnames_spec (length cycle)) as (j & Hnames & Hle & Hmin).
  exists j, (Nat.iter j pairs letters).
  assert (Hlen : length (keys cycle) ≤ length (Nat.iter j pairs letters)).
  { unfold keys. by rewrite length_fmap, length_iter_pairs. }
  assert (Hget : ∀ k key, keys cycle !! k = Some key →
            get (zip (keys cycle) (Nat.iter j pairs letters)) key
            = Nat.iter j pairs letters !! k)
    by (intros; by apply get_zip).
  assert (Hk : ∀ k key, keys cycle !! k = Some key → k < length cycle).
  { intros k key Hkey%lookup_lt_Some. unfold keys in Hkey.
    by rewrite length_fmap in Hkey. }
  split_and!; try done.
  - unfold varmap. rewrite Hnames. simpl. f_equal.
    unfold zip_names. apply (dict_of_pairs _ []). simpl.
    unfold keys at 1. by rewrite fst_zip.
  - intros k key Hkey. rewrite (Hget _ _ Hkey).
    destruct (lookup_lt_is_Some_2 (Nat.iter j pairs letters) k) as [name ->].
    + apply Hk in Hkey. rewrite length_iter_pairs. lia.
    + by exists name.
  - intros H26 k key Hkey. rewrite (Hget _ _ Hkey).
    assert (j = 0) as ->.
    { destruct j as [|j]; [done|]. specialize (Hmin 0). simpl in Hmin. lia. }
    apply single_letters. apply Hk in Hkey. lia.
  - intros H26 H676 k key Hkey. rewrite (Hget _ _ Hkey).
    assert (j = 1) as ->.
    { destruct j as [|[|j]]; [simpl in Hle; lia|done|].
      specialize (Hmin 1). simpl in Hmin. lia. }
    apply two_letters. apply Hk in Hkey. lia.
Qed.

Lemma varmap_equal_width_names_witness :
  ∃ j names,
    varnames (length (ring 27)) = Some names
    ∧ names = Nat.iter j pairs letters
    ∧ length (ring 27) ≤ 26 ^ 2 ^ j
    ∧ (∀ j', j' < j → 26 ^ 2 ^ j' < length (ring 27))
    ∧ varmap (ring 27) = Some (zip (keys (ring 27)) names)
    ∧ (∀ k key, keys (ring 27) !! k = Some key →
         ∃ name, names !! k = Some name
                 ∧ get (zip (keys (ring 27)) names) key = Some name)
    ∧ (length (ring 27) ≤ 26 → ∀ k key, keys (ring 27) !! k = Some key →
         get (zip (keys (ring 27)) names) key = Some (alpha_name k))
    ∧ (26 < length (ring 27) → length (ring 27) ≤ 676 →
       ∀ k key, keys (ring 27) !! k = Some key →
         get (zip (keys (ring 27)) names) key
         = Some (letter (k / 26) +:+ letter (k mod 26))).
Proof.
  apply (varmap_equal_width_names (ring 27)).
  apply (bool_decide_unpack _). vm_compute. exact I.
Defined.

Example varmap_three :
  varmap [(5, {[6]}); (6, {[7]}); (7, {[5]})]%Z
  = Some [(5, "a"); (6, "b"); (7, "c")]%Z.
Proof. reflexivity. Qed.

(** ** Tail pruning *)

Lemma elem_of_empty_items (cycle : list (ID * gset ID)) (k : ID) :
  k ∈ empty_items cycle ↔ (k, ∅) ∈ cycle.
Proof.
  unfold empty_items. rewrite elem_of_list_to_set, elem_of_keys.
  setoid_rewrite list_elem_of_filter. simpl. split.
  - by intros (v & -> & Hin).
  - intros Hin. by exists ∅.
Qed.

Lemma elem_of_prune_pass (cycle : list (ID * gset ID)) k refs' :
  NoDup (keys cycle) →
  (k, refs') ∈ prune_pass cycle
  ↔ ∃ refs, (k, refs) ∈ cycle ∧ refs ≠ ∅
            ∧ refs' = refs ∖ empty_items cycle.
Proof.
  intros Hnd. unfold prune_pass, prune_round. rewrite list_elem_of_fmap.
  setoid_rewrite list_elem_of_filter. split.
  - intros ([k0 refs] & [= -> ->] & Hk & Hin). simpl in *.
    exists refs. split_and!; [done| |done].
    intros ->. by apply Hk, elem_of_empty_items.
  - intros (refs & Hin & Hne & ->). exists (k, refs). simpl.
    split_and!; [done| |done].
    intros Hk%elem_of_empty_items.
    apply Hne. apply (elem_get _ _ _ Hnd) in Hin, Hk. congruence.
Qed.

Lemma keys_prune_round remove (cycle : list (ID * gset ID)) :
  keys (prune_round remove cycle) = filter (λ k, k ∉ remove) (keys cycle).
Proof.
  unfold keys, prune_round. rewrite <-list_fmap_compose.
  induction cycle as [|[k v] cycle IH]; [done|].
  rewrite fmap_cons, !filter_cons. cbn [fst].
  destruct (decide (k ∉ remove)); [rewrite fmap_cons; cbn; f_equal|]; apply IH.
Qed.

Lemma NoDup_keys_prune_pass (cycle : list (ID * gset ID)) :
  NoDup (keys cycle) → NoDup (keys (prune_pass cycle)).
Proof. unfold prune_pass. rewrite keys_prune_round. apply NoDup_filter. Qed.

Lemma length_prune_pass (cycle : list (ID * gset ID)) :
  empty_items cycle ≠ ∅ → length (prune_pass cycle) < length cycle.
Proof.
  intros [k Hk]%set_choose_L. unfold prune_pass, prune_round.
  rewrite length_fmap.
  apply (length_filter_lt _ _ (k, ∅)); [by apply elem_of_empty_items|].
  simpl. auto.
Qed.

Lemma prune_pass_fixed (cycle : list (ID * gset ID)) :
  empty_items cycle = ∅ → prune_pass cycle = cycle.
Proof.
  intros He. unfold prune_pass, prune_round. rewrite He. clear He.
  induction cycle as [|[k v] cycle IH]; [done|].
  rewrite filter_cons, decide_True by set_solver.
  rewrite fmap_cons. simpl. f_equal; [f_equal; set_solver|].
  apply IH.
Qed.

Lemma prune_loop_spec (fuel : nat) (cycle : list (ID * gset ID)) :
  length cycle < fuel →
  ∃ n, prune_loop fuel cycle = Some (Nat.iter n prune_pass cycle)
       ∧ (∀ m, m < n → empty_items (Nat.iter m prune_pass cycle) ≠ ∅)
       ∧ empty_items (Nat.iter n prune_pass cycle) = ∅.
Proof.
  revert cycle. induction fuel as [|fuel IH]; intros cycle Hlen; [lia|].
  cbn [prune_loop]. case_decide as He.
  - exists 0. split_and!; [done|intros; lia|done].
  - destruct (IH (prune_pass cycle)) as (n & Hn & Hlt & Hfix).
    { apply length_prune_pass in He. lia. }
    exists (S n). rewrite Nat.iter_succ_r. split_and!; [done| |done].
    intros [|m] Hm; [done|]. rewrite Nat.iter_succ_r. apply Hlt. lia.
Qed.

(** C3. A round of the pruning loop removes exactly the members whose edge
    set is empty and deletes them from the edge sets of the members that
    stay; the loop runs such rounds until no member has an empty edge set,
    and then stops; pruning its result again changes nothing. *)
Theorem prune_fixed_point (cycle : list (ID * gset ID)) :
  NoDup (keys cycle) →
  (∀ k, k ∈ empty_items cycle ↔ (k, ∅) ∈ cycle)
  ∧ (∀ k refs', (k, refs') ∈ prune_pass cycle
       ↔ ∃ refs, (k, refs) ∈ cycle ∧ refs ≠ ∅
                 ∧ refs' = refs ∖ empty_items cycle)
  ∧ NoDup (keys (prune_pass cycle))
  ∧ ∃ n pruned,
      pruned = Nat.iter n prune_pass cycle
      ∧ prune cycle = Some pruned
      ∧ (∀ m, m < n → empty_items (Nat.iter m prune_pass cycle) ≠ ∅)
      ∧ (∀ k refs, (k, refs) ∈ pruned → refs ≠ ∅)
      ∧ prune_pass pruned = pruned
      ∧ prune pruned = Some pruned.
Proof.
  intros Hnd. split_and!.
  - apply elem_of_empty_items.
  - intros. by apply elem_of_prune_pass.
  - by apply NoDup_keys_prune_pass.
  - destruct (prune_loop_spec (S (length cycle)) cycle) as (n & Hn & Hlt & Hfix);
      [lia|].
    exists n, (Nat.iter n prune_pass cycle).
    split_and!; [done|done|done| | |].
    + intros k refs Hin ->. apply elem_of_empty_items in Hin. set_solver.
    + by apply prune_pass_fixed.
    + unfold prune. cbn [prune_loop]. by rewrite decide_True.
Qed.

Lemma prune_fixed_point_witness :
  (∀ k, k ∈ empty_items tail_ex ↔ (k, ∅) ∈ tail_ex)
  ∧ (∀ k refs', (k, refs') ∈ prune_pass tail_ex
       ↔ ∃ refs, (k, refs) ∈ tail_ex ∧ refs ≠ ∅
                 ∧ refs' = refs ∖ empty_items tail_ex)
  ∧ NoDup (keys (prune_pass tail_ex))
  ∧ ∃ n pruned,
      pruned = Nat.iter n prune_pass tail_ex
      ∧ prune tail_ex = Some pruned
      ∧ (∀ m, m < n → empty_items (Nat.iter m prune_pass tail_ex) ≠ ∅)
      ∧ (∀ k refs, (k, refs) ∈ pruned → refs ≠ ∅)
      ∧ prune_pass pruned = pruned
      ∧ prune pruned = Some pruned.
Proof.
  apply (prune_fixed_point tail_ex).
  apply (bool_decide_unpack _). vm_compute. exact I.
Defined.

Example prune_tail_ex :
  prune_pass tail_ex = [(1, {[2]}); (2, {[1]}); (3, ∅)]%Z
  ∧ prune tail_ex = Some [(1, {[2]}); (2, {[1]})]%Z.
Proof. split; vm_compute; reflexivity. Qed.

(** ** Container collapse *)

Lemma foldM_app {A B : Type} (f : A → B → option A) (a : A) (l1 l2 : list B) :
  foldM f a (l1 ++ l2) = foldM f a l1 ≫= λ a', foldM f a' l2.
Proof.
  revert a. induction l1 as [|b l1 IH]; intros a; simpl; [done|].
  destruct (f a b) as [a'|]; simpl; [apply IH|done].
Qed.

Lemma referenced_elsewhere_true (cycle : list (ID * gset ID)) item ref :
  referenced_elsewhere cycle item ref = true
  ↔ ∃ other refs, (other, refs) ∈ cycle ∧ other ≠ item ∧ ref ∈ refs.
Proof.
  unfold referenced_elsewhere. rewrite existsb_exists. split.
  - intros ([other refs] & Hin%list_elem_of_In & H).
    apply andb_true_iff in H as [H1%bool_decide_eq_true H2%bool_decide_eq_true].
    by exists other, refs.
  - intros (other & refs & Hin & Hne & Href). exists (other, refs).
    split; [by apply list_elem_of_In|].
    apply andb_true_iff. by rewrite !bool_decide_eq_true.
Qed.

Lemma referenced_elsewhere_false (cycle : list (ID * gset ID)) item ref :
  referenced_elsewhere cycle item ref = false
  ↔ ∀ other refs, (other, refs) ∈ cycle → other ≠ item → ref ∉ refs.
Proof.
  rewrite <-not_true_iff_false, referenced_elsewhere_true. naive_solver.
Qed.

Section collapse_facts.
Variable dict_of : ID → option ID.

Lemma collapse_step_keys (cycle cycle' : list (ID * gset ID)) item :
  collapse_step dict_of cycle item = Some cycle' → keys cycle' = keys cycle.
Proof.
  unfold collapse_step. destruct (dict_of item) as [ref|]; [|by intros [= ->]].
  destruct (get cycle item) as [own|] eqn:Hown; [simpl|done].
  destruct (_ && _); [|by intros [= ->]].
  destruct (get cycle ref) as [theirs|] eqn:Htheirs; [simpl|done].
  intros [= <-].
  rewrite !keys_set_present; [done|by apply get_is_Some|].
  rewrite keys_set_present; by apply get_is_Some.
Qed.

Lemma collapse_steps_keys (cycle cycle' : list (ID * gset ID)) items :
  foldM (collapse_step dict_of) cycle items = Some cycle' →
  keys cycle' = keys cycle.
Proof.
  revert cycle. induction items as [|item items IH]; intros cycle; simpl.
  - by intros [= ->].
  - destruct (collapse_step dict_of cycle item) as [c|] eqn:Hc; [simpl|done].
    intros ->%IH. by apply (collapse_step_keys _ _ item).
Qed.
End collapse_facts.



Example collapse_ex :
  collapse dict_of_ex attr_cycle_ex = Some [(1, {[3]}); (2, ∅); (3, {[1]})]%Z.
Proof. vm_compute. reflexivity. Qed.

Example collapse_shared_ex :
  collapse dict_of_ex [(1, {[2]}); (2, {[3]}); (3, {[1; 2]})]%Z
  = Some [(1, {[2]}); (2, {[3]}); (3, {[1; 2]})]%Z.
Proof. vm_compute. reflexivity. Qed.

(** ** The disjoint-set pass *)

Lemma first_root_ok : choose_ok first_root.
Proof.
  intros s Hs. unfold first_root.
  destruct (elements s) as [|r l] eqn:E.
  - by apply elements_empty_inv, leibniz_equiv in E.
  - simpl. apply elem_of_elements. rewrite E. left.
Qed.

Lemma elements_iter_ok : iter_ok elements.
Proof. by intros s. Qed.

Lemma elem_of_iter (set_iter : gset ID → list ID) (s : gset ID) (x : ID) :
  iter_ok set_iter → x ∈ set_iter s ↔ x ∈ s.
Proof. intros H. by rewrite (H s), elem_of_elements. Qed.

Lemma NoDup_iter (set_iter : gset ID → list ID) (s : gset ID) :
  iter_ok set_iter → NoDup (set_iter s).
Proof. intros H. rewrite (H s). apply NoDup_elements. Qed.

Lemma assign_lookup (items : list ID) (r : root) (rm : gmap ID root) (x : ID) :
  assign items r rm !! x = if decide (x ∈ items) then Some r else rm !! x.
Proof.
  unfold assign. revert rm. induction items as [|i items IH]; intros rm; simpl.
  - by destruct (decide (x ∈ [])) as [[]%elem_of_nil|].
  - rewrite IH. destruct (decide (x ∈ items)) as [Hin|Hin].
    + rewrite decide_True; [done|by right].
    + destruct (decide (x = i)) as [->|Hne].
      * rewrite decide_True by left. apply lookup_insert_eq.
      * rewrite decide_False by (by intros [?|?]%elem_of_cons).
        by apply lookup_insert_ne.
Qed.

Lemma absorb_spec (rm : list root) (items : gset ID)
    (un : list (root * gset ID)) :
  NoDup rm → (∀ r, r ∈ rm → is_Some (get un r)) →
  ∃ items' un',
    absorb rm items un = Some (items', un')
    ∧ (∀ x, x ∈ items'
         ↔ x ∈ items ∨ ∃ r s, r ∈ rm ∧ get un r = Some s ∧ x ∈ s)
    ∧ (∀ r, get un' r = if decide (r ∈ rm) then None else get un r)
    ∧ (NoDup (keys un) → NoDup (keys un')).
Proof.
  revert items un. induction rm as [|r rm IH]; intros items un Hnd Hin; simpl.
  - exists items, un. split_and!; [done| |done|done].
    intros x. split; [auto|]. intros [?|(r & s & []%elem_of_nil & _)]; done.
  - apply NoDup_cons in Hnd as [Hr Hnd].
    destruct (Hin r) as [s Hs]; [left|].
    unfold pop. rewrite Hs. simpl.
    destruct (IH (items ∪ s) (remove un r) Hnd)
      as (items' & un' & Habs & Hitems & Hget & Hkeys).
    { intros r' Hr'. rewrite get_remove, decide_False by (by intros ->).
      apply Hin. by right. }
    exists items', un'. split_and!; [done| | |].
    + intros x. rewrite Hitems, elem_of_union. split.
      * intros [[?|?]|(r' & s' & Hr' & Hs' & Hx)]; [by left| |].
        -- right. exists r, s. split_and!; [left|done|done].
        -- right. exists r', s'. rewrite get_remove in Hs'.
           case_decide; [done|]. split_and!; [by right|done|done].
      * intros [?|(r' & s' & Hr' & Hs' & Hx)]; [by left; left|].
        apply elem_of_cons in Hr' as [->|Hr'].
        -- left. right. congruence.
        -- right. exists r', s'. split_and!; [done| |done].
           rewrite get_remove, decide_False; [done|by intros ->].
    + intros r'. rewrite Hget, get_remove.
      destruct (decide (r' ∈ rm)) as [Hr'|Hr'].
      * rewrite decide_True; [done|by right].
      * destruct (decide (r = r')) as [->|Hne].
        -- rewrite decide_True; [done|left].
        -- rewrite decide_False; [done|].
           intros [?|?]%elem_of_cons; done.
    + intros Hk. by apply Hkeys, NoDup_keys_remove.
Qed.

Lemma remove_comm {K V : Type} `{EqDecision K} (d : list (K * V)) (k k' : K) :
  remove (remove d k) k' = remove (remove d k') k.
Proof.
  unfold remove. rewrite !list_filter_filter. apply list_filter_iff.
  intros x. tauto.
Qed.

Lemma absorb_order_irrelevant (rm rm' : list root) (items : gset ID)
    (un : list (root * gset ID)) :
  rm ≡ₚ rm' → absorb rm items un = absorb rm' items un.
Proof.
  intros Hp. revert items un.
  induction Hp as [|r rm rm' _ IH|r r' rm|rm rm' rm'' _ IH1 _ IH2];
    intros items un; simpl.
  - done.
  - unfold pop. destruct (get un r); simpl; [apply IH|done].
  - unfold pop. destruct (decide (r' = r)) as [->|Hne]; [done|].
    destruct (get un r) as [s|] eqn:Hs, (get un r') as [s'|] eqn:Hs'; simpl;
      rewrite ?get_remove, ?decide_False, ?Hs, ?Hs' by done; simpl; try done.
    rewrite remove_comm. f_equal. set_solver.
  - by rewrite IH1.
Qed.

Lemma connected_mono (P P' : list (ID * gset ID)) (x y : ID) :
  (∀ e, e ∈ P → e ∈ P') → connected P x y → connected P' x y.
Proof.
  intros Hsub. apply rtc_subrel. intros a b [H|H]; [left|right];
    destruct H as (vs & Hin & Hv); exists vs; auto.
Qed.

Lemma touched_connected (P : list (ID * gset ID)) e (x y : ID) :
  e ∈ P → x ∈ touched e → y ∈ touched e → connected P x y.
Proof.
  intros He Hx Hy. destruct e as [k vs]. unfold touched in *. simpl in *.
  assert (Hk : ∀ z, z ∈ ({[k]} ∪ vs : gset ID) → connected P k z).
  { intros z [->%elem_of_singleton|Hz]%elem_of_union; [done|].
    apply rtc_once. left. by exists vs. }
  etrans; [symmetry; by apply Hk|by apply Hk].
Qed.

Lemma uf_inv_init : uf_inv [] uf_init.
Proof.
  split; simpl; try done.
  - apply NoDup_nil_2.
  - intros r []%elem_of_nil.
  - intros x r. rewrite lookup_empty. split; [done|]. by intros (s & ? & _).
  - intros e []%elem_of_nil.
Qed.

Section separate_step_facts.
Variable choose : gset root → root.
Variable set_iter : gset ID → list ID.
Hypothesis Hchoose : choose_ok choose.
Hypothesis Hiter : iter_ok set_iter.

Lemma elem_of_roots (st : uf_state) (items : gset ID) (r : root) :
  r ∈ (set_omap (λ i, rootmap st !! i) items : gset root)
  ↔ ∃ i, i ∈ items ∧ rootmap st !! i = Some r.
Proof. apply elem_of_set_omap. Qed.

(** No touched node has a representative: a new component is opened. *)
Lemma separate_step_fresh P st e :
  uf_inv P st →
  (set_omap (λ i, rootmap st !! i) (touched e) : gset root) = ∅ →
  uf_inv (P ++ [e])
    (UF (assign (set_iter (touched e)) (fresh st) (rootmap st))
        (set (union st) (fresh st) (touched e))
        (S (fresh st))).
Proof.
  intros Hinv Hroots.
  assert (Hnone : ∀ i, i ∈ touched e → rootmap st !! i = None).
  { intros i Hi. destruct (rootmap st !! i) as [r|] eqn:Hr; [|done].
    assert (r ∈ (∅ : gset root)) as []%not_elem_of_empty.
    rewrite <-Hroots. apply elem_of_roots. eauto. }
  assert (Hfresh : fresh st ∉ keys (union st)).
  { intros Hin%(inv_fresh _ _ Hinv). lia. }
  assert (Hold : ∀ r s, get (union st) r = Some s → fresh st ≠ r).
  { intros r s Hs Heq. apply Hfresh. rewrite Heq. apply get_is_Some. eauto. }
  split; simpl.
  - apply NoDup_keys_set, Hinv.
  - intros r [->|Hr%(inv_fresh _ _ Hinv)]%elem_of_keys_set; lia.
  - intros x r. rewrite assign_lookup. split.
    + destruct (decide (x ∈ set_iter (touched e))) as [Hx|Hx].
      * intros [= <-]. exists (touched e). rewrite get_set_eq.
        split; [done|]. by apply (elem_of_iter set_iter).
      * intros (s & Hs & Hin)%(inv_rootmap _ _ Hinv). exists s.
        rewrite get_set_ne by eauto. done.
    + intros (s & Hs & Hin). rewrite get_set in Hs. case_decide as Hr.
      * simplify_eq. rewrite decide_True; [done|]. by apply elem_of_iter.
      * assert (rootmap st !! x = Some r) as Hx
          by (apply (inv_rootmap _ _ Hinv); eauto).
        rewrite decide_False; [done|].
        intros Hxe%elem_of_iter; [|done]. apply Hnone in Hxe. congruence.
  - intros r s x y. rewrite get_set. case_decide.
    + intros [= <-] Hx Hy. apply (touched_connected _ e); [|done|done].
      apply elem_of_app. right. apply list_elem_of_singleton. done.
    + intros Hs Hx Hy. eapply connected_mono; [|by eapply (inv_sound _ _ Hinv)].
      intros e' He'. apply elem_of_app. by left.
  - intros e' [He'|He'%list_elem_of_singleton]%elem_of_app; [|subst e'].
    + destruct (inv_complete _ _ Hinv _ He') as (r & s & Hs & Hsub).
      exists r, s. rewrite get_set, decide_False by eauto. done.
    + exists (fresh st), (touched e). by rewrite get_set_eq.
  - intros r s x. rewrite get_set. case_decide.
    + intros [= <-] Hx. exists e. split; [|done].
      apply elem_of_app. right. by apply list_elem_of_singleton.
    + intros Hs Hx. destruct (inv_members _ _ Hinv _ _ _ Hs Hx) as (e' & ? & ?).
      exists e'. split; [|done]. apply elem_of_app. by left.
  - intros r s. rewrite get_set. case_decide.
    + intros [= <-]. unfold touched. set_solver.
    + apply (inv_nonempty _ _ Hinv).
Qed.

(** Some touched node has a representative: one of the representatives
    survives and takes over the members of the others. *)
Lemma separate_step_merge P st e :
  uf_inv P st →
  (set_omap (λ i, rootmap st !! i) (touched e) : gset root) ≠ ∅ →
  ∃ st', separate_step choose set_iter st e = Some st'
         ∧ uf_inv (P ++ [e]) st'.
Proof.
  intros Hinv Hroots.
  set (roots := set_omap (λ i, rootmap st !! i) (touched e) : gset root) in *.
  set (r := choose roots).
  assert (Hr : r ∈ roots) by apply Hchoose, Hroots.
  assert (Hroot_comp : ∀ r', r' ∈ roots →
            ∃ i s, i ∈ touched e ∧ i ∈ s ∧ get (union st) r' = Some s).
  { intros r' (i & Hi & Hri)%elem_of_roots.
    apply (inv_rootmap _ _ Hinv) in Hri as (s & Hs & His). eauto. }
  assert (Hroot_of : ∀ x r' s, get (union st) r' = Some s → x ∈ s →
            x ∈ touched e → r' ∈ roots).
  { intros x r' s Hs Hx Hxe. apply elem_of_roots. exists x. split; [done|].
    apply (inv_rootmap _ _ Hinv). eauto. }
  destruct (absorb_spec (elements (roots ∖ {[r]})) (touched e) (union st))
    as (items' & un' & Habs & Hitems & Hget & Hkeys).
  { apply NoDup_elements. }
  { intros r' Hr'%elem_of_elements.
    destruct (Hroot_comp r') as (i & s & _ & _ & Hs); [set_solver|]. eauto. }
  destruct (Hroot_comp r Hr) as (i0 & s0 & Hi0 & Hi0s & Hs0).
  assert (Hrest : ∀ r', r' ∈ elements (roots ∖ {[r]}) ↔ r' ∈ roots ∧ r' ≠ r).
  { intros r'. rewrite elem_of_elements. set_solver. }
  assert (Hget_r : get un' r = Some s0).
  { rewrite Hget, decide_False; [done|]. rewrite Hrest. naive_solver. }
  exists (UF (assign (set_iter items') r (rootmap st))
             (set un' r (s0 ∪ items')) (fresh st)).
  split.
  { unfold separate_step. cbv zeta.
    change ({[e.1]} ∪ e.2) with (touched e). fold roots.
    rewrite decide_False by done. fold r. rewrite Habs. simpl.
    by rewrite Hget_r. }
  assert (Hget2 : ∀ r', get (set un' r (s0 ∪ items')) r'
            = if decide (r = r') then Some (s0 ∪ items')
              else if decide (r' ∈ roots) then None else get (union st) r').
  { intros r'. rewrite get_set. case_decide; [done|]. rewrite Hget.
    destruct (decide (r' ∈ roots)) as [Hin|Hin].
    - rewrite decide_True; [done|]. apply Hrest. naive_solver.
    - rewrite decide_False; [done|]. rewrite Hrest. naive_solver. }
  assert (Hnew : ∀ x, x ∈ s0 ∪ items'
            ↔ x ∈ touched e
              ∨ ∃ r' s, r' ∈ roots ∧ get (union st) r' = Some s ∧ x ∈ s).
  { intros x. rewrite elem_of_union, Hitems. split.
    - intros [Hx|[Hx|(r' & s & Hr'%Hrest & Hs & Hx)]].
      + right. by exists r, s0.
      + by left.
      + right. exists r', s. naive_solver.
    - intros [Hx|(r' & s & Hr' & Hs & Hx)]; [by right; left|].
      destruct (decide (r' = r)) as [->|Hne].
      + left. congruence.
      + right. right. exists r', s. rewrite Hrest. done. }
  assert (Hold : ∀ x, x ∈ items' → x ∉ touched e →
            ∃ r' s, r' ∈ roots ∧ get (union st) r' = Some s ∧ x ∈ s).
  { intros x Hx Hxe. destruct (proj1 (Hnew x)) as [?|?]; [set_solver|done|done]. }
  assert (Hanchor : ∀ x, x ∈ s0 ∪ items' →
            ∃ i, i ∈ touched e ∧ connected P x i).
  { intros x [Hx|(r' & s & Hr' & Hs & Hx)]%Hnew; [by exists x|].
    destruct (Hroot_comp r' Hr') as (i & s' & Hi & His & Hs').
    exists i. split; [done|].
    apply (inv_sound _ _ Hinv r' s); congruence. }
  assert (Hsub : ∀ e', e' ∈ P → e' ∈ P ++ [e])
    by (intros; apply elem_of_app; by left).
  assert (He : e ∈ P ++ [e])
    by (apply elem_of_app; right; by apply list_elem_of_singleton).
  split; simpl.
  - apply NoDup_keys_set, Hkeys, Hinv.
  - intros r' Hr'. apply (inv_fresh _ _ Hinv), get_is_Some.
    apply get_is_Some in Hr'. rewrite Hget2 in Hr'.
    repeat case_decide; subst; [by eexists| |done].
    by destruct Hr'.
  - intros x r'. rewrite assign_lookup. setoid_rewrite Hget2. split.
    + destruct (decide (x ∈ set_iter items')) as [Hx|Hx].
      * apply elem_of_iter in Hx; [|done].
        intros [= <-]. exists (s0 ∪ items'). rewrite decide_True by done.
        split; [done|]. set_solver.
      * intros (s & Hs & Hin)%(inv_rootmap _ _ Hinv).
        destruct (decide (r = r')) as [<-|Hne].
        -- exists (s0 ∪ items'). split; [done|]. apply Hnew. right.
           by exists r, s.
        -- exists s. rewrite decide_False; [done|].
           intros Hr'. apply Hx, elem_of_iter; [done|].
           apply Hitems. right. exists r', s. rewrite Hrest. done.
    + intros (s & Hs & Hin). destruct (decide (r = r')) as [<-|Hne].
      * injection Hs as <-.
        destruct (decide (x ∈ set_iter items')) as [Hx|Hx]; [done|].
        apply (inv_rootmap _ _ Hinv). exists s0. split; [done|].
        apply elem_of_union in Hin as [?|Hin]; [done|].
        exfalso. by apply Hx, elem_of_iter.
      * destruct (decide (r' ∈ roots)) as [|Hr']; [done|].
        rewrite decide_False.
        -- apply (inv_rootmap _ _ Hinv). eauto.
        -- intros Hx%elem_of_iter; [|done].
           apply Hitems in Hx as [Hx|(r2 & s2 & [Hr2 _]%Hrest & Hs2 & Hx)].
           ++ apply Hr'. by apply (Hroot_of x r' s).
           ++ assert (rootmap st !! x = Some r2) as H2
                by (apply (inv_rootmap _ _ Hinv); eauto).
              assert (rootmap st !! x = Some r') as H1
                by (apply (inv_rootmap _ _ Hinv); eauto).
              congruence.
  - intros r' s x y. rewrite Hget2.
    destruct (decide (r = r')) as [<-|Hne].
    + intros [= <-] (i & Hi & Hxi)%Hanchor (j & Hj & Hyj)%Hanchor.
      etrans; [by eapply connected_mono|].
      etrans; [by apply (touched_connected _ e)|].
      symmetry. by eapply connected_mono.
    + case_decide; [done|]. intros Hs Hx Hy.
      eapply connected_mono; [done|]. by eapply (inv_sound _ _ Hinv).
  - intros e' [He'|He'%list_elem_of_singleton]%elem_of_app.
    + destruct (inv_complete _ _ Hinv _ He') as (r' & s & Hs & Hsub').
      destruct (decide (r' ∈ roots)) as [Hr'|Hr'].
      * exists r, (s0 ∪ items'). rewrite Hget2, decide_True by done.
        split; [done|]. intros x Hx. apply Hnew. right. exists r', s. auto.
      * exists r', s. rewrite Hget2, decide_False, decide_False; [done|done|].
        by intros <-.
    + subst e'. exists r, (s0 ∪ items'). rewrite Hget2, decide_True by done.
      split; [done|]. intros x Hx. apply Hnew. by left.
  - intros r' s x. rewrite Hget2. destruct (decide (r = r')) as [<-|Hne].
    + intros [= <-] [Hx|(r2 & s2 & Hr2 & Hs2 & Hx)]%Hnew; [by exists e|].
      destruct (inv_members _ _ Hinv _ _ _ Hs2 Hx) as (e' & ? & ?).
      exists e'. auto.
    + case_decide; [done|]. intros Hs Hx.
      destruct (inv_members _ _ Hinv _ _ _ Hs Hx) as (e' & ? & ?).
      exists e'. auto.
  - intros r' s. rewrite Hget2. destruct (decide (r = r')) as [<-|Hne].
    + intros [= <-]. set_solver.
    + case_decide; [done|]. apply (inv_nonempty _ _ Hinv).
Qed.

Lemma separate_step_inv P st e :
  uf_inv P st →
  ∃ st', separate_step choose set_iter st e = Some st'
         ∧ uf_inv (P ++ [e]) st'.
Proof.
  intros Hinv.
  destruct (decide ((set_omap (λ i, rootmap st !! i) (touched e) : gset root)
                    = ∅)) as [Hroots|Hroots].
  - eexists. split; [|by apply separate_step_fresh].
    unfold separate_step. cbv zeta.
    change ({[e.1]} ∪ e.2) with (touched e). by rewrite decide_True.
  - by apply separate_step_merge.
Qed.

Lemma separate_loop_inv P st refs :
  uf_inv P st →
  ∃ st', foldM (separate_step choose set_iter) st refs = Some st'
         ∧ uf_inv (P ++ refs) st'.
Proof.
  revert P st. induction refs as [|e refs IH]; intros P st Hinv; simpl.
  - exists st. by rewrite app_nil_r.
  - destruct (separate_step_inv P st e Hinv) as (st1 & -> & Hinv1). simpl.
    destruct (IH _ _ Hinv1) as (st' & Hst' & Hinv').
    exists st'. by rewrite <-app_assoc in Hinv'.
Qed.
End separate_step_facts.

Section separate_facts.
Variable choose : gset root → root.
Variable set_iter : gset ID → list ID.
Hypothesis Hchoose : choose_ok choose.
Hypothesis Hiter : iter_ok set_iter.

Lemma restrict_Some (refs c : list (ID * gset ID)) (s : gset ID) :
  restrict set_iter refs s = Some c →
  keys c = set_iter s ∧ ∀ k vs, (k, vs) ∈ c → get refs k = Some vs.
Proof.
  unfold restrict. rewrite mapM_Some. generalize (set_iter s). intros l H.
  induction H as [|key [k vs] l c Hkv _ [IH1 IH2]].
  - split; [done|]. by intros k vs []%elem_of_nil.
  - destruct (get refs key) as [v|] eqn:Hv; [|done]. simpl in Hkv.
    injection Hkv as <- <-. split.
    + unfold keys in *. rewrite fmap_cons. simpl. by f_equal.
    + intros k vs [[= -> ->]|Hin]%elem_of_cons; [done|by apply IH2].
Qed.

Lemma members_restrict (refs c : list (ID * gset ID)) (s : gset ID) :
  restrict set_iter refs s = Some c → members c = s.
Proof.
  intros [Hk _]%restrict_Some. unfold members. rewrite Hk.
  apply set_eq. intros x. by rewrite elem_of_list_to_set, elem_of_iter.
Qed.

Lemma restrict_is_Some (refs : list (ID * gset ID)) (s : gset ID) :
  (∀ x, x ∈ s → x ∈ keys refs) → is_Some (restrict set_iter refs s).
Proof.
  intros Hs. apply mapM_is_Some, Forall_forall. intros x Hx%elem_of_iter; [|done].
  simpl. destruct (proj2 (get_is_Some refs x) (Hs x Hx)) as [v ->]. by eexists.
Qed.

Lemma restrict_None (refs : list (ID * gset ID)) (s : gset ID) (x : ID) :
  x ∈ s → x ∉ keys refs → restrict set_iter refs s = None.
Proof.
  intros Hx Hk. apply mapM_None, Exists_exists. exists x.
  split; [by apply elem_of_iter|]. apply get_None in Hk. by rewrite Hk.
Qed.

(** The loop always runs to its end; [separate] is the materialization of
    what it leaves. *)
Lemma separate_unfold (refs : list (ID * gset ID)) :
  ∃ st, foldM (separate_step choose set_iter) uf_init refs = Some st
        ∧ uf_inv refs st
        ∧ separate choose set_iter refs
          = mapM (restrict set_iter refs) (values (union st)).
Proof.
  destruct (separate_loop_inv choose set_iter Hchoose Hiter [] uf_init refs)
    as (st & Hst & Hinv); [apply uf_inv_init|].
  exists st. split_and!; [done|done|]. unfold separate. by rewrite Hst.
Qed.

Lemma uf_inv_slot (refs : list (ID * gset ID)) st i r s :
  uf_inv refs st → union st !! i = Some (r, s) → get (union st) r = Some s.
Proof.
  intros Hinv Hi. apply elem_get; [apply Hinv|].
  by apply list_elem_of_lookup_2 in Hi.
Qed.

Lemma uf_inv_disjoint (refs : list (ID * gset ID)) st i j r r' s s' x :
  uf_inv refs st →
  union st !! i = Some (r, s) → union st !! j = Some (r', s') →
  x ∈ s → x ∈ s' → i = j.
Proof.
  intros Hinv Hi Hj Hx Hx'.
  assert (rootmap st !! x = Some r) as H1.
  { apply (inv_rootmap _ _ Hinv). exists s. split; [|done].
    by eapply uf_inv_slot. }
  assert (rootmap st !! x = Some r') as H2.
  { apply (inv_rootmap _ _ Hinv). exists s'. split; [|done].
    by eapply uf_inv_slot. }
  assert (r = r') as <- by congruence.
  apply (NoDup_lookup (keys (union st)) i j r); [apply Hinv| |];
    unfold keys; rewrite list_lookup_fmap.
  - by rewrite Hi.
  - by rewrite Hj.
Qed.

(** A set of the structure is closed under connection. *)
Lemma uf_inv_class (refs : list (ID * gset ID)) st r s x y :
  uf_inv refs st → get (union st) r = Some s → x ∈ s →
  connected refs x y → y ∈ s.
Proof.
  intros Hinv Hs Hx Hxy. induction Hxy as [x|x z y Hxz _ IH]; [done|].
  apply IH. clear IH y.
  assert (∃ e, e ∈ refs ∧ x ∈ touched e ∧ z ∈ touched e) as (e & He & Hxe & Hze).
  { destruct Hxz as [(vs & Hin & Hz)|(vs & Hin & Hz)];
      [exists (x, vs)|exists (z, vs)];
      (split; [done|]); unfold touched; simpl; set_solver. }
  destruct (inv_complete _ _ Hinv _ He) as (r' & s' & Hs' & Hsub).
  assert (rootmap st !! x = Some r) as H1
    by (apply (inv_rootmap _ _ Hinv); eauto).
  assert (rootmap st !! x = Some r') as H2
    by (apply (inv_rootmap _ _ Hinv); eauto).
  assert (s = s') as -> by congruence. auto.
Qed.

(** What a successful [separate] returns, slot by slot. *)
Lemma separate_Some (refs : list (ID * gset ID)) comps :
  separate choose set_iter refs = Some comps →
  ∃ st, uf_inv refs st
        ∧ Forall2 (λ s c, restrict set_iter refs s = Some c)
                  (values (union st)) comps.
Proof.
  destruct (separate_unfold refs) as (st & _ & Hinv & ->).
  intros H%mapM_Some. eauto.
Qed.

Lemma component_slot (refs : list (ID * gset ID)) st comps i c :
  Forall2 (λ s c, restrict set_iter refs s = Some c)
          (values (union st)) comps →
  comps !! i = Some c →
  ∃ r, union st !! i = Some (r, members c)
       ∧ restrict set_iter refs (members c) = Some c.
Proof.
  intros HF Hc. destruct (Forall2_lookup_r _ _ _ _ _ HF Hc) as (s & Hs & Hr).
  unfold values in Hs. rewrite list_lookup_fmap in Hs.
  destruct (union st !! i) as [[r s']|] eqn:Hi; [|done].
  simpl in Hs. injection Hs as ->.
  rewrite (members_restrict _ _ _ Hr). eauto.
Qed.

Lemma slot_component (refs : list (ID * gset ID)) st comps i r s :
  Forall2 (λ s c, restrict set_iter refs s = Some c)
          (values (union st)) comps →
  union st !! i = Some (r, s) →
  ∃ c, comps !! i = Some c ∧ members c = s.
Proof.
  intros HF Hi.
  destruct (Forall2_lookup_l _ _ _ i s HF) as (c & Hc & Hr).
  { unfold values. by rewrite list_lookup_fmap, Hi. }
  exists c. split; [done|]. by eapply members_restrict.
Qed.

Lemma elem_of_members (c : list (ID * gset ID)) (x : ID) :
  x ∈ members c ↔ x ∈ keys c.
Proof. unfold members. by rewrite elem_of_list_to_set. Qed.
End separate_facts.

Lemma refs_closed_spec (refs : list (ID * gset ID)) :
  refs_closed refs ↔ ∀ k vs y, (k, vs) ∈ refs → y ∈ vs → y ∈ keys refs.
Proof.
  unfold refs_closed. rewrite Forall_forall. split.
  - intros H k vs y Hin Hy. specialize (H _ Hin y Hy).
    by apply elem_of_list_to_set in H.
  - intros H [k vs] Hin y Hy. apply elem_of_list_to_set. by eapply H.
Qed.

Lemma touched_key (refs : list (ID * gset ID)) e x :
  refs_closed refs → e ∈ refs → x ∈ touched e → x ∈ keys refs.
Proof.
  intros Hc He [->%elem_of_singleton|Hx]%elem_of_union.
  - apply elem_of_keys. exists e.2. by destruct e.
  - destruct e as [k vs]. by eapply refs_closed_spec.
Qed.

Lemma connected_perm (refs refs' : list (ID * gset ID)) (x y : ID) :
  refs ≡ₚ refs' → connected refs x y → connected refs' x y.
Proof. intros Hp. apply connected_mono. intros e. by rewrite Hp. Qed.

Section separate_results.
Variable choose : gset root → root.
Variable set_iter : gset ID → list ID.
Hypothesis Hchoose : choose_ok choose.
Hypothesis Hiter : iter_ok set_iter.

Lemma separate_components (refs : list (ID * gset ID)) comps :
  separate choose set_iter refs = Some comps →
  (∀ e x, e ∈ refs → x ∈ touched e →
     ∃ i c, comps !! i = Some c ∧ x ∈ members c)
  ∧ (∀ i j c c' x, comps !! i = Some c → comps !! j = Some c' →
       x ∈ members c → x ∈ members c' → i = j)
  ∧ (∀ c x y, c ∈ comps → x ∈ members c →
       y ∈ members c ↔ connected refs x y)
  ∧ (∀ c k vs, c ∈ comps → (k, vs) ∈ c → get refs k = Some vs)
  ∧ (∀ c, c ∈ comps → NoDup (keys c) ∧ members c ≠ ∅).
Proof.
  intros (st & Hinv & HF)%(separate_Some choose set_iter Hchoose Hiter).
  assert (Hslot : ∀ c, c ∈ comps →
            ∃ r, get (union st) r = Some (members c)
                 ∧ restrict set_iter refs (members c) = Some c).
  { intros c (i & Hi)%list_elem_of_lookup_1.
    destruct (component_slot _ Hiter _ _ _ _ _ HF Hi) as (r & Hr & Hc).
    exists r. split; [|done]. by eapply uf_inv_slot. }
  split_and!.
  - intros e x He Hx.
    destruct (inv_complete _ _ Hinv _ He) as (r & s & Hs & Hsub).
    apply get_Some_elem, list_elem_of_lookup_1 in Hs as (i & Hi).
    destruct (slot_component _ Hiter _ _ _ _ _ _ HF Hi) as (c & Hc & Hm).
    exists i, c. split; [done|]. rewrite Hm. auto.
  - intros i j c c' x Hi Hj Hx Hx'.
    destruct (component_slot _ Hiter _ _ _ _ _ HF Hi) as (r & Hr & _).
    destruct (component_slot _ Hiter _ _ _ _ _ HF Hj) as (r' & Hr' & _).
    by eapply uf_inv_disjoint.
  - intros c x y (r & Hr & _)%Hslot Hx. split.
    + intros Hy. by eapply (inv_sound _ _ Hinv).
    + intros Hxy. by eapply uf_inv_class.
  - intros c k vs (r & _ & Hc)%Hslot Hin.
    by apply (restrict_Some _ _ _ _ Hc).
  - intros c (r & Hr & Hc)%Hslot. split.
    + rewrite (proj1 (restrict_Some _ _ _ _ Hc)). by apply NoDup_iter.
    + by eapply (inv_nonempty _ _ Hinv).
Qed.

Lemma separate_closed_is_Some (refs : list (ID * gset ID)) :
  refs_closed refs → is_Some (separate choose set_iter refs).
Proof.
  intros Hc.
  destruct (separate_unfold choose set_iter Hchoose Hiter refs)
    as (st & _ & Hinv & ->).
  apply mapM_is_Some, Forall_forall. intros s (r & Hs)%elem_of_values.
  apply restrict_is_Some; [done|]. intros x Hx.
  apply (elem_get _ _ _ (inv_nodup _ _ Hinv)) in Hs.
  destruct (inv_members _ _ Hinv _ _ _ Hs Hx) as (e & He & Hxe).
  by eapply touched_key.
Qed.

Lemma separate_Some_closed (refs : list (ID * gset ID)) comps :
  separate choose set_iter refs = Some comps → refs_closed refs.
Proof.
  intros Hsep. apply refs_closed_spec. intros k vs y Hin Hy.
  destruct (separate_components _ _ Hsep) as (Hcover & _ & _ & Hget & _).
  destruct (Hcover (k, vs) y Hin) as (i & c & Hc & Hyc).
  { unfold touched. simpl. set_solver. }
  apply elem_of_members, elem_of_keys in Hyc as [v Hv].
  apply list_elem_of_lookup_2 in Hc.
  apply get_is_Some. exists v. by eapply Hget.
Qed.
End separate_results.

Lemma keys_build set_iter get_referents garbage :
  keys (build set_iter get_referents garbage) = set_iter garbage.
Proof.
  unfold keys, build. rewrite <-list_fmap_compose.
  induction (set_iter garbage) as [|x l IH]; [done|].
  rewrite fmap_cons. simpl. by f_equal.
Qed.

Lemma build_closed set_iter get_referents garbage :
  iter_ok set_iter → refs_closed (build set_iter get_referents garbage).
Proof.
  intros Hiter. unfold refs_closed. rewrite keys_build.
  apply Forall_forall. intros e (item & -> & _)%list_elem_of_fmap. simpl.
  intros y [Hy _]%elem_of_intersection.
  by apply elem_of_list_to_set, elem_of_iter.
Qed.

(** C1. On a mapping in which every referent is a key, as the graph builder
    produces them, [separate] returns a partition of the keys: every key is
    in exactly one component, components hold keys only, two keys are in the
    same component if and only if an undirected path of references connects
    them, and each component maps its members to their referent sets in the
    original mapping. *)
Theorem separate_partition (choose : gset root → root)
    (set_iter : gset ID → list ID) (refs : list (ID * gset ID)) :
  choose_ok choose → iter_ok set_iter → refs_closed refs →
  ∃ comps,
    separate choose set_iter refs = Some comps
    ∧ (∀ x, x ∈ keys refs →
         ∃ i c, comps !! i = Some c ∧ x ∈ keys c
                ∧ ∀ j c', comps !! j = Some c' → x ∈ keys c' → j = i)
    ∧ (∀ c x, c ∈ comps → x ∈ keys c → x ∈ keys refs)
    ∧ (∀ x y, x ∈ keys refs → y ∈ keys refs →
         (∃ c, c ∈ comps ∧ x ∈ keys c ∧ y ∈ keys c) ↔ connected refs x y)
    ∧ (∀ c k vs, c ∈ comps → (k, vs) ∈ c → get refs k = Some vs)
    ∧ (∀ c, c ∈ comps → NoDup (keys c)).
Proof.
  intros Hchoose Hiter Hclosed.
  destruct (separate_closed_is_Some choose set_iter Hchoose Hiter refs Hclosed)
    as [comps Hsep].
  destruct (separate_components choose set_iter Hchoose Hiter refs comps Hsep)
    as (Hcover & Hdisj & Hclass & Hget & Hnd).
  assert (Hkey : ∀ x, x ∈ keys refs →
            ∃ i c, comps !! i = Some c ∧ x ∈ members c).
  { intros x [vs Hin]%elem_of_keys. apply (Hcover (x, vs)); [done|].
    unfold touched. simpl. set_solver. }
  exists comps. split_and!; [done| | | | |].
  - intros x (i & c & Hc & Hx)%Hkey. exists i, c.
    split_and!; [done|by apply elem_of_members|].
    intros j c' Hc' Hx'%elem_of_members. by eapply Hdisj.
  - intros c x Hc [v Hv]%elem_of_keys. apply get_is_Some. exists v.
    by eapply Hget.
  - intros x y Hx Hy. split.
    + intros (c & Hc & Hxc%elem_of_members & Hyc%elem_of_members).
      by apply (Hclass c).
    + intros Hxy. destruct (Hkey x Hx) as (i & c & Hc%list_elem_of_lookup_2 & Hxc).
      exists c. split_and!; [done|by apply elem_of_members|].
      apply elem_of_members. by apply (Hclass c x).
  - done.
  - intros c Hc. by apply Hnd.
Qed.

Lemma separate_partition_witness :
  ∃ comps,
    separate first_root elements refs_ex = Some comps
    ∧ (∀ x, x ∈ keys refs_ex →
         ∃ i c, comps !! i = Some c ∧ x ∈ keys c
                ∧ ∀ j c', comps !! j = Some c' → x ∈ keys c' → j = i)
    ∧ (∀ c x, c ∈ comps → x ∈ keys c → x ∈ keys refs_ex)
    ∧ (∀ x y, x ∈ keys refs_ex → y ∈ keys refs_ex →
         (∃ c, c ∈ comps ∧ x ∈ keys c ∧ y ∈ keys c) ↔ connected refs_ex x y)
    ∧ (∀ c k vs, c ∈ comps → (k, vs) ∈ c → get refs_ex k = Some vs)
    ∧ (∀ c, c ∈ comps → NoDup (keys c)).
Proof.
  apply (separate_partition first_root elements refs_ex).
  - exact first_root_ok.
  - exact elements_iter_ok.
  - apply (bool_decide_unpack _). vm_compute. exact I.
Defined.

(** C7. The partition that [separate] computes depends neither on the
    order in which the entries of the mapping are processed nor on how the
    choices left open by the set operations fall: the member sets of the
    components are the same, and so are the components themselves up to the
    order of their entries. *)
Theorem separate_order_independent (choose choose' : gset root → root)
    (set_iter set_iter' : gset ID → list ID) (refs refs' : list (ID * gset ID)) :
  choose_ok choose → choose_ok choose' →
  iter_ok set_iter → iter_ok set_iter' →
  NoDup (keys refs) → refs ≡ₚ refs' →
  partition_of (separate choose set_iter refs)
    = partition_of (separate choose' set_iter' refs')
  ∧ (∀ comps comps' c,
       separate choose set_iter refs = Some comps →
       separate choose' set_iter' refs' = Some comps' →
       c ∈ comps → ∃ c', c' ∈ comps' ∧ c ≡ₚ c').
Proof.
  intros Hchoose Hchoose' Hiter Hiter' Hnd Hperm.
  assert (Hsub : ∀ ch it ch' it' (l l' : list (ID * gset ID)) comps comps',
            choose_ok ch → iter_ok it → choose_ok ch' → iter_ok it' →
            l ≡ₚ l' →
            separate ch it l = Some comps → separate ch' it' l' = Some comps' →
            ∀ c, c ∈ comps → ∃ c', c' ∈ comps' ∧ members c = members c').
  { intros ch it ch' it' l l' comps comps' Hch Hit Hch' Hit' Hp Hs Hs' c Hc.
    destruct (separate_components ch it Hch Hit l comps Hs)
      as (_ & _ & Hclass & Hget & Hne).
    destruct (separate_components ch' it' Hch' Hit' l' comps' Hs')
      as (Hcover' & _ & Hclass' & _ & _).
    destruct (Hne c Hc) as [_ [x Hx]%set_choose_L].
    assert (∃ e, e ∈ l' ∧ x ∈ touched e) as (e & He & Hxe).
    { apply elem_of_members, elem_of_keys in Hx as [vs Hin].
      apply (Hget c) in Hin; [|done]. apply get_Some_elem in Hin.
      exists (x, vs). rewrite <-Hp. split; [done|]. unfold touched. simpl.
      set_solver. }
    destruct (Hcover' e x He Hxe) as (i & c' & Hc'%list_elem_of_lookup_2 & Hx').
    exists c'. split; [done|]. apply set_eq. intros y.
    rewrite (Hclass c x y Hc Hx), (Hclass' c' x y Hc' Hx').
    split; apply connected_perm; done. }
  split.
  - destruct (separate choose set_iter refs) as [comps|] eqn:Hs;
      destruct (separate choose' set_iter' refs') as [comps'|] eqn:Hs'; simpl.
    + f_equal. apply set_eq. intros S. rewrite !elem_of_list_to_set.
      rewrite !list_elem_of_fmap. split.
      * intros (c & -> & Hc).
        destruct (Hsub _ _ _ _ _ _ _ _ Hchoose Hiter Hchoose' Hiter' Hperm
                    Hs Hs' c Hc) as (c' & Hc' & Heq). eauto.
      * intros (c' & -> & Hc').
        destruct (Hsub _ _ _ _ _ _ _ _ Hchoose' Hiter' Hchoose Hiter
                    (symmetry Hperm) Hs' Hs c' Hc') as (c & Hc & Heq). eauto.
    + exfalso.
      apply (separate_Some_closed _ _ Hchoose Hiter) in Hs.
      assert (refs_closed refs') as Hc'.
      { apply refs_closed_spec. intros k vs y Hin Hy.
        unfold keys. rewrite <-Hperm. rewrite <-Hperm in Hin.
        by eapply refs_closed_spec. }
      apply (separate_closed_is_Some _ _ Hchoose' Hiter') in Hc' as [? Hc'].
      congruence.
    + exfalso.
      apply (separate_Some_closed _ _ Hchoose' Hiter') in Hs'.
      assert (refs_closed refs) as Hc.
      { apply refs_closed_spec. intros k vs y Hin Hy.
        unfold keys. rewrite Hperm. rewrite Hperm in Hin.
        by eapply refs_closed_spec. }
      apply (separate_closed_is_Some _ _ Hchoose Hiter) in Hc as [? Hc].
      congruence.
    + done.
  - intros comps comps' c Hs Hs' Hc.
    destruct (Hsub _ _ _ _ _ _ _ _ Hchoose Hiter Hchoose' Hiter' Hperm
                Hs Hs' c Hc) as (c' & Hc' & Heq).
    exists c'. split; [done|].
    destruct (separate_components _ _ Hchoose Hiter _ _ Hs)
      as (_ & _ & _ & Hget & Hne).
    destruct (separate_components _ _ Hchoose' Hiter' _ _ Hs')
      as (_ & _ & _ & Hget' & Hne').
    assert (Hnd' : NoDup (keys refs')) by (unfold keys; by rewrite <-Hperm).
    assert (Hentries : ∀ (d : list (ID * gset ID)), NoDup (keys d) → NoDup d).
    { intros d. unfold keys. apply NoDup_fmap_1. }
    apply NoDup_Permutation;
      [apply Hentries, Hne, Hc|apply Hentries, Hne', Hc'|].
    intros [k vs]. split.
    + intros Hin.
      assert (k ∈ members c') as [vs' Hin']%elem_of_members%elem_of_keys.
      { rewrite <-Heq. apply elem_of_members, elem_of_keys. eauto. }
      assert (vs = vs') as ->; [|done].
      apply (Hget c) in Hin; [|done]. apply (Hget' c') in Hin'; [|done].
      apply get_Some_elem in Hin. rewrite Hperm in Hin.
      apply (elem_get _ _ _ Hnd') in Hin. congruence.
    + intros Hin'.
      assert (k ∈ members c) as [vs' Hin]%elem_of_members%elem_of_keys.
      { rewrite Heq. apply elem_of_members, elem_of_keys. eauto. }
      assert (vs = vs') as ->; [|done].
      apply (Hget c) in Hin; [|done]. apply (Hget' c') in Hin'; [|done].
      apply get_Some_elem in Hin. rewrite Hperm in Hin.
      apply (elem_get _ _ _ Hnd') in Hin. congruence.
Qed.

Lemma last_root_ok : choose_ok last_root.
Proof.
  intros s Hs. unfold last_root.
  destruct (last (elements s)) as [r|] eqn:E.
  - simpl. apply elem_of_elements. rewrite last_lookup in E.
    by eapply list_elem_of_lookup_2.
  - apply last_None in E. by apply elements_empty_inv, leibniz_equiv in E.
Qed.

Lemma elements_reversed_ok : iter_ok elements_reversed.
Proof. intros s. apply reverse_Permutation. Qed.

Lemma separate_order_independent_witness :
  partition_of (separate first_root elements refs_ex)
    = partition_of (separate last_root elements_reversed (reverse refs_ex))
  ∧ (∀ comps comps' c,
       separate first_root elements refs_ex = Some comps →
       separate last_root elements_reversed (reverse refs_ex) = Some comps' →
       c ∈ comps → ∃ c', c' ∈ comps' ∧ c ≡ₚ c').
Proof.
  apply (separate_order_independent first_root last_root elements
           elements_reversed refs_ex (reverse refs_ex)).
  - exact first_root_ok.
  - exact last_root_ok.
  - exact elements_iter_ok.
  - exact elements_reversed_ok.
  - apply (bool_decide_unpack _). vm_compute. exact I.
  - symmetry. apply reverse_Permutation.
Defined.

Example separate_reversed_ex :
  separate last_root elements_reversed (reverse refs_ex)
  = Some [[(4, ∅); (3, {[4]})]; [(1, {[2]}); (2, {[1]})]]%Z.
Proof. vm_compute. reflexivity. Qed.

(** C10. [separate] returns a result exactly on the mappings in which every
    referent is a key.  The loop itself always runs to its end; when some
    referent is not a key, it is a member of one of the sets the loop
    leaves, the materialization of that set raises [KeyError], and so does
    [separate].  The mapping that [explore_cycles.__init__] builds has the
    suspect objects as its keys and only suspect objects as referents. *)
Theorem separate_total_iff_closed (choose : gset root → root)
    (set_iter : gset ID → list ID) (refs : list (ID * gset ID)) :
  choose_ok choose → iter_ok set_iter →
  (refs_closed refs ↔ is_Some (separate choose set_iter refs))
  ∧ (∀ k vs y, (k, vs) ∈ refs → y ∈ vs → y ∉ keys refs →
       (∃ st r s,
          foldM (separate_step choose set_iter) uf_init refs = Some st
          ∧ (r, s) ∈ union st ∧ y ∈ s
          ∧ restrict set_iter refs s = None)
       ∧ separate choose set_iter refs = None)
  ∧ (∀ get_referents garbage,
       refs_closed (build set_iter get_referents garbage)
       ∧ NoDup (keys (build set_iter get_referents garbage))
       ∧ (∀ x, x ∈ keys (build set_iter get_referents garbage) ↔ x ∈ garbage)
       ∧ (∀ x vs, (x, vs) ∈ build set_iter get_referents garbage →
            ∀ y, y ∈ vs ↔ y ∈ garbage ∧ y ∈ get_referents x)).
Proof.
  intros Hchoose Hiter. split_and!.
  - split; [by apply separate_closed_is_Some|].
    intros [comps Hs]. by eapply separate_Some_closed.
  - intros k vs y Hin Hy Hkey.
    destruct (separate_unfold choose set_iter Hchoose Hiter refs)
      as (st & Hst & Hinv & Hsep).
    destruct (inv_complete _ _ Hinv _ Hin) as (r & s & Hs & Hsub).
    assert (y ∈ s) as Hys by (apply Hsub; unfold touched; simpl; set_solver).
    assert (restrict set_iter refs s = None) as Hnone
      by by apply (restrict_None _ Hiter _ _ y).
    split.
    + exists st, r, s. split_and!; [done|by apply get_Some_elem|done|done].
    + rewrite Hsep. apply mapM_None, Exists_exists. exists s. split; [|done].
      apply elem_of_values. exists r. by apply get_Some_elem.
  - intros get_referents garbage. split_and!.
    + by apply build_closed.
    + rewrite keys_build. by apply NoDup_iter.
    + intros x. rewrite keys_build. by apply elem_of_iter.
    + intros x vs (item & [= -> ->] & _)%list_elem_of_fmap y.
      by rewrite elem_of_intersection, elem_of_list_to_set.
Qed.

Lemma separate_total_iff_closed_witness :
  (refs_closed refs_open_ex
   ↔ is_Some (separate first_root elements refs_open_ex))
  ∧ (∀ k vs y, (k, vs) ∈ refs_open_ex → y ∈ vs → y ∉ keys refs_open_ex →
       (∃ st r s,
          foldM (separate_step first_root elements) uf_init refs_open_ex
            = Some st
          ∧ (r, s) ∈ union st ∧ y ∈ s
          ∧ restrict elements refs_open_ex s = None)
       ∧ separate first_root elements refs_open_ex = None)
  ∧ (∀ get_referents garbage,
       refs_closed (build elements get_referents garbage)
       ∧ NoDup (keys (build elements get_referents garbage))
       ∧ (∀ x, x ∈ keys (build elements get_referents garbage) ↔ x ∈ garbage)
       ∧ (∀ x vs, (x, vs) ∈ build elements get_referents garbage →
            ∀ y, y ∈ vs ↔ y ∈ garbage ∧ y ∈ get_referents x)).
Proof.
  apply (separate_total_iff_closed first_root elements refs_open_ex).
  - exact first_root_ok.
  - exact elements_iter_ok.
Defined.

Example separate_open_ex :
  separate first_root elements refs_open_ex = None
  ∧ (union <$> foldM (separate_step first_root elements) uf_init refs_open_ex)
    = Some [(0, {[1; 2; 9]}%Z)].
Proof. split; vm_compute; reflexivity. Qed.

Example build_ex :
  build elements referents_ex garbage_ex
  = [(3, {[4]}); (4, ∅); (2, {[1]}); (1, {[2]})]%Z.
Proof. vm_compute. reflexivity. Qed.

(** ** Ranking *)

Lemma key_le_refl (a : nat * nat) : key_le a a.
Proof.
  unfold key_le, key_lt. apply orb_false_iff. split.
  - apply Nat.ltb_ge. lia.
  - apply andb_false_iff. right. apply Nat.ltb_ge. lia.
Qed.

Lemma key_le_spec (a b : nat * nat) :
  key_le a b ↔ a.1 < b.1 ∨ (a.1 = b.1 ∧ a.2 ≤ b.2).
Proof.
  unfold key_le, key_lt.
  rewrite orb_false_iff, andb_false_iff, !Nat.ltb_ge, Nat.eqb_neq. lia.
Qed.

Lemma key_le_trans (a b c : nat * nat) : key_le a b → key_le b c → key_le a c.
Proof. rewrite !key_le_spec. lia. Qed.

Lemma key_lt_le (a b : nat * nat) : key_lt a b = true → key_le a b.
Proof.
  unfold key_lt. rewrite key_le_spec, orb_true_iff, andb_true_iff,
    !Nat.ltb_lt, Nat.eqb_eq. lia.
Qed.

Section sort_facts.
Context {A : Type} (key : A → nat * nat).

Lemma insert_by_perm (x : A) (l : list A) : insert_by key x l ≡ₚ x :: l.
Proof.
  induction l as [|y l IH]; simpl; [done|].
  case_match; [|done]. rewrite IH. apply Permutation_swap.
Qed.

Lemma sort_by_perm (l : list A) : sort_by key l ≡ₚ l.
Proof.
  induction l as [|x l IH]; simpl; [done|].
  by rewrite insert_by_perm, IH.
Qed.

Lemma insert_by_ascending (x : A) (l : list A) :
  ascending key l → ascending key (insert_by key x l).
Proof.
  unfold ascending. induction 1 as [|y l Hl IH Hy]; simpl.
  - by repeat constructor.
  - destruct (key_lt (key y) (key x)) eqn:Hlt.
    + constructor; [done|]. rewrite insert_by_perm.
      constructor; [by apply key_lt_le|done].
    + constructor; [by constructor|].
      constructor; [done|].
      eapply Forall_impl; [exact Hy|]. intros z Hz. simpl in *.
      by eapply key_le_trans.
Qed.

Lemma sort_by_ascending (l : list A) : ascending key (sort_by key l).
Proof.
  induction l as [|x l IH]; simpl; [constructor|].
  by apply insert_by_ascending.
Qed.
End sort_facts.

(** ** The simplification passes never raise on a component *)

Section simplify_total.
Variable dict_of : ID → option ID.

Lemma collapse_step_closed (cycle : list (ID * gset ID)) (item : ID) :
  cycle_closed cycle → is_Some (get cycle item) →
  ∃ cycle', collapse_step dict_of cycle item = Some cycle'
            ∧ cycle_closed cycle'
            ∧ ∀ k, is_Some (get cycle' k) ↔ is_Some (get cycle k).
Proof.
  intros Hc [own Hown]. unfold collapse_step.
  destruct (dict_of item) as [ref|]; [|by exists cycle].
  rewrite Hown. simpl.
  destruct (bool_decide (ref ∈ own)) eqn:Href; simpl; [|by exists cycle].
  destruct (referenced_elsewhere cycle item ref); simpl; [by exists cycle|].
  apply bool_decide_eq_true in Href.
  destruct (Hc item own ref Hown Href) as [theirs Htheirs].
  rewrite Htheirs. simpl. eexists. split; [done|].
  assert (Hsome : ∀ k,
    is_Some (get (set (set cycle item (theirs ∪ own ∖ {[ref]})) ref ∅) k)
    ↔ is_Some (get cycle k)).
  { intros k. rewrite !get_set. repeat case_decide; subst; naive_solver. }
  split; [|done].
  intros k vs y Hk Hy. apply Hsome. rewrite !get_set in Hk.
  repeat case_decide; simplify_eq.
  - set_solver.
  - apply elem_of_union in Hy as [Hy|[Hy _]%elem_of_difference]; eauto.
  - eauto.
Qed.

Lemma collapse_steps_closed (items : list ID) (cycle : list (ID * gset ID)) :
  cycle_closed cycle → (∀ item, item ∈ items → is_Some (get cycle item)) →
  ∃ cycle', foldM (collapse_step dict_of) cycle items = Some cycle'
            ∧ cycle_closed cycle'.
Proof.
  revert cycle. induction items as [|item items IH]; intros cycle Hc Hitems.
  - by exists cycle.
  - simpl.
    destruct (collapse_step_closed cycle item Hc) as (c1 & -> & Hc1 & Hk);
      [apply Hitems; left|].
    simpl. apply IH; [done|]. intros i Hi. apply Hk, Hitems. by right.
Qed.

Lemma collapse_total (cycle : list (ID * gset ID)) :
  cycle_closed cycle → is_Some (collapse dict_of cycle).
Proof.
  intros Hc. destruct (collapse_steps_closed (keys cycle) cycle Hc)
    as (c' & Hc' & _); [|by eexists].
  intros item. by rewrite get_is_Some.
Qed.
End simplify_total.

Lemma prune_total (cycle : list (ID * gset ID)) : is_Some (prune cycle).
Proof.
  destruct (prune_loop_spec (S (length cycle)) cycle) as (n & Hn & _); [lia|].
  by eexists.
Qed.

Lemma varmap_total (cycle : list (ID * gset ID)) : is_Some (varmap cycle).
Proof.
  unfold varmap. destruct (varnames_spec (length cycle)) as (j & -> & _).
  by eexists.
Qed.

Lemma component_closed (choose : gset root → root)
    (set_iter : gset ID → list ID) (refs : list (ID * gset ID)) comps c :
  choose_ok choose → iter_ok set_iter →
  separate choose set_iter refs = Some comps → c ∈ comps → cycle_closed c.
Proof.
  intros Hchoose Hiter Hsep Hc k vs y Hk Hy.
  destruct (separate_components choose set_iter Hchoose Hiter refs comps Hsep)
    as (_ & _ & Hclass & Hget & _).
  apply get_Some_elem in Hk.
  assert (k ∈ members c) as Hkc
    by (apply elem_of_members, elem_of_keys; eauto).
  apply get_is_Some, elem_of_members, (Hclass c k y Hc Hkc).
  apply rtc_once. left. exists vs. split; [|done].
  apply get_Some_elem. by eapply Hget.
Qed.

(** ** Further properties of [separate] *)

Lemma elem_of_concat {A : Type} (x : A) (ls : list (list A)) :
  x ∈ concat ls ↔ ∃ l, x ∈ l ∧ l ∈ ls.
Proof.
  induction ls as [|l ls IH]; simpl.
  - split; [by intros []%elem_of_nil|by intros (l & _ & []%elem_of_nil)].
  - rewrite elem_of_app, IH. split.
    + intros [Hx|(l' & Hx & Hl')]; [exists l; split; [done|left]|].
      exists l'. split; [done|by right].
    + intros (l' & Hx & [->|Hl']%elem_of_cons); [by left|right; eauto].
Qed.

Lemma NoDup_concat_slots {A : Type} (ls : list (list A)) :
  (∀ l, l ∈ ls → NoDup l) →
  (∀ i j l l' x, ls !! i = Some l → ls !! j = Some l' →
     x ∈ l → x ∈ l' → i = j) →
  NoDup (concat ls).
Proof.
  induction ls as [|l ls IH]; intros Hnd Hdisj; simpl; [constructor|].
  apply NoDup_app. split_and!.
  - apply Hnd. left.
  - intros x Hx (l' & Hx' & Hl')%elem_of_concat.
    apply list_elem_of_lookup_1 in Hl' as [j Hj].
    by specialize (Hdisj 0 (S j) l l' x eq_refl Hj Hx Hx').
  - apply IH.
    + intros l' Hl'. apply Hnd. by right.
    + intros i j l1 l2 x Hi Hj Hx1 Hx2.
      by specialize (Hdisj (S i) (S j) l1 l2 x Hi Hj Hx1 Hx2) as [= ->].
Qed.

Lemma length_concat_nonempty {A : Type} (ls : list (list A)) :
  (∀ l, l ∈ ls → l ≠ []) → length ls ≤ length (concat ls).
Proof.
  induction ls as [|l ls IH]; intros Hne; simpl; [done|].
  rewrite length_app.
  assert (l ≠ []) by (apply Hne; left).
  assert (length ls ≤ length (concat ls))
    by (apply IH; intros l' Hl'; apply Hne; by right).
  destruct l; [done|]. simpl. lia.
Qed.

Lemma separate_keys_rearranged (choose : gset root → root)
    (set_iter : gset ID → list ID) (refs : list (ID * gset ID)) comps :
  choose_ok choose → iter_ok set_iter →
  NoDup (keys refs) →
  separate choose set_iter refs = Some comps →
  concat (keys <$> comps) ≡ₚ keys refs.
Proof.
  intros Hchoose Hiter Hnd Hsep.
  destruct (separate_components choose set_iter Hchoose Hiter refs comps Hsep)
    as (Hcover & Hdisj & _ & Hget & Hcnd).
  apply NoDup_Permutation; [|done|].
  - apply NoDup_concat_slots.
    + intros l (c & -> & Hc)%list_elem_of_fmap. by apply Hcnd.
    + intros i j l l' x Hi Hj Hx Hx'. rewrite list_lookup_fmap in Hi, Hj.
      destruct (comps !! i) as [c|] eqn:Hci; [|done].
      destruct (comps !! j) as [c'|] eqn:Hcj; [|done].
      simpl in Hi, Hj. injection Hi as <-. injection Hj as <-.
      apply (Hdisj i j c c' x); [done|done| |]; by apply elem_of_members.
  - intros x. rewrite elem_of_concat. split.
    + intros (l & Hx & (c & -> & Hc)%list_elem_of_fmap).
      apply elem_of_keys in Hx as [vs Hin]. apply get_is_Some.
      exists vs. by apply (Hget c).
    + intros [vs Hin]%elem_of_keys.
      destruct (Hcover (x, vs) x Hin) as (i & c & Hc & Hx).
      { unfold touched. simpl. set_solver. }
      exists (keys c). split; [by apply elem_of_members|].
      apply list_elem_of_fmap. exists c. split; [done|].
      by eapply list_elem_of_lookup_2.
Qed.

(** X1. On a mapping with distinct keys whose referents are keys, the member
    lists of the components, put end to end, are a rearrangement of the keys
    of the mapping: no object is lost or duplicated by the separation, and
    the member counts of the components add up to the number of objects. *)
Theorem separate_members_rearranged (choose : gset root → root)
    (set_iter : gset ID → list ID) (refs : list (ID * gset ID)) comps :
  choose_ok choose → iter_ok set_iter →
  NoDup (keys refs) →
  separate choose set_iter refs = Some comps →
  concat (keys <$> comps) ≡ₚ keys refs
  ∧ sum_list (length <$> comps) = length refs.
Proof.
  intros Hchoose Hiter Hnd Hsep.
  pose proof (separate_keys_rearranged _ _ _ _ Hchoose Hiter Hnd Hsep) as Hperm.
  split; [done|].
  apply Permutation_length in Hperm. rewrite length_concat in Hperm.
  unfold keys in Hperm at 2. rewrite length_fmap in Hperm. rewrite <-Hperm.
  clear. induction comps as [|c comps IH]; [done|].
  rewrite !fmap_cons. simpl. unfold keys at 1. rewrite length_fmap.
  by rewrite IH.
Qed.

Lemma separate_members_rearranged_witness :
  concat (keys <$> comps_ex)
    ≡ₚ keys refs_ex
  ∧ sum_list (length <$> comps_ex)
    = length refs_ex.
Proof.
  apply (separate_members_rearranged first_root elements refs_ex).
  - exact first_root_ok.
  - exact elements_iter_ok.
  - apply (bool_decide_unpack _). vm_compute. exact I.
  - vm_compute. reflexivity.
Defined.

(** X2. [separate] never returns an empty component, and it returns at most
    as many components as the mapping has entries. *)
Theorem separate_components_nonempty (choose : gset root → root)
    (set_iter : gset ID → list ID) (refs : list (ID * gset ID)) comps :
  choose_ok choose → iter_ok set_iter →
  NoDup (keys refs) →
  separate choose set_iter refs = Some comps →
  (∀ c, c ∈ comps → c ≠ []) ∧ length comps ≤ length refs.
Proof.
  intros Hchoose Hiter Hnd Hsep.
  destruct (separate_components choose set_iter Hchoose Hiter refs comps Hsep)
    as (_ & _ & _ & _ & Hcnd).
  assert (Hne : ∀ c, c ∈ comps → c ≠ []).
  { intros c Hc ->. by destruct (Hcnd [] Hc) as [_ []]. }
  split; [done|].
  pose proof (separate_Some_closed _ _ Hchoose Hiter _ _ Hsep) as Hclosed.
  destruct (separate_components choose set_iter Hchoose Hiter refs comps Hsep)
    as (Hcover & Hdisj & _ & Hget & _).
  assert (length (keys <$> comps) ≤ length (concat (keys <$> comps))) as Hle.
  { apply length_concat_nonempty.
    intros l (c & -> & Hc)%list_elem_of_fmap Hnil.
    apply (Hne c Hc). destruct c; [done|discriminate]. }
  rewrite length_fmap in Hle.
  assert (NoDup (concat (keys <$> comps))) as Hnd'.
  { apply NoDup_concat_slots.
    + intros l (c & -> & Hc)%list_elem_of_fmap. by apply Hcnd.
    + intros i j l l' x Hi Hj Hx Hx'. rewrite list_lookup_fmap in Hi, Hj.
      destruct (comps !! i) as [c|] eqn:Hci; [|done].
      destruct (comps !! j) as [c'|] eqn:Hcj; [|done].
      simpl in Hi, Hj. injection Hi as <-. injection Hj as <-.
      apply (Hdisj i j c c' x); [done|done| |]; by apply elem_of_members. }
  assert (length (concat (keys <$> comps)) ≤ length (keys refs)) as Hle2.
  { apply submseteq_length, NoDup_submseteq; [done|].
    intros x (l & Hx & (c & -> & Hc)%list_elem_of_fmap)%elem_of_concat.
    apply elem_of_keys in Hx as [vs Hin]. apply get_is_Some.
    exists vs. by apply (Hget c). }
  unfold keys in Hle2 at 2. rewrite length_fmap in Hle2. lia.
Qed.

Lemma separate_components_nonempty_witness :
  (∀ c, c ∈ comps_ex → c ≠ [])
  ∧ length comps_ex ≤ length refs_ex.
Proof.
  apply (separate_components_nonempty first_root elements refs_ex).
  - exact first_root_ok.
  - exact elements_iter_ok.
  - apply (bool_decide_unpack _). vm_compute. exact I.
  - vm_compute. reflexivity.
Defined.

(** X3. The references of a component stay inside it: every referent of a
    member of a component returned by [separate] is a member of the same
    component. *)
Theorem separate_components_closed (choose : gset root → root)
    (set_iter : gset ID → list ID) (refs : list (ID * gset ID)) comps :
  choose_ok choose → iter_ok set_iter →
  separate choose set_iter refs = Some comps →
  ∀ c k vs y, c ∈ comps → (k, vs) ∈ c → y ∈ vs → y ∈ keys c.
Proof.
  intros Hchoose Hiter Hsep c k vs y Hc Hin Hy.
  destruct (separate_components choose set_iter Hchoose Hiter refs comps Hsep)
    as (_ & _ & Hclass & Hget & _).
  assert (k ∈ members c) as Hkc
    by (apply elem_of_members, elem_of_keys; eauto).
  apply elem_of_members, (Hclass c k y Hc Hkc).
  apply rtc_once. left. exists vs. split; [|done].
  apply get_Some_elem. by eapply Hget.
Qed.

Lemma separate_components_closed_witness :
  separate first_root elements refs_ex = Some comps_ex
  ∧ ∀ c k vs y, c ∈ comps_ex →
      (k, vs) ∈ c → y ∈ vs → y ∈ keys c.
Proof.
  split; [vm_compute; reflexivity|].
  apply (separate_components_closed first_root elements refs_ex).
  - exact first_root_ok.
  - exact elements_iter_ok.
  - vm_compute. reflexivity.
Defined.

(** ** Further properties of the pruning loop *)

Lemma get_prune_pass (cycle : list (ID * gset ID)) (k : ID) :
  NoDup (keys cycle) →
  get (prune_pass cycle) k
  = vs ← get cycle k;
    if decide (vs = ∅) then None else Some (vs ∖ empty_items cycle).
Proof.
  intros Hnd.
  pose proof (NoDup_keys_prune_pass _ Hnd) as Hnd'.
  destruct (get cycle k) as [vs|] eqn:Hk; simpl.
  - case_decide as Hvs.
    + apply get_None. intros [vs' Hin]%elem_of_keys.
      apply (elem_of_prune_pass _ _ _ Hnd) in Hin as (vs2 & Hin & Hne & _).
      apply (elem_get _ _ _ Hnd) in Hin. congruence.
    + apply (elem_get _ _ _ Hnd'), (elem_of_prune_pass _ _ _ Hnd).
      exists vs. split_and!; [by apply get_Some_elem|done|done].
  - apply get_None. intros [vs' Hin]%elem_of_keys.
    apply (elem_of_prune_pass _ _ _ Hnd) in Hin as (vs2 & Hin & _).
    apply (elem_get _ _ _ Hnd) in Hin. congruence.
Qed.

Lemma members_prune_pass (cycle : list (ID * gset ID)) :
  members (prune_pass cycle) = members cycle ∖ empty_items cycle.
Proof.
  apply set_eq. intros x. unfold prune_pass.
  rewrite elem_of_difference, !elem_of_members, keys_prune_round.
  by rewrite list_elem_of_filter, (comm and).
Qed.

Lemma prune_iterates (cycle pruned : list (ID * gset ID)) :
  prune cycle = Some pruned →
  ∃ n, pruned = Nat.iter n prune_pass cycle ∧ empty_items pruned = ∅.
Proof.
  intros Hp.
  destruct (prune_loop_spec (S (length cycle)) cycle) as (n & Hn & _ & He);
    [lia|].
  exists n. unfold prune in Hp. rewrite Hn in Hp. by injection Hp as <-.
Qed.

Lemma prune_pass_self_sustaining (cycle : list (ID * gset ID)) (T : gset ID) :
  NoDup (keys cycle) → self_sustaining cycle T →
  self_sustaining (prune_pass cycle) T.
Proof.
  intros Hnd HT x Hx.
  assert (Hkeep : ∀ z, z ∈ T → z ∉ empty_items cycle).
  { intros z (w & _ & vs & Hz & Hw)%HT Hin%elem_of_empty_items.
    apply (elem_get _ _ _ Hnd) in Hin. set_solver. }
  destruct (HT x Hx) as (y & Hy & vs & Hget & Hyvs).
  exists y. split; [done|]. exists (vs ∖ empty_items cycle).
  rewrite get_prune_pass, Hget by done. simpl.
  rewrite decide_False by set_solver. split; [done|].
  apply elem_of_difference. split; [done|by apply Hkeep].
Qed.

(** X4. Pruning never removes a member of a reference cycle: if every
    member of a set [T] refers to a member of [T], then all of [T] is still
    in the pruned mapping, and still with those references. *)
Theorem prune_keeps_cycles (cycle pruned : list (ID * gset ID)) (T : gset ID) :
  NoDup (keys cycle) → self_sustaining cycle T →
  prune cycle = Some pruned →
  (∀ x, x ∈ T → x ∈ keys pruned) ∧ self_sustaining pruned T.
Proof.
  intros Hnd HT (n & -> & _)%prune_iterates.
  assert (NoDup (keys (Nat.iter n prune_pass cycle))
          ∧ self_sustaining (Nat.iter n prune_pass cycle) T) as [_ Hn].
  { induction n as [|n [IH1 IH2]]; [done|]. simpl. split.
    - by apply NoDup_keys_prune_pass.
    - by apply prune_pass_self_sustaining. }
  split; [|done].
  intros x (y & _ & vs & Hget & _)%Hn. apply get_is_Some. eauto.
Qed.

Lemma prune_keeps_cycles_witness :
  (∀ x, x ∈ core_members_ex → x ∈ keys core_ex)
  ∧ self_sustaining core_ex core_members_ex.
Proof.
  apply (prune_keeps_cycles tail_ex).
  - apply (bool_decide_unpack _). vm_compute. exact I.
  - intros x Hx. apply elem_of_union in Hx as [Hx|Hx];
      apply elem_of_singleton in Hx; subst x.
    + exists 2%Z. split; [set_solver|]. exists {[2%Z]}. split; [reflexivity|].
      set_solver.
    + exists 1%Z. split; [set_solver|]. exists {[1%Z]}. split; [reflexivity|].
      set_solver.
  - vm_compute. reflexivity.
Defined.

Lemma prune_survivors (cycle pruned : list (ID * gset ID)) :
  NoDup (keys cycle) → cycle_closed cycle →
  prune cycle = Some pruned →
  keys pruned `sublist_of` keys cycle
  ∧ NoDup (keys pruned)
  ∧ (∀ k vs', get pruned k = Some vs' →
       ∃ vs, get cycle k = Some vs ∧ vs' = vs ∩ members pruned ∧ vs' ≠ ∅)
  ∧ cycle_closed pruned
  ∧ self_sustaining pruned (members pruned).
Proof.
  intros Hnd Hclosed (n & -> & Hfix)%prune_iterates.
  assert (keys (Nat.iter n prune_pass cycle) `sublist_of` keys cycle
          ∧ NoDup (keys (Nat.iter n prune_pass cycle))
          ∧ ∀ k vs', get (Nat.iter n prune_pass cycle) k = Some vs' →
              ∃ vs, get cycle k = Some vs
                    ∧ vs' = vs ∩ members (Nat.iter n prune_pass cycle))
    as (Hsub & Hnd' & Hedges).
  { clear Hfix. induction n as [|n (IH1 & IH2 & IH3)]; simpl.
    - split_and!; [done|done|]. intros k vs Hk. exists vs. split; [done|].
      apply set_eq. intros y. rewrite elem_of_intersection, elem_of_members.
      split; [|tauto]. intros Hy. split; [done|].
      apply get_is_Some. by eapply Hclosed.
    - split_and!.
      + etrans; [|exact IH1]. unfold prune_pass. rewrite keys_prune_round.
        apply sublist_filter.
      + by apply NoDup_keys_prune_pass.
      + intros k w. rewrite get_prune_pass by done.
        destruct (get (Nat.iter n prune_pass cycle) k) as [vs'|] eqn:Hk;
          [simpl|done].
        case_decide; [done|]. intros [= <-].
        destruct (IH3 k vs' Hk) as (vs & Hvs & ->). exists vs.
        split; [done|]. rewrite members_prune_pass. set_solver. }
  set (pruned := Nat.iter n prune_pass cycle) in *.
  assert (Hne : ∀ k vs', get pruned k = Some vs' → vs' ≠ ∅).
  { intros k vs' Hk ->. apply get_Some_elem, elem_of_empty_items in Hk.
    set_solver. }
  split_and!; [done|done| | |].
  - intros k vs' Hk. destruct (Hedges k vs' Hk) as (vs & ? & ?).
    exists vs. split_and!; [done|done|by eapply Hne].
  - intros k vs' y Hk Hy. destruct (Hedges k vs' Hk) as (vs & _ & ->).
    apply elem_of_intersection in Hy as [_ Hy].
    by apply get_is_Some, elem_of_members.
  - intros x [vs' Hk]%elem_of_members%get_is_Some.
    destruct (Hedges x vs' Hk) as (vs & _ & Heq).
    destruct (set_choose_L vs') as [y Hy]; [by eapply Hne|].
    exists y. split; [|by exists vs'].
    rewrite Heq in Hy. set_solver.
Qed.


(** X5. On a component with distinct members whose referents are members,
    pruning keeps the surviving members in their order and keeps exactly the
    references between survivors: the edge set of a survivor is its original
    edge set cut down to the survivors, it is not empty, and so every
    survivor refers to a survivor. *)
Theorem prune_keeps_edges_between_survivors
    (cycle pruned : list (ID * gset ID)) :
  NoDup (keys cycle) → cycle_closed cycle →
  prune cycle = Some pruned →
  keys pruned `sublist_of` keys cycle
  ∧ NoDup (keys pruned)
  ∧ (∀ k vs', get pruned k = Some vs' →
       ∃ vs, get cycle k = Some vs ∧ vs' = vs ∩ members pruned ∧ vs' ≠ ∅)
  ∧ cycle_closed pruned
  ∧ self_sustaining pruned (members pruned).
Proof. apply prune_survivors. Qed.

Lemma prune_keeps_edges_between_survivors_witness :
  keys core_ex `sublist_of` keys tail_ex
  ∧ NoDup (keys core_ex)
  ∧ (∀ k vs', get core_ex k = Some vs' →
       ∃ vs, get tail_ex k = Some vs
             ∧ vs' = vs ∩ members core_ex ∧ vs' ≠ ∅)
  ∧ cycle_closed core_ex
  ∧ self_sustaining core_ex
      (members core_ex).
Proof.
  apply (prune_keeps_edges_between_survivors tail_ex).
  - apply (bool_decide_unpack _). vm_compute. exact I.
  - intros k vs y Hk Hy. unfold tail_ex in *. simpl in Hk.
    repeat case_decide; simplify_eq; apply get_is_Some;
      unfold keys; simpl; set_solver.
  - vm_compute. reflexivity.
Defined.

(** X6. A component without a reference cycle is pruned to the empty
    mapping: if no reference chain in it goes on for ever, nothing is
    left. *)
Theorem prune_without_cycle_empty (cycle : list (ID * gset ID)) :
  NoDup (keys cycle) → cycle_closed cycle →
  well_founded (flip (edge cycle)) →
  prune cycle = Some [].
Proof.
  intros Hnd Hclosed Hwf.
  destruct (prune_total cycle) as [pruned Hp]. rewrite Hp. f_equal.
  destruct (prune_survivors _ _ Hnd Hclosed Hp) as (_ & _ & Hedges & _ & Hself).
  assert (Hnone : ∀ x, x ∉ keys pruned).
  { intros x. induction (Hwf x) as [x _ IH]. intros Hx.
    destruct (Hself x) as (y & Hy & vs' & Hk & Hyvs);
      [by apply elem_of_members|].
    apply (IH y); [|by apply elem_of_members].
    destruct (Hedges x vs' Hk) as (vs & Hget & Heq & _).
    exists vs. split; [done|]. set_solver. }
  destruct pruned as [|[k vs] pruned]; [done|].
  exfalso. apply (Hnone k). unfold keys. simpl. left.
Qed.

Lemma chain_ex_well_founded : well_founded (flip (edge chain_ex)).
Proof.
  assert (H4 : Acc (flip (edge chain_ex)) 4%Z).
  { constructor. intros y (vs & Hget & Hy).
    unfold chain_ex in Hget. simpl in Hget.
    repeat case_decide; simplify_eq. by apply not_elem_of_empty in Hy. }
  intros x. constructor. intros y (vs & Hget & Hy).
  unfold chain_ex in Hget. simpl in Hget.
  repeat case_decide; simplify_eq.
  - apply elem_of_singleton in Hy. by subst y.
Qed.

Lemma prune_without_cycle_empty_witness : prune chain_ex = Some [].
Proof.
  apply (prune_without_cycle_empty chain_ex).
  - apply (bool_decide_unpack _). vm_compute. exact I.
  - intros k vs y Hk Hy. unfold chain_ex in *. simpl in Hk.
    repeat case_decide; simplify_eq; apply get_is_Some;
      unfold keys; simpl; set_solver.
  - exact chain_ex_well_founded.
Defined.

(** ** Further properties of the container collapse *)

Section collapse_more.
Variable dict_of : ID → option ID.

(** What a collapse step does to the lookups, whether or not it collapses. *)
Lemma collapse_step_cases (cycle cycle' : list (ID * gset ID)) (A : ID) :
  collapse_step dict_of cycle A = Some cycle' →
  cycle' = cycle
  ∨ ∃ S own theirs,
      dict_of A = Some S ∧ get cycle A = Some own ∧ S ∈ own
      ∧ get cycle S = Some theirs
      ∧ (∀ k vs, get cycle k = Some vs → k ≠ A → S ∉ vs)
      ∧ ∀ k, get cycle' k
             = if decide (S = k) then Some ∅
               else if decide (A = k) then Some (theirs ∪ own ∖ {[S]})
               else get cycle k.
Proof.
  unfold collapse_step. destruct (dict_of A) as [S|]; [|intros [= <-]; by left].
  destruct (get cycle A) as [own|] eqn:Hown; [simpl|done].
  destruct (bool_decide (S ∈ own)) eqn:HS; simpl; [|intros [= <-]; by left].
  destruct (referenced_elsewhere cycle A S) eqn:Hre; simpl;
    [intros [= <-]; by left|].
  destruct (get cycle S) as [theirs|] eqn:Htheirs; [simpl|done].
  intros [= <-]. right. exists S, own, theirs.
  apply bool_decide_eq_true in HS.
  split_and!; [done|done|done|done| |].
  - intros k vs Hk Hne. apply get_Some_elem in Hk.
    by apply (proj1 (referenced_elsewhere_false cycle A S) Hre k vs).
  - intros k. by rewrite !get_set.
Qed.

Lemma collapse_step_reaches (cycle cycle' : list (ID * gset ID)) (A X Y : ID) :
  collapse_step dict_of cycle A = Some cycle' →
  dict_of A ≠ Some X → dict_of A ≠ Some Y →
  reaches cycle X Y ↔ reaches cycle' X Y.
Proof.
  intros [->|(S & own & theirs & HS & Hown & HSown & Htheirs & Hother & Hget)]
    %collapse_step_cases HX HY; [done|].
  assert (X ≠ S) as HXS by congruence.
  assert (Y ≠ S) as HYS by congruence.
  clear HX HY. split.
  - intros Hreach.
    assert ((X ≠ S → reaches cycle' X Y)
            ∧ (X = S → A ≠ S → reaches cycle' A Y)) as [H _]; [|by apply H].
    clear HXS. revert HYS.
    induction Hreach as [X|X Z Y (vs & HXvs & HZ) _ IH]; intros HYS.
    { split; [done|]. by intros ->. }
    destruct (IH HYS) as [IH1 IH2]. clear IH.
    split.
    + intros HXS. destruct (decide (Z = S)) as [->|HZS].
      * destruct (decide (X = A)) as [->|HXA].
        -- apply IH2; [done|]. congruence.
        -- by destruct (Hother X vs HXvs HXA).
      * eapply rtc_l; [|by apply IH1].
        destruct (decide (A = X)) as [->|HXA].
        -- exists (theirs ∪ own ∖ {[S]}).
           rewrite Hget, decide_False, decide_True by done.
           split; [done|]. assert (vs = own) as -> by congruence. set_solver.
        -- exists vs. rewrite Hget, !decide_False by done. done.
    + intros -> HAS. assert (vs = theirs) as -> by congruence.
      assert (Z ≠ S) as HZS.
      { intros ->. by apply (Hother S theirs Htheirs). }
      eapply rtc_l; [|by apply IH1].
      exists (theirs ∪ own ∖ {[S]}).
      rewrite Hget, decide_False, decide_True by done.
      split; [done|]. set_solver.
  - intros Hreach. clear HXS HYS.
    induction Hreach as [X|X Z Y (vs & HXvs & HZ) _ IH]; [done|].
    etrans; [|exact IH]. clear IH. rewrite Hget in HXvs.
    destruct (decide (S = X)) as [->|HSX].
    { injection HXvs as <-. by apply not_elem_of_empty in HZ. }
    destruct (decide (A = X)) as [->|HAX].
    + injection HXvs as <-.
      apply elem_of_union in HZ as [HZ|[HZ _]%elem_of_difference].
      * eapply rtc_l; [by exists own|]. apply rtc_once. by exists theirs.
      * apply rtc_once. by exists own.
    + apply rtc_once. by exists vs.
Qed.

Lemma collapse_steps_reaches (items : list ID)
    (cycle cycle' : list (ID * gset ID)) (X Y : ID) :
  foldM (collapse_step dict_of) cycle items = Some cycle' →
  (∀ a, a ∈ items → dict_of a ≠ Some X ∧ dict_of a ≠ Some Y) →
  reaches cycle X Y ↔ reaches cycle' X Y.
Proof.
  revert cycle. induction items as [|a items IH]; intros cycle; simpl.
  - by intros [= ->].
  - destruct (collapse_step dict_of cycle a) as [c1|] eqn:Hstep; [simpl|done].
    intros Hrest Hitems.
    destruct (Hitems a) as [HX HY]; [left|].
    rewrite (collapse_step_reaches _ _ _ _ _ Hstep HX HY).
    apply IH; [done|]. intros b Hb. apply Hitems. by right.
Qed.

(** A collapsed table stays empty and unreferenced. *)

Lemma collapse_step_discarded (cycle cycle' : list (ID * gset ID)) (B S : ID) :
  collapse_step dict_of cycle B = Some cycle' →
  discarded S cycle → discarded S cycle'.
Proof.
  intros [->|(T & own & theirs & HT & Hown & HTown & Htheirs & Hother & Hget)]
    %collapse_step_cases [HS Hnone]; [done|].
  assert (B ≠ S) as HBS.
  { intros ->. rewrite HS in Hown. injection Hown as <-.
    by apply not_elem_of_empty in HTown. }
  split.
  - rewrite Hget. case_decide; [done|]. by rewrite decide_False.
  - intros k vs. rewrite Hget. repeat case_decide.
    + intros [= <-]. apply not_elem_of_empty.
    + intros [= <-]. apply not_elem_of_union.
      split; [exact (Hnone T theirs Htheirs)|].
      intros [? _]%elem_of_difference. by apply (Hnone B own Hown).
    + apply Hnone.
Qed.

Lemma collapse_steps_discarded (items : list ID)
    (cycle cycle' : list (ID * gset ID)) (S : ID) :
  foldM (collapse_step dict_of) cycle items = Some cycle' →
  discarded S cycle → discarded S cycle'.
Proof.
  revert cycle. induction items as [|a items IH]; intros cycle; simpl.
  - by intros [= ->].
  - destruct (collapse_step dict_of cycle a) as [c1|] eqn:Hstep; [simpl|done].
    intros Hrest Hd. apply (IH c1); [done|].
    by eapply collapse_step_discarded.
Qed.
End collapse_more.




(** X8. The collapse pass does not change which objects reach which: for
    two members neither of which is the attribute table of a member, one
    reaches the other along the edges of the collapsed component if and
    only if it did before. *)
Theorem collapse_preserves_reachability (dict_of : ID → option ID)
    (cycle collapsed : list (ID * gset ID)) (X Y : ID) :
  collapse dict_of cycle = Some collapsed →
  ¬ is_store dict_of cycle X → ¬ is_store dict_of cycle Y →
  reaches cycle X Y ↔ reaches collapsed X Y.
Proof.
  intros Hcol HX HY.
  apply (collapse_steps_reaches dict_of (keys cycle)); [done|].
  intros a Ha. split; intros Hd; [apply HX|apply HY]; by exists a.
Qed.

Lemma collapse_preserves_reachability_witness :
  reaches attr_cycle_ex 1%Z 3%Z ↔ reaches attr_collapsed_ex 1%Z 3%Z.
Proof.
  apply (collapse_preserves_reachability dict_of_ex).
  - vm_compute. reflexivity.
  - intros (a & _ & Hd). unfold dict_of_ex in Hd. by case_decide.
  - intros (a & _ & Hd). unfold dict_of_ex in Hd. by case_decide.
Defined.

Lemma keys_prune_iter (n : nat) (cycle : list (ID * gset ID)) (x : ID) :
  x ∈ keys (Nat.iter n prune_pass cycle) → x ∈ keys cycle.
Proof.
  induction n as [|n IH]; [done|]. simpl. unfold prune_pass at 1.
  rewrite keys_prune_round. intros [_ Hx]%list_elem_of_filter. by apply IH.
Qed.

(** X9. An attribute table that has been collapsed into its owner is gone
    from the simplified component: when the collapse pass ends it has no
    edges and no member refers to it, and pruning removes it. *)
Theorem collapsed_store_is_pruned (dict_of : ID → option ID)
    (cycle visited collapsed pruned : list (ID * gset ID))
    (before after : list ID) (A S : ID) (own : gset ID) :
  NoDup (keys cycle) →
  keys cycle = before ++ A :: after →
  foldM (collapse_step dict_of) cycle before = Some visited →
  dict_of A = Some S → get visited A = Some own → S ∈ own →
  (∀ other refs, (other, refs) ∈ visited → other ≠ A → S ∉ refs) →
  collapse dict_of cycle = Some collapsed →
  prune collapsed = Some pruned →
  get collapsed S = Some ∅
  ∧ (∀ k vs, get collapsed k = Some vs → S ∉ vs)
  ∧ S ∉ keys pruned.
Proof.
  intros Hnd Hkeys Hvisited HS Hown HSown Hothers Hcol Hprune.
  unfold collapse in Hcol. rewrite Hkeys, foldM_app, Hvisited in Hcol.
  simpl in Hcol.
  destruct (collapse_step dict_of visited A) as [c2|] eqn:Hstep; [|done].
  simpl in Hcol.
  assert (discarded S c2) as Hd2.
  { unfold collapse_step in Hstep. rewrite HS, Hown in Hstep. simpl in Hstep.
    rewrite bool_decide_eq_true_2 in Hstep by done.
    rewrite (proj2 (referenced_elsewhere_false visited A S) Hothers) in Hstep.
    simpl in Hstep.
    destruct (get visited S) as [theirs|] eqn:Htheirs; [|done].
    simpl in Hstep. injection Hstep as <-.
    assert (Hget : ∀ k vs, get visited k = Some vs → k ≠ A → S ∉ vs).
    { intros k vs Hk. apply Hothers. by apply get_Some_elem. }
    split; [by rewrite get_set_eq|].
    intros k vs. rewrite !get_set. repeat case_decide.
    - intros [= <-]. apply not_elem_of_empty.
    - intros [= <-]. apply not_elem_of_union.
      split; [by apply (Hget S theirs Htheirs); congruence|set_solver].
    - intros Hk. by apply (Hget k vs Hk). }
  pose proof (collapse_steps_discarded dict_of _ _ _ S Hcol Hd2) as [Hempty Hnone].
  split_and!; [done|done|].
  assert (NoDup (keys collapsed)) as Hnd'.
  { rewrite (collapse_steps_keys dict_of _ _ _ Hcol).
    rewrite (collapse_step_keys dict_of _ _ _ Hstep).
    by rewrite (collapse_steps_keys dict_of _ _ _ Hvisited). }
  assert (S ∈ empty_items collapsed) as HSe
    by by apply elem_of_empty_items, get_Some_elem.
  destruct (prune_iterates _ _ Hprune) as ([|n] & -> & Hfix).
  - simpl in Hfix. rewrite Hfix in HSe. by apply not_elem_of_empty in HSe.
  - rewrite Nat.iter_succ_r. intros Hin%keys_prune_iter.
    unfold prune_pass in Hin. rewrite keys_prune_round in Hin.
    by apply list_elem_of_filter in Hin as [Hin _].
Qed.

Lemma collapsed_store_is_pruned_witness :
  get attr_collapsed_ex 2%Z = Some ∅
  ∧ (∀ k vs, get attr_collapsed_ex k = Some vs → 2%Z ∉ vs)
  ∧ 2%Z ∉ keys simplified_ex.
Proof.
  apply (collapsed_store_is_pruned dict_of_ex attr_cycle_ex attr_cycle_ex
           attr_collapsed_ex simplified_ex [] [2; 3]%Z 1%Z 2%Z {[2%Z]}).
  - apply (bool_decide_unpack _). vm_compute. exact I.
  - reflexivity.
  - reflexivity.
  - reflexivity.
  - reflexivity.
  - set_solver.
  - intros other refs Hin Hne. unfold attr_cycle_ex in Hin.
    repeat (apply elem_of_cons in Hin as [Hin|Hin]; simplify_eq);
      [set_solver..|by apply elem_of_nil in Hin].
  - vm_compute. reflexivity.
  - vm_compute. reflexivity.
Defined.

(** ** Further properties of the display names *)

Lemma length_append (a b : string) :
  String.length (a +:+ b) = String.length a + String.length b.
Proof. induction a as [|c a IH]; simpl; [done|by rewrite IH]. Qed.

Lemma append_inj_width (a a' b b' : string) :
  String.length a = String.length a' → a +:+ b = a' +:+ b' → a = a' ∧ b = b'.
Proof.
  revert a'. induction a as [|c a IH]; intros [|c' a'] Hlen Heq;
    simpl in *; try done.
  injection Heq as -> Heq. destruct (IH a') as [-> ->]; [lia|done|done].
Qed.

Lemma pairs_distinct (names : list string) (w : nat) :
  NoDup names → Forall (λ s, String.length s = w) names →
  NoDup (pairs names) ∧ Forall (λ s, String.length s = w + w) (pairs names).
Proof.
  intros Hnd Hw. rewrite Forall_forall in Hw. split.
  - apply NoDup_bind; [|intros a _; apply NoDup_fmap_2; [|done]|done].
    + intros a a' y Ha Ha' (b & -> & Hb)%list_elem_of_fmap
        (b' & Heq & Hb')%list_elem_of_fmap.
      apply append_inj_width in Heq as [? _]; [done|].
      by rewrite (Hw a), (Hw a').
    + intros b b' Heq. by apply append_inj_width in Heq as [_ ?].
  - apply Forall_forall. intros y (a & (b & -> & Hb)%list_elem_of_fmap & Ha)
      %list_elem_of_bind.
    by rewrite length_append, (Hw a), (Hw b).
Qed.

Lemma iter_pairs_distinct (j : nat) :
  NoDup (Nat.iter j pairs letters)
  ∧ Forall (λ s, String.length s = 2 ^ j) (Nat.iter j pairs letters).
Proof.
  induction j as [|j [IH1 IH2]].
  - split; [|by repeat constructor].
    apply (bool_decide_unpack _). vm_compute. exact I.
  - simpl Nat.iter. destruct (pairs_distinct _ _ IH1 IH2) as [H1 H2].
    split; [done|]. eapply Forall_impl; [exact H2|].
    intros s ->. simpl. lia.
Qed.

(** X10. The names given to the members of a component are pairwise
    distinct and all of the same width, and the binding table built from
    them is the name assignment read backwards: a name is bound to an object
    exactly when that object was given that name.  So every member of the
    selected component can be addressed by its name, and by no other. *)
Theorem list_locals_round_trip (cs : list (nat * list (ID * gset ID)))
    (sel : nat) (v : nat * list (ID * gset ID)) :
  cs !! sel = Some v → NoDup (keys v.2) →
  ∃ vm bindings w,
    varmap v.2 = Some vm
    ∧ list_locals cs sel = Some bindings
    ∧ keys vm = keys v.2
    ∧ NoDup (keys bindings)
    ∧ Forall (λ name, String.length name = w) (keys bindings)
    ∧ ∀ key name, get vm key = Some name ↔ get bindings name = Some key.
Proof.
  intros Hsel Hnd.
  destruct (varnames_spec (length v.2)) as (j & Hnames & Hle & _).
  destruct (iter_pairs_distinct j) as [Hdistinct Hwidth].
  set (names := Nat.iter j pairs letters) in *.
  assert (Hlen : length (keys v.2) ≤ length names).
  { unfold keys, names. by rewrite length_fmap, length_iter_pairs. }
  assert (Hvm : varmap v.2 = Some (zip (keys v.2) names)).
  { unfold varmap. rewrite Hnames. simpl. f_equal. unfold zip_names.
    apply (dict_of_pairs _ []). simpl. unfold keys at 1. by rewrite fst_zip. }
  set (vm := zip (keys v.2) names) in *.
  set (used := take (length (keys v.2)) names).
  assert (Hsnd : vm.*2 = used).
  { unfold vm, used. rewrite <-(zip_with_take_r _ (keys v.2) names).
    apply snd_zip. rewrite length_take. lia. }
  assert (Hused : NoDup used)
    by (eapply sublist_NoDup; [exact Hdistinct|apply sublist_take]).
  assert (Hkb : keys ((λ kv : ID * string, (kv.2, kv.1)) <$> vm) = used).
  { unfold keys. rewrite <-Hsnd, <-list_fmap_compose. by apply list_fmap_ext. }
  assert (Hb : foldl (λ d kv, set d kv.2 kv.1) [] vm
               = (λ kv : ID * string, (kv.2, kv.1)) <$> vm).
  { trans (foldl (λ d (p : string * ID), set d p.1 p.2) []
             ((λ kv : ID * string, (kv.2, kv.1)) <$> vm));
      [by rewrite foldl_fmap|].
    apply (dict_of_pairs _ []). simpl. by rewrite Hkb. }
  exists vm, ((λ kv : ID * string, (kv.2, kv.1)) <$> vm), (2 ^ j).
  assert (Hkv : keys vm = keys v.2) by (unfold keys at 1; by apply fst_zip).
  split_and!; [done| |done| | |].
  - unfold list_locals. rewrite Hsel. simpl. rewrite Hvm. simpl. by rewrite Hb.
  - by rewrite Hkb.
  - rewrite Hkb. by apply Forall_take.
  - intros key name. split.
    + intros Hin%get_Some_elem. apply elem_get; [by rewrite Hkb|].
      apply list_elem_of_fmap. by exists (key, name).
    + intros ([k n] & [= -> ->] & Hin)%get_Some_elem%list_elem_of_fmap.
      apply elem_get; [by rewrite Hkv|done].
Qed.

Lemma list_locals_round_trip_witness :
  ∃ vm bindings w,
    varmap attr_cycle_ex = Some vm
    ∧ list_locals [(0, attr_cycle_ex)] 0 = Some bindings
    ∧ keys vm = keys attr_cycle_ex
    ∧ NoDup (keys bindings)
    ∧ Forall (λ name, String.length name = w) (keys bindings)
    ∧ ∀ key name, get vm key = Some name ↔ get bindings name = Some key.
Proof.
  apply (list_locals_round_trip [(0, attr_cycle_ex)] 0 (0, attr_cycle_ex)).
  - reflexivity.
  - apply (bool_decide_unpack _). vm_compute. exact I.
Defined.

(** ** Further properties of the traceback command *)

Lemma cut_at_file_Some (file : string) (tb pre : list frame) :
  cut_at_file file tb = Some pre →
  ∃ f rest, tb = pre ++ f :: rest ∧ f.1 = file
            ∧ Forall (λ g : frame, g.1 ≠ file) pre.
Proof.
  revert pre. induction tb as [|f tb IH]; intros pre; simpl; [done|].
  case_decide as Hf.
  - intros [= <-]. by exists f, tb.
  - destruct (cut_at_file file tb) as [pre'|]; [simpl|done].
    intros [= <-]. destruct (IH pre' eq_refl) as (g & rest & -> & Hg & Hpre).
    exists g, rest. split_and!; [done|done|by constructor].
Qed.

Lemma cut_at_file_prefix (file : string) (pre rest : list frame) (f : frame) :
  f.1 = file → Forall (λ g : frame, g.1 ≠ file) pre →
  cut_at_file file (pre ++ f :: rest) = Some pre.
Proof.
  intros Hf. induction 1 as [|p pre Hp _ IH]; simpl.
  - by rewrite decide_True.
  - by rewrite decide_False, IH.
Qed.

Lemma cut_at_file_None (file : string) (tb : list frame) :
  cut_at_file file tb = None ↔ Forall (λ g : frame, g.1 ≠ file) tb.
Proof.
  induction tb as [|f tb IH]; simpl; [done|].
  case_decide as Hf.
  - split; [done|]. by intros [? _]%Forall_cons_1.
  - rewrite Forall_cons, <-IH.
    destruct (cut_at_file file tb); simpl; naive_solver.
Qed.

(** ** The order of the frames *)

Lemma oldest_suffix (c tb : list frame) :
  oldest (length c) tb = c ↔ c `suffix_of` tb.
Proof.
  unfold oldest. split.
  - intros <-. apply suffix_drop.
  - intros [k ->]. rewrite length_app.
    replace (length k + length c - length c) with (length k) by lia.
    by rewrite drop_app_length.
Qed.

Lemma elem_of_complete_of (get_object_traceback : ID → option (list frame))
    (file : string) (objs : list ID) (pre : list frame) :
  pre ∈ complete_of get_object_traceback file objs
  ↔ ∃ obj f rest,
      obj ∈ objs ∧ get_object_traceback obj = Some (pre ++ f :: rest)
      ∧ f.1 = file ∧ Forall (λ g : frame, g.1 ≠ file) pre.
Proof.
  unfold complete_of. rewrite list_elem_of_omap. split.
  - intros (obj & Hobj & Hpre).
    destruct (get_object_traceback obj) as [tb|] eqn:Htb; [simpl in Hpre|done].
    apply cut_at_file_Some in Hpre as (f & rest & -> & Hf & Hpre).
    by exists obj, f, rest.
  - intros (obj & f & rest & Hobj & Htb & Hf & Hpre).
    exists obj. split; [done|]. rewrite Htb. simpl.
    by apply cut_at_file_prefix.
Qed.

(** C4 as stated fails.  For the call chains [f1 → f2 → f3] and
    [f0 → f2 → f3] with [f3] innermost, the frames arrive most recent first
    and are cut to [[f3; f2; f1]] and [[f3; f2; f0]]; the innermost frames
    they share are [f3] and [f2], yet the command prints an empty traceback:
    it compares the other end of the lists. *)
Lemma traceback_reports_no_innermost_frames :
  complete_of tracebacks_innermost_ex "scavenge.py" [1; 2]%Z
    = [[("m.py", 3); ("m.py", 2); ("m.py", 1)];
       [("m.py", 3); ("m.py", 2); ("m.py", 0)]]
  ∧ common_innermost
      (complete_of tracebacks_innermost_ex "scavenge.py" [1; 2]%Z)
      [("m.py", 3); ("m.py", 2)]
  ∧ do_traceback tracebacks_innermost_ex "scavenge.py" [] session_ex
    = ([PrintTraceback []], session_ex)
  ∧ ¬ common_innermost
        (complete_of tracebacks_innermost_ex "scavenge.py" [1; 2]%Z) [].
Proof.
  assert (Hc : complete_of tracebacks_innermost_ex "scavenge.py" [1; 2]%Z
    = [[("m.py", 3); ("m.py", 2); ("m.py", 1)];
       [("m.py", 3); ("m.py", 2); ("m.py", 0)]]) by reflexivity.
  assert (Hin : common_innermost
      (complete_of tracebacks_innermost_ex "scavenge.py" [1; 2]%Z)
      [("m.py", 3); ("m.py", 2)]).
  { rewrite Hc. split.
    - intros tb Htb.
      apply elem_of_cons in Htb as [->|Htb%list_elem_of_singleton];
        [done|by subst].
    - intros c Hall.
      pose proof (Hall [("m.py", 3); ("m.py", 2); ("m.py", 1)]) as H1.
      pose proof (Hall [("m.py", 3); ("m.py", 2); ("m.py", 0)]) as H0.
      specialize (H1 ltac:(left)). specialize (H0 ltac:(right; left)).
      destruct c as [|a [|b [|d c]]]; simpl; [lia|lia|lia|].
      exfalso. unfold most_recent in H1, H0. simpl in H1, H0.
      congruence. }
  split_and!; [done|done|reflexivity|].
  intros [_ Hmax]. destruct Hin as [Hall _].
  specialize (Hmax _ Hall). simpl in Hmax. lia.
Qed.

(** C4, amended.  When at least one of the tracebacks has a frame of this
    file, [do_traceback] prints the longest run of oldest frames that the
    complete tracebacks share.  A traceback is complete when it has a frame
    of this file and is kept up to the first such frame; the frames come
    most recent first, so that the end of the kept part is its oldest end.
    The printed frames are the oldest frames of every kept part, and every
    list that is the oldest frames of all the kept parts is the oldest
    frames of the printed one; the tracebacks without a frame of this file
    play no part.  For the kept parts [[f1; f2; f3]] and [[f0; f2; f3]] with
    [f0 ≠ f1], the first frame the most recent, it is [[f2; f3]].  The
    session is left as it was. *)
Theorem do_traceback_common_oldest
    (get_object_traceback : ID → option (list frame)) (file : string)
    (names : list string) (s : session) (objs : list ID) :
  mapM id (lookup_objects s names) = Some objs →
  (∃ obj tb f, obj ∈ objs ∧ get_object_traceback obj = Some tb
               ∧ f ∈ tb ∧ f.1 = file) →
  ∃ common,
    do_traceback get_object_traceback file names s
      = ([PrintTraceback common], s)
    ∧ (∀ obj pre f rest,
         obj ∈ objs → get_object_traceback obj = Some (pre ++ f :: rest) →
         f.1 = file → Forall (λ g : frame, g.1 ≠ file) pre →
         oldest (length common) pre = common)
    ∧ (∀ c, (∀ obj pre f rest,
               obj ∈ objs →
               get_object_traceback obj = Some (pre ++ f :: rest) →
               f.1 = file → Forall (λ g : frame, g.1 ≠ file) pre →
               oldest (length c) pre = c) →
            oldest (length c) common = c)
    ∧ (∀ f0 f1 f2 f3 t1 t0 rest1 rest0,
         f0 ≠ f1 → t1.1 = file → t0.1 = file →
         Forall (λ g : frame, g.1 ≠ file) [f0; f1; f2; f3] →
         get_object_traceback <$> objs
           = [Some ([f1; f2; f3] ++ t1 :: rest1);
              Some ([f0; f2; f3] ++ t0 :: rest0)] →
         common = [f2; f3]).
Proof.
  intros Hobjs (obj0 & tb0 & f0 & Hobj0 & Htb0 & Hf0 & Hfile0).
  unfold do_traceback. rewrite Hobjs, classify_spec. simpl.
  assert (Hne : complete_of get_object_traceback file objs ≠ []).
  { destruct (cut_at_file file tb0) as [pre0|] eqn:Hcut.
    - intros Hnil. assert (pre0 ∈ complete_of get_object_traceback file objs)
        as Hin; [|rewrite Hnil in Hin; by apply elem_of_nil in Hin].
      unfold complete_of. apply list_elem_of_omap. exists obj0.
      split; [done|]. by rewrite Htb0.
    - exfalso. apply cut_at_file_None in Hcut.
      by apply (proj1 (Forall_forall _ _) Hcut f0 Hf0). }
  pose proof (elem_of_complete_of get_object_traceback file objs) as Hmem.
  destruct (complete_of get_object_traceback file objs)
    as [|first rest] eqn:Hc; [done|].
  set (complete := first :: rest) in *.
  exists (trim complete (shortest first rest)).
  assert (Hsuf : ∀ obj pre f rest',
            obj ∈ objs → get_object_traceback obj = Some (pre ++ f :: rest') →
            f.1 = file → Forall (λ g : frame, g.1 ≠ file) pre →
            oldest (length (trim complete (shortest first rest))) pre
            = trim complete (shortest first rest)).
  { intros obj pre f rest' Hobj Htb Hf Hpre.
    apply oldest_suffix, trim_agrees, Hmem. by exists obj, f, rest'. }
  assert (Hmax : ∀ c, (∀ obj pre f rest',
               obj ∈ objs →
               get_object_traceback obj = Some (pre ++ f :: rest') →
               f.1 = file → Forall (λ g : frame, g.1 ≠ file) pre →
               oldest (length c) pre = c) →
            oldest (length c) (trim complete (shortest first rest)) = c).
  { intros c Hall.
    assert (∀ tb, tb ∈ complete → c `suffix_of` tb) as Hall'.
    { intros tb (obj & f & rest' & Hobj & Htb & Hf & Hpre)%Hmem.
      apply oldest_suffix. by eapply Hall. }
    apply oldest_suffix, trim_longest; [|done].
    apply Hall', shortest_elem. }
  split; [done|].
  generalize dependent (trim complete (shortest first rest)).
  intros common Hsuf Hmax. clear Hmem.
  split_and!; [done|done|].
  intros g0 g1 g2 g3 t1 t0 rest1 rest0 Hg Ht1 Ht0 Hfs Hraw.
  destruct objs as [|o1 [|o2 [|o3 objs]]]; simpl in Hraw; try discriminate Hraw.
  injection Hraw as Hraw1 Hraw0.
  apply Forall_cons_1 in Hfs as [Hg0 Hfs].
  apply Forall_cons_1 in Hfs as [Hg1 Hfs].
  assert (H23 : [g2; g3] `suffix_of` common).
  { apply oldest_suffix, (Hmax [g2; g3]).
    intros obj pre f rest' Hobj Htb Hf Hpre. apply oldest_suffix.
    assert (pre = [g1; g2; g3] ∨ pre = [g0; g2; g3]) as [-> | ->].
    { assert (cut_at_file file (pre ++ f :: rest') = Some pre) as Hcut
        by (by apply cut_at_file_prefix).
      apply elem_of_cons in Hobj as [->|Hobj%list_elem_of_singleton].
      - left. rewrite Htb in Hraw1. injection Hraw1 as Hraw1.
        pose proof (cut_at_file_prefix file [g1; g2; g3] rest1 t1 Ht1)
          as Hcut1.
        change ([g1; g2; g3] ++ t1 :: rest1)
          with (g1 :: g2 :: g3 :: t1 :: rest1) in Hcut1.
        rewrite <-Hraw1, Hcut in Hcut1.
        apply (inj Some), Hcut1. by constructor.
      - right. subst obj. rewrite Htb in Hraw0. injection Hraw0 as Hraw0.
        pose proof (cut_at_file_prefix file [g0; g2; g3] rest0 t0 Ht0)
          as Hcut0.
        change ([g0; g2; g3] ++ t0 :: rest0)
          with (g0 :: g2 :: g3 :: t0 :: rest0) in Hcut0.
        rewrite <-Hraw0, Hcut in Hcut0.
        apply (inj Some), Hcut0. by constructor. }
    - by exists [g1].
    - by exists [g0]. }
  assert (H1 : common `suffix_of` [g1; g2; g3]).
  { apply oldest_suffix, (Hsuf o1 _ t1 rest1); [left|done|done|].
    by constructor. }
  assert (H0' : common `suffix_of` [g0; g2; g3]).
  { apply oldest_suffix, (Hsuf o2 _ t0 rest0); [right; left|done|done|].
    by constructor. }
  destruct H1 as [k1 E1]. destruct H0' as [k0 E0].
  destruct H23 as [k E]. rewrite E in E1, E0.
  destruct k as [|x [|y k]].
  - by rewrite E.
  - exfalso. simpl in *.
    apply (f_equal reverse) in E1, E0.
    rewrite !reverse_app in E1, E0. simpl in E1, E0.
    rewrite !reverse_cons in E1, E0. simpl in E1, E0.
    destruct (reverse k1) as [|? ?], (reverse k0) as [|? ?]; simplify_eq/=.
  - exfalso. apply (f_equal length) in E1. rewrite !length_app in E1.
    simpl in E1. lia.
Qed.

Lemma do_traceback_common_oldest_witness :
  ∃ common,
    do_traceback tracebacks_ex "scavenge.py" [] session_ex
      = ([PrintTraceback common], session_ex)
    ∧ (∀ obj pre f rest,
         obj ∈ [1; 2]%Z → tracebacks_ex obj = Some (pre ++ f :: rest) →
         f.1 = "scavenge.py" →
         Forall (λ g : frame, g.1 ≠ "scavenge.py") pre →
         oldest (length common) pre = common)
    ∧ (∀ c, (∀ obj pre f rest,
               obj ∈ [1; 2]%Z →
               tracebacks_ex obj = Some (pre ++ f :: rest) →
               f.1 = "scavenge.py" →
               Forall (λ g : frame, g.1 ≠ "scavenge.py") pre →
               oldest (length c) pre = c) →
            oldest (length c) common = c)
    ∧ (∀ f0 f1 f2 f3 t1 t0 rest1 rest0,
         f0 ≠ f1 → t1.1 = "scavenge.py" → t0.1 = "scavenge.py" →
         Forall (λ g : frame, g.1 ≠ "scavenge.py") [f0; f1; f2; f3] →
         tracebacks_ex <$> [1; 2]%Z
           = [Some ([f1; f2; f3] ++ t1 :: rest1);
              Some ([f0; f2; f3] ++ t0 :: rest0)] →
         common = [f2; f3]).
Proof.
  apply (do_traceback_common_oldest tracebacks_ex "scavenge.py" [] session_ex
           [1; 2]%Z).
  - reflexivity.
  - exists 1%Z,
      [("m.py", 1); ("m.py", 2); ("m.py", 3); ("scavenge.py", 185)],
      ("scavenge.py", 185).
    split_and!; [left|reflexivity| |reflexivity].
    do 3 right. left.
Defined.

(** X11. A traceback is classified as complete exactly when it has a frame
    of this file; what is kept of it is the part before the first such
    frame, which therefore has no frame of this file. *)
Theorem cut_at_file_spec (file : string) (tb : list frame) :
  (∀ pre, cut_at_file file tb = Some pre
          ↔ ∃ f rest, tb = pre ++ f :: rest ∧ f.1 = file
                      ∧ Forall (λ g : frame, g.1 ≠ file) pre)
  ∧ (cut_at_file file tb = None ↔ Forall (λ g : frame, g.1 ≠ file) tb).
Proof.
  split; [|apply cut_at_file_None].
  intros pre. split; [apply cut_at_file_Some|].
  intros (f & rest & -> & Hf & Hpre). by apply cut_at_file_prefix.
Qed.

Lemma mapM_id_Permutation {A : Type} (l l' : list (option A)) (k : list A) :
  l ≡ₚ l' → mapM id l = Some k → ∃ k', mapM id l' = Some k' ∧ k ≡ₚ k'.
Proof.
  intros Hp. revert k.
  induction Hp as [|x l l' _ IH|x y l|l l' l'' _ IH1 _ IH2]; intros k; simpl.
  - intros [= <-]. by exists [].
  - destruct x as [a|]; [simpl|done].
    destruct (mapM id l) as [k0|]; [simpl|done].
    intros [= <-]. destruct (IH k0 eq_refl) as (k' & -> & Hk). simpl.
    exists (a :: k'). split; [done|]. by constructor.
  - destruct x as [a|], y as [b|]; simpl; try done.
    destruct (mapM id l) as [k0|]; [simpl|done].
    intros [= <-]. exists (a :: b :: k0). split; [done|]. apply Permutation_swap.
  - intros Hk. destruct (IH1 k Hk) as (k1 & Hk1 & Hp1).
    destruct (IH2 k1 Hk1) as (k2 & Hk2 & Hp2).
    exists k2. split; [done|]. by etrans.
Qed.

Lemma report_Permutation (complete complete' incomplete incomplete'
    : list (list frame)) :
  complete ≡ₚ complete' → incomplete ≡ₚ incomplete' →
  report complete incomplete = report complete' incomplete'.
Proof.
  intros Hc Hi. unfold report.
  destruct complete as [|first rest], complete' as [|first' rest'].
  - rewrite (Permutation_length Hi).
    case_decide; [done|].
    destruct incomplete as [|tb [|tb2 inc]].
    + apply Permutation_nil_l in Hi. by subst.
    + apply Permutation_singleton_l in Hi. by subst.
    + apply Permutation_length in Hi. simpl in *. lia.
  - by apply Permutation_nil_cons in Hc.
  - symmetry in Hc. by apply Permutation_nil_cons in Hc.
  - f_equal. f_equal.
    set (c := first :: rest) in *. set (c' := first' :: rest') in *.
    assert (Hin : ∀ tb, tb ∈ c ↔ tb ∈ c') by (intros tb; by rewrite Hc).
    assert (trim c (shortest first rest)
              `suffix_of` trim c' (shortest first' rest')) as H1.
    { apply trim_longest.
      - apply trim_agrees, Hin, shortest_elem.
      - intros tb Htb%Hin. by apply trim_agrees. }
    assert (trim c' (shortest first' rest')
              `suffix_of` trim c (shortest first rest)) as H2.
    { apply trim_longest.
      - apply trim_agrees, Hin, shortest_elem.
      - intros tb Htb%Hin. by apply trim_agrees. }
    apply suffix_length_eq; [done|]. by apply suffix_length.
Qed.

(** X12. What the traceback command prints does not depend on the order in
    which the names are given: for names that are all bound, any
    rearrangement of them gives the same report. *)
Theorem do_traceback_order_independent
    (get_object_traceback : ID → option (list frame)) (file : string)
    (names names' : list string) (s : session) (objs : list ID) :
  mapM id (lookup_objects s names) = Some objs →
  names ≡ₚ names' →
  do_traceback get_object_traceback file names' s
  = do_traceback get_object_traceback file names s.
Proof.
  intros Hobjs Hp.
  assert (lookup_objects s names ≡ₚ lookup_objects s names') as Hl.
  { unfold lookup_objects. destruct names as [|n names].
    - apply Permutation_nil_l in Hp. by subst.
    - destruct names' as [|n' names'];
        [symmetry in Hp; by apply Permutation_nil_cons in Hp|].
      by rewrite Hp. }
  destruct (mapM_id_Permutation _ _ _ Hl Hobjs) as (objs' & Hobjs' & Hperm).
  unfold do_traceback. rewrite Hobjs, Hobjs', !classify_spec. simpl.
  f_equal. apply report_Permutation.
  - unfold complete_of. by rewrite Hperm.
  - unfold incomplete_of. by rewrite Hperm.
Qed.

Lemma do_traceback_order_independent_witness :
  do_traceback tracebacks_ex "scavenge.py" ["b"; "a"] session_ex
  = do_traceback tracebacks_ex "scavenge.py" ["a"; "b"] session_ex.
Proof.
  apply (do_traceback_order_independent tracebacks_ex "scavenge.py"
           ["a"; "b"] ["b"; "a"] session_ex [1; 2]%Z).
  - reflexivity.
  - apply Permutation_swap.
Defined.

Lemma report_not_invalid (complete incomplete : list (list frame)) names :
  PrintInvalidArgument names ∉ report complete incomplete.
Proof.
  unfold report. destruct complete as [|first rest].
  - case_decide; [|destruct incomplete]; intros Hin;
      repeat (apply elem_of_cons in Hin as [Hin|Hin]; [done|]);
      by apply elem_of_nil in Hin.
  - intros [?|?%elem_of_nil]%elem_of_cons; done.
Qed.

(** X13. A name that is not bound makes the traceback command report an
    invalid argument: if one of the given names is not in the binding
    table, the command prints the invalid-argument message and nothing
    else, whatever tracebacks the objects of the other names have, and
    leaves the session as it was.  Whenever that message is printed, it is
    all that is printed. *)
Theorem do_traceback_unbound_name
    (get_object_traceback : ID → option (list frame)) (file : string)
    (names : list string) (s : session) :
  ((∃ name, name ∈ names ∧ get (locals s) name = None) →
   do_traceback get_object_traceback file names s
   = ([PrintInvalidArgument names], s))
  ∧ (PrintInvalidArgument names
       ∈ (do_traceback get_object_traceback file names s).1 →
     do_traceback get_object_traceback file names s
     = ([PrintInvalidArgument names], s)).
Proof.
  unfold do_traceback.
  destruct (mapM id (lookup_objects s names)) as [objs|] eqn:Hobjs; [|done].
  destruct (classify _ _ _ _ _) as [complete incomplete]. simpl.
  split.
  - intros (name & Hname & Hget). exfalso.
    assert (mapM id (lookup_objects s names) = None); [|congruence].
    apply mapM_None, Exists_exists. exists None. split; [|done].
    unfold lookup_objects. destruct names as [|n names];
      [by apply elem_of_nil in Hname|].
    apply list_elem_of_fmap. by exists name.
  - intros Hin. by apply report_not_invalid in Hin.
Qed.

Lemma do_traceback_unbound_name_witness :
  (∃ name, name ∈ ["a"; "zz"] ∧ get (locals session_ex) name = None)
  ∧ do_traceback tracebacks_ex "scavenge.py" ["a"; "zz"] session_ex
    = ([PrintInvalidArgument ["a"; "zz"]], session_ex).
Proof.
  assert (∃ name, name ∈ ["a"; "zz"] ∧ get (locals session_ex) name = None)
    as Hunbound by (exists "zz"; split; [right; left|reflexivity]).
  split; [exact Hunbound|].
  exact (proj1 (do_traceback_unbound_name tracebacks_ex "scavenge.py"
                  ["a"; "zz"] session_ex) Hunbound).
Defined.

(** X14. No traceback that the command prints contains a frame of this
    file. *)
Theorem do_traceback_hides_own_frames
    (get_object_traceback : ID → option (list frame)) (file : string)
    (names : list string) (s : session) (tb : list frame) :
  PrintTraceback tb ∈ (do_traceback get_object_traceback file names s).1 →
  Forall (λ g : frame, g.1 ≠ file) tb.
Proof.
  unfold do_traceback.
  destruct (mapM id (lookup_objects s names)) as [objs|]; simpl.
  - rewrite classify_spec. simpl.
    assert (Hc : ∀ pre, pre ∈ complete_of get_object_traceback file objs →
              Forall (λ g : frame, g.1 ≠ file) pre).
    { intros pre (obj & _ & Hpre)%list_elem_of_omap.
      destruct (get_object_traceback obj) as [t|]; [simpl in Hpre|done].
      apply cut_at_file_Some in Hpre as (f & rest & _ & _ & ?). done. }
    assert (Hi : ∀ t, t ∈ incomplete_of get_object_traceback file objs →
              Forall (λ g : frame, g.1 ≠ file) t).
    { intros t (obj & _ & Ht)%list_elem_of_omap.
      destruct (get_object_traceback obj) as [t'|]; [simpl in Ht|done].
      destruct (cut_at_file file t') eqn:Hcut; [done|].
      injection Ht as <-. by apply cut_at_file_None. }
    unfold report.
    destruct (complete_of get_object_traceback file objs) as [|first rest].
    + case_decide.
      * by intros [?|?%elem_of_nil]%elem_of_cons.
      * destruct (incomplete_of get_object_traceback file objs) as [|t inc].
        -- by intros [?|?%elem_of_nil]%elem_of_cons.
        -- intros [[= ->]|[?|?%elem_of_nil]%elem_of_cons]%elem_of_cons;
             [|done|done].
           apply Hi. left.
    + intros [[= ->]|?%elem_of_nil]%elem_of_cons; [|done].
      destruct (trim_suffix (first :: rest) (shortest first rest)) as [k Hk].
      assert (Forall (λ g : frame, g.1 ≠ file) (shortest first rest)) as Hs
        by apply Hc, shortest_elem.
      rewrite Hk in Hs. by apply Forall_app in Hs as [_ ?].
  - by intros [?|?%elem_of_nil]%elem_of_cons.
Qed.

Lemma do_traceback_hides_own_frames_witness :
  Forall (λ g : frame, g.1 ≠ "scavenge.py") [("m.py", 2); ("m.py", 3)].
Proof.
  apply (do_traceback_hides_own_frames tracebacks_ex "scavenge.py" []
           session_ex).
  vm_compute. left.
Defined.

(** ** Further properties of the reference describer *)

Lemma probe_mapping_Return (items : iteration (pykey * ID)) ref phrase :
  probe_mapping items ref = Return phrase →
  phrase ≠ ""
  ∧ ∃ kv, kv ∈ yielded items ∧ (kv.2 = ref ∨ key_id kv.1 = ref).
Proof.
  induction items as [|[key value] rest IH|]; simpl; [done| |done].
  repeat case_decide.
  - destruct (key_repr key) as [r|]; [|done]. intros [= <-].
    split; [done|]. exists (key, value). split; [left|by left].
  - intros [= <-]. split; [done|]. exists (key, value). split; [left|by right].
  - intros (? & kv & ? & ?)%IH. split; [done|]. exists kv. split; [by right|done].
Qed.

Lemma probe_sequence_Return (items : iteration ID) i ref phrase :
  probe_sequence i items ref = Return phrase →
  phrase ≠ "" ∧ ref ∈ yielded items.
Proof.
  revert i. induction items as [|value rest IH|]; intros i; simpl;
    [done| |done].
  case_decide.
  - intros [= <-]. subst. split; [done|left].
  - intros [? ?]%IH. split; [done|by right].
Qed.

Lemma probe_set_Return (items : iteration ID) ref phrase :
  probe_set items ref = Return phrase →
  phrase ≠ "" ∧ ref ∈ yielded items.
Proof.
  induction items as [|value rest IH|]; simpl; [done| |done].
  case_decide.
  - intros [= <-]. subst. split; [done|left].
  - intros [? ?]%IH. split; [done|by right].
Qed.

Lemma probe_attributes_Return (attrs : iteration (string * option ID))
    ref phrase :
  probe_attributes attrs ref = Return phrase →
  phrase ≠ "" ∧ ∃ attr, (attr, Some ref) ∈ yielded attrs.
Proof.
  induction attrs as [|[attr [value|]] rest IH|]; simpl; [done| |done|done].
  case_decide.
  - intros [= <-]. subst. split; [done|]. exists attr. left.
  - intros (? & a & ?)%IH. split; [done|]. exists a. by right.
Qed.

Lemma and_then_Return (o k : outcome) (phrase : string) :
  and_then o k = Return phrase → o = Return phrase ∨ k = Return phrase.
Proof. destruct o; simpl; [by left|by right|done]. Qed.

Lemma when_instance_Return {A : Type} (o : option A) (probe : A → outcome)
    (phrase : string) :
  when_instance o probe = Return phrase →
  ∃ a, o = Some a ∧ probe a = Return phrase.
Proof. destruct o as [a|]; simpl; [by exists a|done]. Qed.

(** X15. [fmtref] describes only references that are there: when it returns
    a phrase, the referent is a value or key of the owner's mapping entries,
    an element of its sequence, a member of its set or the value of one of
    its attributes; the phrase is not empty, so the caller shows this phrase
    and not the generic arrow. *)
Theorem fmtref_sound (obj : pyobject) (ref : ID) (phrase : string) :
  fmtref obj ref = Some phrase →
  held_by obj ref ∧ phrase ≠ "" ∧ describe obj ref = phrase.
Proof.
  unfold fmtref. destruct (fmtref_body obj ref) as [p| |] eqn:Hbody; [|done..].
  intros [= ->].
  assert (held_by obj ref ∧ phrase ≠ "") as [Hheld Hne].
  { unfold held_by. unfold fmtref_body in Hbody.
    apply and_then_Return in Hbody as [Hm|Hbody].
    { apply when_instance_Return in Hm as (m & Hm & Hp).
      apply probe_mapping_Return in Hp as (? & kv & ? & ?).
      split; [|done]. left. by exists m, kv. }
    apply and_then_Return in Hbody as [Hq|Hbody].
    { apply when_instance_Return in Hq as (q & Hq & Hp).
      apply probe_sequence_Return in Hp as [? ?].
      split; [|done]. right. left. by exists q. }
    apply and_then_Return in Hbody as [Ht|Hbody].
    { apply when_instance_Return in Ht as (t & Ht & Hp).
      apply probe_set_Return in Hp as [? ?].
      split; [|done]. right. right. left. by exists t. }
    apply probe_attributes_Return in Hbody as (? & a & ?).
    split; [|done]. right. right. right. by exists a. }
  split_and!; [done|done|].
  unfold describe, fmtref. rewrite Hbody. by rewrite decide_False.
Qed.

Lemma fmtref_sound_witness :
  held_by owner_sequence_ex 7%Z ∧ "{obj:}[1] is {ref:}" ≠ ""
  ∧ describe owner_sequence_ex 7%Z = "{obj:}[1] is {ref:}".
Proof.
  apply (fmtref_sound owner_sequence_ex 7%Z). reflexivity.
Defined.

(** ** Properties of the commands *)

Section commands_facts.
Variable set_iter : gset ID → list ID.
Variable obj_of : ID → pyobject.
Variable type_of : ID → string.
Variable format : string → string → string → option string.

Lemma list_run_state (s : session) :
  cycles (left_by (list_run set_iter obj_of type_of format s)) = cycles s
  ∧ selection (left_by (list_run set_iter obj_of type_of format s))
    = selection s.
Proof.
  unfold list_run. destruct (cycles s !! selection s) as [v|]; [|done].
  destruct (varmap v.2) as [vm|]; [|done].
  by destruct (show_members _ _ _ _ _ _ _ _) as [[[]|] out].
Qed.

Lemma do_next_state (arg : string) (s : session) :
  selection s < length (cycles s) →
  cycles (left_by (do_next set_iter obj_of type_of format arg s)) = cycles s
  ∧ selection (left_by (do_next set_iter obj_of type_of format arg s))
    = if decide (selection s + 1 = length (cycles s)) then 0
      else selection s + 1.
Proof.
  intros Hsel. unfold do_next. rewrite decide_False by lia. simpl.
  destruct (list_run_state (Session (cycles s)
              ((selection s + 1) mod length (cycles s)) (locals s)))
    as [-> ->]. simpl. split; [done|].
  case_decide as Hlast.
  - rewrite Hlast. apply Nat.Div0.mod_same.
  - apply Nat.mod_small. lia.
Qed.

Lemma do_previous_state (arg : string) (s : session) :
  selection s < length (cycles s) →
  cycles (left_by (do_previous set_iter obj_of type_of format arg s))
    = cycles s
  ∧ selection (left_by (do_previous set_iter obj_of type_of format arg s))
    = if decide (selection s = 0) then length (cycles s) - 1
      else selection s - 1.
Proof.
  intros Hsel. unfold do_previous. rewrite decide_False by lia. simpl.
  destruct (list_run_state (Session (cycles s)
              (Z.to_nat ((Z.of_nat (selection s) - 1)
                         `mod` Z.of_nat (length (cycles s)))) (locals s)))
    as [-> ->]. simpl. split; [done|].
  case_decide as Hfirst.
  - rewrite Hfirst. change (Z.of_nat 0 - 1)%Z with (-1)%Z.
    replace (-1)%Z with ((Z.of_nat (length (cycles s)) - 1)
                            + -1 * Z.of_nat (length (cycles s)))%Z by lia.
    rewrite Z_mod_plus_full, Z.mod_small by lia. lia.
  - rewrite Z.mod_small by lia. lia.
Qed.
End commands_facts.

(** X16. With a selection inside the ranking, [next] moves the selection
    one place on and from the last place to the first, [previous] one place
    back and from the first place to the last; neither changes the ranking.
    This holds whether or not the listing that follows raises. *)
Theorem selection_wraps (set_iter : gset ID → list ID)
    (obj_of : ID → pyobject) (type_of : ID → string)
    (format : string → string → string → option string)
    (arg : string) (s : session) :
  selection s < length (cycles s) →
  (cycles (left_by (do_next set_iter obj_of type_of format arg s)) = cycles s
   ∧ selection (left_by (do_next set_iter obj_of type_of format arg s))
     = if decide (selection s + 1 = length (cycles s)) then 0
       else selection s + 1)
  ∧ (cycles (left_by (do_previous set_iter obj_of type_of format arg s))
       = cycles s
     ∧ selection (left_by (do_previous set_iter obj_of type_of format arg s))
       = if decide (selection s = 0) then length (cycles s) - 1
         else selection s - 1).
Proof.
  intros Hsel. split; [by apply do_next_state|by apply do_previous_state].
Qed.

Lemma selection_wraps_witness :
  (cycles (left_by (do_next elements (λ _, owner_sequence_ex) (λ _, "object")
                      format_failing "" session_three_ex))
     = cycles session_three_ex
   ∧ selection (left_by (do_next elements (λ _, owner_sequence_ex)
                           (λ _, "object") format_failing ""
                           session_three_ex))
     = if decide (selection session_three_ex + 1
                  = length (cycles session_three_ex)) then 0
       else selection session_three_ex + 1)
  ∧ (cycles (left_by (do_previous elements (λ _, owner_sequence_ex)
                        (λ _, "object") format_failing "" session_three_ex))
       = cycles session_three_ex
     ∧ selection (left_by (do_previous elements (λ _, owner_sequence_ex)
                             (λ _, "object") format_failing ""
                             session_three_ex))
       = if decide (selection session_three_ex = 0)
         then length (cycles session_three_ex) - 1
         else selection session_three_ex - 1).
Proof.
  apply (selection_wraps elements (λ _, owner_sequence_ex) (λ _, "object")
           format_failing "" session_three_ex).
  simpl. lia.
Defined.

(** X17. [previous] undoes [next] and [next] undoes [previous]: after the
    two commands the selection and the ranking are what they were. *)
Theorem next_previous_inverse (set_iter : gset ID → list ID)
    (obj_of : ID → pyobject) (type_of : ID → string)
    (format : string → string → string → option string)
    (arg arg' : string) (s : session) :
  selection s < length (cycles s) →
  let after_next := left_by (do_next set_iter obj_of type_of format arg s) in
  let after_previous :=
    left_by (do_previous set_iter obj_of type_of format arg s) in
  selection (left_by (do_previous set_iter obj_of type_of format arg'
                        after_next)) = selection s
  ∧ cycles (left_by (do_previous set_iter obj_of type_of format arg'
                       after_next)) = cycles s
  ∧ selection (left_by (do_next set_iter obj_of type_of format arg'
                          after_previous)) = selection s
  ∧ cycles (left_by (do_next set_iter obj_of type_of format arg'
                       after_previous)) = cycles s.
Proof.
  intros Hsel. simpl.
  destruct (do_next_state set_iter obj_of type_of format arg s Hsel)
    as [Hc1 Hs1].
  destruct (do_previous_state set_iter obj_of type_of format arg s Hsel)
    as [Hc2 Hs2].
  destruct (do_previous_state set_iter obj_of type_of format arg'
              (left_by (do_next set_iter obj_of type_of format arg s)))
    as [Hc3 Hs3].
  { rewrite Hc1, Hs1. clear -Hsel. case_decide; lia. }
  destruct (do_next_state set_iter obj_of type_of format arg'
              (left_by (do_previous set_iter obj_of type_of format arg s)))
    as [Hc4 Hs4].
  { rewrite Hc2, Hs2. clear -Hsel. case_decide; lia. }
  rewrite Hs3, Hc3, Hs4, Hc4, Hs1, Hc1, Hs2, Hc2. clear -Hsel.
  split_and!; [|done| |done]; repeat case_decide; lia.
Qed.

Lemma next_previous_inverse_witness :
  selection session_three_ex < length (cycles session_three_ex)
  ∧ selection (left_by (do_previous elements (λ _, owner_sequence_ex)
                 (λ _, "object") format_plain ""
                 (left_by (do_next elements (λ _, owner_sequence_ex)
                          (λ _, "object") format_plain "" session_three_ex))))
    = selection session_three_ex
  ∧ cycles (left_by (do_previous elements (λ _, owner_sequence_ex)
              (λ _, "object") format_plain ""
              (left_by (do_next elements (λ _, owner_sequence_ex)
                          (λ _, "object") format_plain "" session_three_ex))))
    = cycles session_three_ex
  ∧ selection (left_by (do_next elements (λ _, owner_sequence_ex)
                 (λ _, "object") format_plain ""
                 (left_by (do_previous elements (λ _, owner_sequence_ex)
                          (λ _, "object") format_plain "" session_three_ex))))
    = selection session_three_ex
  ∧ cycles (left_by (do_next elements (λ _, owner_sequence_ex)
              (λ _, "object") format_plain ""
              (left_by (do_previous elements (λ _, owner_sequence_ex)
                          (λ _, "object") format_plain "" session_three_ex))))
    = cycles session_three_ex.
Proof.
  split; [simpl; lia|].
  apply (next_previous_inverse elements (λ _, owner_sequence_ex)
           (λ _, "object") format_plain "" "" session_three_ex).
  simpl. lia.
Defined.

Lemma keys_varmap (cycle : list (ID * gset ID)) (vm : list (ID * string)) :
  NoDup (keys cycle) → varmap cycle = Some vm → keys vm = keys cycle.
Proof.
  intros Hnd. unfold varmap.
  destruct (varnames_spec (length cycle)) as (j & -> & Hle & _). simpl.
  intros [= <-].
  assert (keys (zip (keys cycle) (Nat.iter j pairs letters)) = keys cycle) as Hk.
  { unfold keys at 1. apply fst_zip.
    unfold keys. by rewrite length_fmap, length_iter_pairs. }
  unfold zip_names. rewrite (dict_of_pairs _ []); [done|]. simpl. by rewrite Hk.
Qed.

Section list_facts.
Variable set_iter : gset ID → list ID.
Variable obj_of : ID → pyobject.
Variable type_of : ID → string.
Variable format : string → string → string → option string.
Hypothesis Hiter : iter_ok set_iter.

Lemma show_members_spec (vm : list (ID * string))
    (cycle : list (ID * gset ID)) (items : list ID) (out : list shown) :
  (∀ item, item ∈ items → is_Some (get cycle item)) →
  (∀ item, is_Some (get cycle item) → is_Some (get vm item)) →
  cycle_closed cycle →
  match show_members set_iter obj_of type_of format vm cycle items out with
  | (Returns _, out') => length out' = length out + length items
  | (Raises, _) =>
      ∃ item refs ref a b,
        get cycle item = Some refs ∧ ref ∈ refs
        ∧ get vm item = Some a ∧ get vm ref = Some b
        ∧ format (describe (obj_of item) ref) a b = None
  end.
Proof.
  intros Hitems Hvm Hclosed. revert out.
  induction items as [|item items IH]; intros out; simpl; [lia|].
  destruct (Hitems item) as [refs Hrefs]; [left|].
  destruct (Hvm item) as [a Ha]; [by eexists|].
  rewrite Hrefs. simpl.
  destruct (member_refs set_iter obj_of format vm item refs) as [texts|]
    eqn:Htexts; simpl.
  - rewrite Ha. simpl.
    specialize (IH (λ i Hi, Hitems i (list_elem_of_further _ _ _ Hi))
                   (out ++ [ShowMember a (type_of item) (sorted_strings texts)])).
    destruct (show_members _ _ _ _ _ _ _ _) as [[[]|] out']; [|done].
    rewrite IH, length_app. simpl. lia.
  - apply mapM_None, Exists_exists in Htexts as (ref & Hin & Hnone).
    apply elem_of_iter in Hin; [|done].
    destruct (Hvm ref) as [b Hb]; [by eapply Hclosed|].
    rewrite Ha, Hb in Hnone. simpl in Hnone.
    by exists item, refs, ref, a, b.
Qed.
End list_facts.


Lemma session_three_ex_ok : session_ok session_three_ex.
Proof.
  split; [simpl; lia|]. intros v Hv. unfold session_three_ex in Hv. simpl in Hv.
  repeat (apply elem_of_cons in Hv as [->|Hv]);
    [..|by apply elem_of_nil in Hv]; simpl.
  all: split; [apply (bool_decide_unpack _); vm_compute; exact I|].
  all: intros k vs y Hk Hy; simpl in Hk;
    repeat case_decide; simplify_eq; apply get_is_Some;
    unfold keys; simpl; set_solver.
Qed.


Example list_run_ex :
  list_run elements (λ _, owner_sequence_ex) (λ _, "object") format_plain
    session_three_ex
  = Run (Returns ())
        [ShowIdentified 3 [(2, false); (3, false); (2, true)];
         ShowSelected 2 30;
         ShowMember "a" "object" ["a {obj:} -> {ref:} b"];
         ShowMember "b" "object" ["b {obj:} -> {ref:} a"]]
        (Session (cycles session_three_ex) 2 [("a", 1%Z); ("b", 3%Z)]).
Proof. vm_compute. reflexivity. Qed.

(** X19. The commands keep the session in good order: after [list],
    [next], [previous] or [quit] the selection is still an index of the
    ranking and the ranked components are the same. *)
Theorem commands_keep_session_ok (set_iter : gset ID → list ID)
    (obj_of : ID → pyobject) (type_of : ID → string)
    (format : string → string → string → option string)
    (arg : string) (s : session) :
  session_ok s →
  session_ok (left_by (do_list set_iter obj_of type_of format arg s))
  ∧ session_ok (left_by (do_next set_iter obj_of type_of format arg s))
  ∧ session_ok (left_by (do_previous set_iter obj_of type_of format arg s))
  ∧ session_ok (left_by (do_quit arg s)).
Proof.
  intros [Hsel Hok].
  destruct (list_run_state set_iter obj_of type_of format s) as [Hc0 Hs0].
  destruct (do_next_state set_iter obj_of type_of format arg s Hsel)
    as [Hc1 Hs1].
  destruct (do_previous_state set_iter obj_of type_of format arg s Hsel)
    as [Hc2 Hs2].
  unfold session_ok, do_list. simpl.
  rewrite Hc0, Hs0, Hc1, Hs1, Hc2, Hs2. clear -Hsel Hok.
  split_and!; try done; case_decide; lia.
Qed.

Lemma commands_keep_session_ok_witness :
  session_ok (left_by (do_list elements (λ _, owner_sequence_ex)
                         (λ _, "object") format_plain "" session_three_ex))
  ∧ session_ok (left_by (do_next elements (λ _, owner_sequence_ex)
                           (λ _, "object") format_plain "" session_three_ex))
  ∧ session_ok (left_by (do_previous elements (λ _, owner_sequence_ex)
                           (λ _, "object") format_plain ""
                           session_three_ex))
  ∧ session_ok (left_by (do_quit "" session_three_ex)).
Proof.
  apply (commands_keep_session_ok elements (λ _, owner_sequence_ex)
           (λ _, "object") format_plain "" session_three_ex).
  exact session_three_ex_ok.
Defined.

(** ** The constructor *)

Lemma measure_and_simplify_spec (getsizeof : ID → nat)
    (dict_of : ID → option ID) (comps : list (list (ID * gset ID)))
    (found : list (nat * list (ID * gset ID))) :
  mapM (measure_and_simplify getsizeof dict_of) comps = Some found →
  Forall2 (λ c v, v.1 = size_of getsizeof c
                  ∧ ∃ collapsed, collapse dict_of c = Some collapsed
                                 ∧ prune collapsed = Some v.2)
          comps found.
Proof.
  intros Hfound%mapM_Some. eapply Forall2_impl; [exact Hfound|].
  intros c v. unfold measure_and_simplify. simpl.
  destruct (collapse dict_of c) as [collapsed|]; [simpl|done].
  destruct (prune collapsed) as [pruned|] eqn:Hp; [simpl|done].
  intros [= <-]. eauto.
Qed.

Lemma measure_and_simplify_total (choose : gset root → root)
    (set_iter : gset ID → list ID) (getsizeof : ID → nat)
    (dict_of : ID → option ID) (refs : list (ID * gset ID)) comps :
  choose_ok choose → iter_ok set_iter →
  separate choose set_iter refs = Some comps →
  is_Some (mapM (measure_and_simplify getsizeof dict_of) comps).
Proof.
  intros Hchoose Hiter Hsep.
  apply mapM_is_Some, Forall_forall. intros c Hc. simpl.
  unfold measure_and_simplify.
  destruct (collapse_total dict_of c) as [collapsed ->];
    [by apply (component_closed choose set_iter refs comps)|].
  simpl. destruct (prune_total collapsed) as [pruned ->]. by eexists.
Qed.

Lemma simplified_ok (choose : gset root → root)
    (set_iter : gset ID → list ID) (getsizeof : ID → nat)
    (dict_of : ID → option ID) (refs : list (ID * gset ID)) comps found v :
  choose_ok choose → iter_ok set_iter →
  separate choose set_iter refs = Some comps →
  mapM (measure_and_simplify getsizeof dict_of) comps = Some found →
  v ∈ found →
  NoDup (keys v.2) ∧ cycle_closed v.2 ∧ ∀ k vs, (k, vs) ∈ v.2 → vs ≠ ∅.
Proof.
  intros Hchoose Hiter Hsep Hfound Hin.
  apply list_elem_of_lookup_1 in Hin as [i Hi].
  apply mapM_Some in Hfound.
  destruct (Forall2_lookup_r _ _ _ _ _ Hfound Hi) as (c & Hc & Hm).
  apply list_elem_of_lookup_2 in Hc.
  unfold measure_and_simplify in Hm.
  destruct (collapse dict_of c) as [collapsed|] eqn:Hcol; [simpl in Hm|done].
  destruct (prune collapsed) as [pruned|] eqn:Hp; [simpl in Hm|done].
  injection Hm as <-. simpl.
  destruct (separate_components choose set_iter Hchoose Hiter _ _ Hsep)
    as (_ & _ & _ & _ & Hnd).
  pose proof (component_closed choose set_iter _ _ c Hchoose Hiter Hsep Hc)
    as Hclosed.
  destruct (collapse_steps_closed dict_of (keys c) c Hclosed)
    as (c' & Hc' & Hclosed').
  { intros item. by rewrite get_is_Some. }
  unfold collapse in Hcol. rewrite Hc' in Hcol. injection Hcol as ->.
  assert (NoDup (keys collapsed)) as Hnd'.
  { rewrite (collapse_steps_keys dict_of _ _ _ Hc'). by apply Hnd. }
  destruct (prune_survivors _ _ Hnd' Hclosed' Hp)
    as (_ & Hndp & Hedges & Hclosedp & _).
  split_and!; [done|done|].
  intros k vs Hin. apply (elem_get _ _ _ Hndp) in Hin.
  by destruct (Hedges k vs Hin) as (? & _ & _ & ?).
Qed.

Lemma ranking_nonempty (choose : gset root → root)
    (set_iter : gset ID → list ID) (get_referents : ID → list ID)
    (getsizeof : ID → nat) (dict_of : ID → option ID) (garbage : gset ID)
    comps found :
  choose_ok choose → iter_ok set_iter → garbage ≠ ∅ →
  separate choose set_iter (build set_iter get_referents garbage) = Some comps →
  mapM (measure_and_simplify getsizeof dict_of) comps = Some found →
  is_Some (sort_by rank_key found !! 0).
Proof.
  intros Hchoose Hiter Hne Hsep Hfound.
  apply lookup_lt_is_Some.
  rewrite (Permutation_length (sort_by_perm rank_key found)).
  apply mapM_Some, Forall2_length in Hfound. rewrite <-Hfound.
  apply set_choose_L in Hne as [x Hx].
  destruct (separate_components choose set_iter Hchoose Hiter _ comps Hsep)
    as (Hcover & _).
  assert (x ∈ keys (build set_iter get_referents garbage))
    as [vs Hin]%elem_of_keys.
  { rewrite keys_build. by apply elem_of_iter. }
  destruct (Hcover (x, vs) x Hin) as (i & c & Hc & _).
  { unfold touched. simpl. set_solver. }
  apply lookup_lt_Some in Hc. lia.
Qed.

Lemma init_unfold (choose : gset root → root)
    (set_iter : gset ID → list ID) (get_referents : ID → list ID)
    (getsizeof : ID → nat) (dict_of : ID → option ID)
    (obj_of : ID → pyobject) (type_of : ID → string)
    (format : string → string → string → option string) (garbage : gset ID) :
  choose_ok choose → iter_ok set_iter → garbage ≠ ∅ →
  ∃ comps found,
    separate choose set_iter (build set_iter get_referents garbage) = Some comps
    ∧ mapM (measure_and_simplify getsizeof dict_of) comps = Some found
    ∧ outcome_of (init choose set_iter get_referents getsizeof dict_of
                    obj_of type_of format garbage)
      = match ending_of (list_run set_iter obj_of type_of format
                           (Session (sort_by rank_key found) 0 [])) with
        | Returns _ =>
            Started (left_by (list_run set_iter obj_of type_of format
                                (Session (sort_by rank_key found) 0 [])))
        | Raises => Aborted
        end.
Proof.
  intros Hchoose Hiter Hne.
  destruct (separate_closed_is_Some choose set_iter Hchoose Hiter
              (build set_iter get_referents garbage))
    as [comps Hsep]; [by apply build_closed|].
  destruct (measure_and_simplify_total choose set_iter getsizeof dict_of
              _ comps Hchoose Hiter Hsep) as [found Hfound].
  exists comps, found. split_and!; [done|done|].
  unfold init. rewrite decide_False by done. rewrite Hsep. simpl.
  by rewrite Hfound.
Qed.

Lemma init_nonempty (choose : gset root → root)
    (set_iter : gset ID → list ID) (get_referents : ID → list ID)
    (getsizeof : ID → nat) (dict_of : ID → option ID)
    (obj_of : ID → pyobject) (type_of : ID → string)
    (format : string → string → string → option string) (garbage : gset ID) :
  outcome_of (init choose set_iter get_referents getsizeof dict_of
                obj_of type_of format garbage) ≠ NoGarbage →
  garbage ≠ ∅.
Proof.
  intros Hout ->. apply Hout. unfold init. by rewrite decide_True.
Qed.

Lemma list_run_cases (set_iter : gset ID → list ID)
    (obj_of : ID → pyobject) (type_of : ID → string)
    (format : string → string → string → option string)
    (s : session) (v : nat * list (ID * gset ID)) :
  iter_ok set_iter → cycles s !! selection s = Some v →
  NoDup (keys v.2) → cycle_closed v.2 →
  ∃ vm, varmap v.2 = Some vm
    ∧ match ending_of (list_run set_iter obj_of type_of format s) with
      | Returns _ =>
          left_by (list_run set_iter obj_of type_of format s)
          = Session (cycles s) (selection s)
                    (foldl (λ d kv, set d kv.2 kv.1) [] vm)
      | Raises =>
          ∃ item refs ref a b,
            get v.2 item = Some refs ∧ ref ∈ refs
            ∧ get vm item = Some a ∧ get vm ref = Some b
            ∧ format (describe (obj_of item) ref) a b = None
      end.
Proof.
  intros Hiter Hv Hnd Hclosed.
  destruct (varmap_total v.2) as [vm Hvm]. exists vm. split; [done|].
  unfold list_run. rewrite Hv. simpl. rewrite Hvm. simpl.
  pose proof (show_members_spec set_iter obj_of type_of format Hiter
         vm v.2 (keys v.2)
         [ShowIdentified (length (cycles s))
            (imap (λ i c, (length c.2, bool_decide (i = selection s)))
                  (cycles s));
          ShowSelected (length v.2) v.1]) as Hshow.
  destruct (show_members _ _ _ _ _ _ _ _) as [[[]|] out]; simpl; [done|].
  apply Hshow; [| |done].
  - intros item. by rewrite get_is_Some.
  - intros item Hitem%get_is_Some. apply get_is_Some.
    by rewrite (keys_varmap _ _ Hnd Hvm).
Qed.

(** [list] does not look at the binding table it is about to replace. *)
Lemma list_run_ignores_locals (set_iter : gset ID → list ID)
    (obj_of : ID → pyobject) (type_of : ID → string)
    (format : string → string → string → option string)
    (cs : list (nat * list (ID * gset ID))) (sel : nat)
    (bound bound' : list (string * ID)) :
  ending_of (list_run set_iter obj_of type_of format (Session cs sel bound))
  = ending_of (list_run set_iter obj_of type_of format (Session cs sel bound'))
  ∧ printed_by (list_run set_iter obj_of type_of format (Session cs sel bound))
    = printed_by (list_run set_iter obj_of type_of format
                    (Session cs sel bound'))
  ∧ (ending_of (list_run set_iter obj_of type_of format (Session cs sel bound))
     = Returns () →
     left_by (list_run set_iter obj_of type_of format (Session cs sel bound))
     = left_by (list_run set_iter obj_of type_of format
                  (Session cs sel bound'))).
Proof.
  unfold list_run. simpl. destruct (cs !! sel) as [v|]; [|done].
  destruct (varmap v.2) as [vm|]; [|done].
  by destruct (show_members _ _ _ _ _ _ _ _) as [[[]|] out].
Qed.

(** C5 as stated fails: the two components of the example weigh the same;
    the one that had three members before simplification is ranked first,
    because it has none left after it. *)
Lemma ranking_counts_members_after_simplification :
  ∃ comps s,
    separate first_root elements
      (build elements referents_rank_ex garbage_rank_ex) = Some comps
    ∧ outcome_of (init first_root elements referents_rank_ex
                    getsizeof_rank_ex (λ _, None) (λ _, owner_sequence_ex)
                    (λ _, "object") format_plain garbage_rank_ex)
      = Started s
    ∧ length <$> comps = [3; 2]
    ∧ rank_key <$> cycles s = [(60, 0); (60, 2)]
    ∧ ¬ ranked_by_original_count getsizeof_rank_ex (λ _, None) comps (cycles s).
Proof.
  destruct (separate first_root elements
              (build elements referents_rank_ex garbage_rank_ex))
    as [comps|] eqn:Hsep; [|by vm_compute in Hsep].
  destruct (outcome_of (init first_root elements referents_rank_ex
                          getsizeof_rank_ex (λ _, None)
                          (λ _, owner_sequence_ex) (λ _, "object")
                          format_plain garbage_rank_ex)) as [|s|] eqn:Hinit;
    [by vm_compute in Hinit| |by vm_compute in Hinit].
  exists comps, s. split_and!; [done|done| | |].
  - vm_compute in Hsep. injection Hsep as <-. reflexivity.
  - vm_compute in Hinit. injection Hinit as <-. reflexivity.
  - intros (order & Hperm & Hmap & Hasc).
    vm_compute in Hsep. injection Hsep as <-.
    vm_compute in Hinit. injection Hinit as <-.
    symmetry in Hperm. apply Permutation_length_2_inv in Hperm as [->| ->].
    + apply StronglySorted_inv in Hasc as [_ Hhd].
      apply Forall_cons_1 in Hhd as [Hle _]. vm_compute in Hle. discriminate.
    + vm_compute in Hmap. discriminate.
Qed.

(** C5, amended.  With uncollected objects found, no pass of the
    constructor raises: each component enters the ranking with the byte
    size it had before simplification and with its simplified mapping, and
    the ranking lists these pairs in ascending order of (size, number of
    members of the simplified mapping), the member count being taken when
    the list is sorted.  The constructor then lists the ranking at
    selection 0: if that listing returns, the session holds this ranking
    and selection 0; if it raises, the constructor raises. *)
Theorem init_ranks_simplified (choose : gset root → root)
    (set_iter : gset ID → list ID) (get_referents : ID → list ID)
    (getsizeof : ID → nat) (dict_of : ID → option ID)
    (obj_of : ID → pyobject) (type_of : ID → string)
    (format : string → string → string → option string) (garbage : gset ID) :
  choose_ok choose → iter_ok set_iter → garbage ≠ ∅ →
  ∃ comps found ranked,
    separate choose set_iter (build set_iter get_referents garbage) = Some comps
    ∧ Forall2 (λ c v, v.1 = size_of getsizeof c
                      ∧ ∃ collapsed, collapse dict_of c = Some collapsed
                                     ∧ prune collapsed = Some v.2)
              comps found
    ∧ ranked ≡ₚ found
    ∧ ascending (λ v, (v.1, length v.2)) ranked
    ∧ (ending_of (list_run set_iter obj_of type_of format
                    (Session ranked 0 [])) = Returns () →
       ∃ s, outcome_of (init choose set_iter get_referents getsizeof dict_of
                          obj_of type_of format garbage) = Started s
            ∧ cycles s = ranked ∧ selection s = 0)
    ∧ (ending_of (list_run set_iter obj_of type_of format
                    (Session ranked 0 [])) = Raises →
       outcome_of (init choose set_iter get_referents getsizeof dict_of
                     obj_of type_of format garbage) = Aborted).
Proof.
  intros Hchoose Hiter Hne.
  destruct (init_unfold choose set_iter get_referents getsizeof dict_of
              obj_of type_of format garbage Hchoose Hiter Hne)
    as (comps & found & Hsep & Hfound & Hout).
  exists comps, found, (sort_by rank_key found).
  split_and!; [done| | | | |].
  - by apply measure_and_simplify_spec.
  - apply sort_by_perm.
  - apply (sort_by_ascending rank_key).
  - intros Hret. rewrite Hret in Hout. eexists. split; [exact Hout|].
    apply (list_run_state set_iter obj_of type_of format
             (Session (sort_by rank_key found) 0 [])).
  - intros Hraise. by rewrite Hraise in Hout.
Qed.

Lemma init_ranks_simplified_witness :
  ∃ comps found ranked,
    separate first_root elements
      (build elements referents_rank_ex garbage_rank_ex) = Some comps
    ∧ Forall2 (λ c v, v.1 = size_of getsizeof_rank_ex c
                      ∧ ∃ collapsed, collapse (λ _, None) c = Some collapsed
                                     ∧ prune collapsed = Some v.2)
              comps found
    ∧ ranked ≡ₚ found
    ∧ ascending (λ v, (v.1, length v.2)) ranked
    ∧ (ending_of (list_run elements (λ _, owner_sequence_ex) (λ _, "object")
                    format_plain (Session ranked 0 [])) = Returns () →
       ∃ s, outcome_of (init first_root elements referents_rank_ex
                          getsizeof_rank_ex (λ _, None)
                          (λ _, owner_sequence_ex) (λ _, "object")
                          format_plain garbage_rank_ex) = Started s
            ∧ cycles s = ranked ∧ selection s = 0)
    ∧ (ending_of (list_run elements (λ _, owner_sequence_ex) (λ _, "object")
                    format_plain (Session ranked 0 [])) = Raises →
       outcome_of (init first_root elements referents_rank_ex
                     getsizeof_rank_ex (λ _, None)
                     (λ _, owner_sequence_ex) (λ _, "object")
                     format_plain garbage_rank_ex) = Aborted).
Proof.
  apply (init_ranks_simplified first_root elements referents_rank_ex
           getsizeof_rank_ex (λ _, None) (λ _, owner_sequence_ex)
           (λ _, "object") format_plain garbage_rank_ex).
  - exact first_root_ok.
  - exact elements_iter_ok.
  - apply (bool_decide_unpack _). vm_compute. exact I.
Defined.

Example init_no_garbage :
  init first_root elements referents_rank_ex getsizeof_rank_ex (λ _, None)
    (λ _, owner_sequence_ex) (λ _, "object") format_plain ∅
  = Construction 0 [] NoGarbage.
Proof. reflexivity. Qed.

(** The suspect set [{1, 2, 3, 4}] with [1 ⇄ 2] and [3 → 4]: the tail
    [3 → 4] is pruned to nothing and is ranked before the cycle. *)
Example init_end_to_end :
  (λ r, match outcome_of r with
        | Started s =>
            Some (found_count r, listing r,
                  (λ v, (v.1, keys v.2)) <$> cycles s, selection s, locals s)
        | _ => None
        end)
    (init first_root elements referents_ex (λ _, 10) (λ _, None)
       (λ _, owner_sequence_ex) (λ _, "object") format_plain garbage_ex)
  = Some (4,
          [ShowIdentified 2 [(0, true); (2, false)]; ShowSelected 0 20],
          [(20, []); (20, [2; 1]%Z)], 0, []).
Proof. vm_compute. reflexivity. Qed.

(** The two suspect objects that refer to each other, with a [str.format]
    that raises: the listing stops after its two header lines and the
    constructor raises. *)
Example init_raises_in_list :
  init first_root elements referents_rank_ex getsizeof_rank_ex (λ _, None)
    (λ _, owner_sequence_ex) (λ _, "object") format_failing garbage_pair_ex
  = Construction 2 [ShowIdentified 1 [(2, true)]; ShowSelected 2 60] Aborted.
Proof. vm_compute. reflexivity. Qed.

(** X20. When [explore_cycles.__init__] gets as far as [cmdloop], it has
    left the session in good order: the selection is an index of the
    ranking; every ranked component, after collapse and pruning, has
    distinct members whose referents are members, each of them with at
    least one referent; and the binding table that the first listing has
    built is that of the selected component. *)
Theorem init_session_ok (choose : gset root → root)
    (set_iter : gset ID → list ID) (get_referents : ID → list ID)
    (getsizeof : ID → nat) (dict_of : ID → option ID)
    (obj_of : ID → pyobject) (type_of : ID → string)
    (format : string → string → string → option string) (garbage : gset ID)
    (s : session) :
  choose_ok choose → iter_ok set_iter →
  outcome_of (init choose set_iter get_referents getsizeof dict_of
                obj_of type_of format garbage) = Started s →
  session_ok s
  ∧ (∀ v k vs, v ∈ cycles s → (k, vs) ∈ v.2 → vs ≠ ∅)
  ∧ list_locals (cycles s) (selection s) = Some (locals s).
Proof.
  intros Hchoose Hiter Hstarted.
  assert (garbage ≠ ∅) as Hne
    by (eapply init_nonempty; by rewrite Hstarted).
  destruct (init_unfold choose set_iter get_referents getsizeof dict_of
              obj_of type_of format garbage Hchoose Hiter Hne)
    as (comps & found & Hsep & Hfound & Hout).
  rewrite Hstarted in Hout.
  destruct (ranking_nonempty choose set_iter get_referents getsizeof dict_of
              garbage comps found Hchoose Hiter Hne Hsep Hfound) as [v0 Hv0].
  assert (Hv : ∀ v, v ∈ sort_by rank_key found →
            NoDup (keys v.2) ∧ cycle_closed v.2
            ∧ ∀ k vs, (k, vs) ∈ v.2 → vs ≠ ∅).
  { intros v Hin. rewrite sort_by_perm in Hin.
    by apply (simplified_ok choose set_iter getsizeof dict_of
                (build set_iter get_referents garbage) comps found). }
  destruct (Hv v0) as (Hnd0 & Hclosed0 & _);
    [by eapply list_elem_of_lookup_2|].
  destruct (list_run_cases set_iter obj_of type_of format
              (Session (sort_by rank_key found) 0 []) v0 Hiter Hv0 Hnd0
              Hclosed0) as (vm & Hvm & Hcases).
  destruct (ending_of (list_run set_iter obj_of type_of format
              (Session (sort_by rank_key found) 0 []))) as [[]|]; [|done].
  injection Hout as ->. rewrite Hcases. simpl.
  split_and!; [split| |].
  - simpl. by apply lookup_lt_Some in Hv0.
  - simpl. intros v Hin. by destruct (Hv v Hin) as (? & ? & _).
  - intros v k vs Hin. by apply (Hv v Hin).
  - unfold list_locals. rewrite Hv0. simpl. by rewrite Hvm.
Qed.

Lemma init_session_ok_witness :
  session_ok session_pair_ex
  ∧ (∀ v k vs, v ∈ cycles session_pair_ex → (k, vs) ∈ v.2 → vs ≠ ∅)
  ∧ list_locals (cycles session_pair_ex) (selection session_pair_ex)
    = Some (locals session_pair_ex).
Proof.
  apply (init_session_ok first_root elements referents_rank_ex
           getsizeof_rank_ex (λ _, None) (λ _, owner_sequence_ex)
           (λ _, "object") format_plain garbage_pair_ex).
  - exact first_root_ok.
  - exact elements_iter_ok.
  - vm_compute. reflexivity.
Defined.

(** ** The sizes of the session *)

Lemma sum_list_Permutation (l l' : list nat) :
  l ≡ₚ l' → sum_list l = sum_list l'.
Proof. induction 1; simpl; lia. Qed.

Lemma sum_list_app (l l' : list nat) :
  sum_list (l ++ l') = sum_list l + sum_list l'.
Proof. induction l; simpl; lia. Qed.

(** X21. When [explore_cycles.__init__] gets as far as [cmdloop], the
    session accounts for every suspect object once: it ranks as many cycles
    as [separate] returns components, and the sizes attached to them add up
    to the size of all the suspect objects. *)
Theorem init_sizes_add_up (choose : gset root → root)
    (set_iter : gset ID → list ID) (get_referents : ID → list ID)
    (getsizeof : ID → nat) (dict_of : ID → option ID)
    (obj_of : ID → pyobject) (type_of : ID → string)
    (format : string → string → string → option string) (garbage : gset ID)
    (s : session) :
  choose_ok choose → iter_ok set_iter →
  outcome_of (init choose set_iter get_referents getsizeof dict_of
                obj_of type_of format garbage) = Started s →
  sum_list ((λ v, v.1) <$> cycles s)
    = sum_list (getsizeof <$> elements garbage)
  ∧ ∃ comps,
      separate choose set_iter (build set_iter get_referents garbage)
        = Some comps
      ∧ length (cycles s) = length comps.
Proof.
  intros Hchoose Hiter Hstarted.
  assert (garbage ≠ ∅) as Hne
    by (eapply init_nonempty; by rewrite Hstarted).
  destruct (init_unfold choose set_iter get_referents getsizeof dict_of
              obj_of type_of format garbage Hchoose Hiter Hne)
    as (comps & found & Hsep & Hfound & Hout).
  rewrite Hstarted in Hout.
  destruct (list_run_state set_iter obj_of type_of format
              (Session (sort_by rank_key found) 0 [])) as [Hcycles _].
  destruct (ending_of (list_run set_iter obj_of type_of format
              (Session (sort_by rank_key found) 0 []))) as [[]|]; [|done].
  injection Hout as ->. rewrite Hcycles. simpl.
  apply mapM_Some in Hfound.
  assert (Hsizes : (λ v : nat * list (ID * gset ID), v.1) <$> found
                   = size_of getsizeof <$> comps).
  { clear -Hfound. induction Hfound as [|c v comps found Hcv _ IH]; [done|].
    rewrite !fmap_cons, IH. f_equal. unfold measure_and_simplify in Hcv.
    destruct (collapse dict_of c); [simpl in Hcv|done].
    destruct (prune _); [simpl in Hcv|done]. by injection Hcv as <-. }
  split.
  - rewrite (sum_list_Permutation _ ((λ v, v.1) <$> found))
      by (by rewrite sort_by_perm).
    rewrite Hsizes.
    trans (sum_list (getsizeof <$> concat (keys <$> comps))).
    { clear. induction comps as [|c comps IH]; [done|].
      rewrite !fmap_cons. simpl. rewrite fmap_app, sum_list_app, <-IH.
      done. }
    apply sum_list_Permutation, fmap_Permutation.
    rewrite (separate_keys_rearranged _ _ _ _ Hchoose Hiter) by
      (try done; rewrite keys_build; by apply NoDup_iter).
    rewrite keys_build. apply Hiter.
  - exists comps. split; [done|].
    rewrite (Permutation_length (sort_by_perm rank_key found)).
    symmetry. by eapply Forall2_length.
Qed.

Lemma init_sizes_add_up_witness :
  sum_list ((λ v, v.1) <$> cycles session_rank_ex)
    = sum_list (getsizeof_rank_ex <$> elements garbage_rank_ex)
  ∧ ∃ comps,
      separate first_root elements
        (build elements referents_rank_ex garbage_rank_ex) = Some comps
      ∧ length (cycles session_rank_ex) = length comps.
Proof.
  apply (init_sizes_add_up first_root elements referents_rank_ex
           getsizeof_rank_ex (λ _, None) (λ _, owner_sequence_ex)
           (λ _, "object") format_plain garbage_rank_ex).
  - exact first_root_ok.
  - exact elements_iter_ok.
  - vm_compute. reflexivity.
Defined.


